(** * compile_script_docs: the scanner and linker of the script reference

    A shallow embedding of [compile_script_docs.py]: the source-set
    collector ([addFile]), the two extractors ([readFunctionInfo],
    [readScriptDefinitions]) and the linker ([linkFunctions],
    [linkParents]), followed by the properties proved about them.

    Conventions of the embedding.
    - A Python [str] is a [string]; a character is an [ascii] code point.
    - An object of the program lives in the list that owns it.  The
      entities of [_definitions] are never removed or reordered, so the
      position of an entity in that list is its identity: a reference to
      a [ScriptClass] ([parent], an element of [children], the scanner's
      [current_class]) is that position.
    - An uncaught Python exception is the [Raise] result. *)

From Stdlib Require Import Ascii String.
From stdpp Require Import base option list gmap strings.

(** ** Results of code that may raise *)

Inductive exn :=
| AttributeError (msg : string).

Inductive result (A : Type) :=
| Ok (a : A)
| Raise (e : exn).
Arguments Ok {A} a.
Arguments Raise {A} e.

Global Instance result_ret : MRet result := λ A a, Ok a.

Global Instance result_bind : MBind result := λ A B k m,
  match m with
  | Ok a => k a
  | Raise e => Raise e
  end.

(** [for x in xs: body], where [body] may raise and updates the state [s]. *)
Fixpoint for_each {A S} (body : S → A → result S) (xs : list A) (s : S)
  : result S :=
  match xs with
  | [] => Ok s
  | x :: xs' => s' ← body s x; for_each body xs' s'
  end.

(** ** The string methods the script calls *)

Module Py.

Definition code (c : ascii) : nat := nat_of_ascii c.

(** [str.isspace] on one character, for the code points below 256. *)
Definition isspace (c : ascii) : bool :=
  let n := code c in
  ((9 <=? n) && (n <=? 13)) || ((28 <=? n) && (n <=? 32))
  || (n =? 133) || (n =? 160).

Fixpoint lstrip (s : string) : string :=
  match s with
  | String c s' => if isspace c then lstrip s' else s
  | EmptyString => EmptyString
  end.

(** [rstrip]: the characters of [s] up to its last non-space one. *)
Fixpoint rstrip (s : string) : string :=
  match s with
  | String c s' =>
      match rstrip s' with
      | EmptyString => if isspace c then EmptyString else String c EmptyString
      | t => String c t
      end
  | EmptyString => EmptyString
  end.

(** [s.strip()] *)
Definition strip (s : string) : string := rstrip (lstrip s).

(** [s.startswith(p)] *)
Fixpoint startswith (s p : string) {struct p} : bool :=
  match p, s with
  | EmptyString, _ => true
  | String c p', String d s' => Ascii.eqb d c && startswith s' p'
  | String _ _, EmptyString => false
  end.

Fixpoint drop (n : nat) (s : string) : string :=
  match n, s with
  | S n', String _ s' => drop n' s'
  | _, _ => s
  end.

(** [s.endswith(p)] *)
Definition endswith (s p : string) : bool :=
  (String.length p <=? String.length s)
  && String.eqb (drop (String.length s - String.length p) s) p.

Definition lower_char (c : ascii) : ascii :=
  let n := code c in
  if (65 <=? n) && (n <=? 90) then ascii_of_nat (n + 32) else c.

(** [s.lower()] on the letters A to Z. *)
Fixpoint lower (s : string) : string :=
  match s with
  | String c s' => String (lower_char c) (lower s')
  | EmptyString => EmptyString
  end.

End Py.

(** ** Regular expressions

    The patterns of the script use literals, character sets, the dot, the
    greedy [*] and [+] on a single character, capture groups that are not
    nested, and the anchors [^] and [$].  [Re] is a backtracking matcher
    for exactly these, with the priorities of Python's [re]: a repetition
    first takes as many characters as it can and gives them back one at a
    time; [search] returns the match that starts leftmost. *)

Module Re.

(** What matches one character. *)
Inductive atom :=
| Chr (c : ascii)                                 (* a literal *)
| Dot                                             (* [.]: any but newline *)
| Set_ (negated : bool) (ranges : list (ascii * ascii)).  (* [[...]] *)

Inductive item :=
| One (a : atom)
| Star (a : atom)      (* a* *)
| Plus (a : atom)      (* a+ *)
| Open                 (* ( *)
| Close                (* ) *)
| Bol                  (* ^ *)
| Eol.                 (* $ *)

Definition regex := list item.

Definition newline : ascii := ascii_of_nat 10.

Definition in_range (c : ascii) (r : ascii * ascii) : bool :=
  (Py.code (fst r) <=? Py.code c) && (Py.code c <=? Py.code (snd r)).

Definition atom_ok (a : atom) (c : ascii) : bool :=
  match a with
  | Chr c' => Ascii.eqb c c'
  | Dot => negb (Ascii.eqb c newline)
  | Set_ neg rs => xorb neg (existsb (in_range c) rs)
  end.

(** The text of the group being read, if one is open. *)
Definition push (c : ascii) (cur : option string) : option string :=
  match cur with
  | Some t => Some (t +:+ String c EmptyString)
  | None => None
  end.

(** Greedy repetition of [a], then the continuation [k]; on failure of
    [k] one character less is tried. *)
Fixpoint star {R} (a : atom) (k : string → nat → option string → option R)
    (s : string) (pos : nat) (cur : option string) : option R :=
  match s with
  | String c s' =>
      if atom_ok a c then
        match star a k s' (S pos) (push c cur) with
        | Some r => Some r
        | None => k s pos cur
        end
      else k s pos cur
  | EmptyString => k s pos cur
  end.

(** Match [r] at the head of [s], which starts at offset [pos] of the
    subject; [caps] are the groups closed so far.  The result is the list
    of the groups' texts. *)
Fixpoint match_here (r : regex) (s : string) (pos : nat)
    (caps : list string) (cur : option string) : option (list string) :=
  match r with
  | [] => Some caps
  | One a :: r' =>
      match s with
      | String c s' =>
          if atom_ok a c then match_here r' s' (S pos) caps (push c cur)
          else None
      | EmptyString => None
      end
  | Star a :: r' =>
      star a (λ s' pos' cur', match_here r' s' pos' caps cur') s pos cur
  | Plus a :: r' =>
      match s with
      | String c s' =>
          if atom_ok a c then
            star a (λ s' pos' cur', match_here r' s' pos' caps cur')
              s' (S pos) (push c cur)
          else None
      | EmptyString => None
      end
  | Open :: r' => match_here r' s pos caps (Some EmptyString)
  | Close :: r' => match_here r' s pos (caps ++ [default EmptyString cur]) None
  | Bol :: r' => if pos =? 0 then match_here r' s pos caps cur else None
  | Eol :: r' =>
      if String.eqb s EmptyString || String.eqb s (String newline EmptyString)
      then match_here r' s pos caps cur else None
  end.

(** [re.match(r, s)]: the groups of a match at the start of [s]. *)
Definition match_ (r : regex) (s : string) : option (list string) :=
  match_here r s 0 [] None.

Fixpoint search_from (r : regex) (s : string) (pos : nat)
  : option (list string) :=
  match match_here r s pos [] None with
  | Some caps => Some caps
  | None =>
      match s with
      | String _ s' => search_from r s' (S pos)
      | EmptyString => None
      end
  end.

(** [re.search(r, s)]: the groups of the leftmost match. *)
Definition search (r : regex) (s : string) : option (list string) :=
  search_from r s 0.

(** The literal text [t] as a pattern. *)
Fixpoint lit (t : string) : regex :=
  match t with
  | String c t' => One (Chr c) :: lit t'
  | EmptyString => []
  end.

(** *** Reading a pattern from its source text *)

Inductive mode :=
| Top                                                  (* outside a set *)
| InSet (negated : bool) (ranges : list (ascii * ascii)).   (* after [[] *)

(** [acc] holds the items read so far, last first; a [*] or [+] turns
    the last item, a single character, into its repetition. *)
Fixpoint parse (m : mode) (acc : regex) (s : string) : option regex :=
  match m, s with
  | Top, EmptyString => Some (rev acc)
  | Top, String c rest =>
      match c, rest, acc with
      | "\"%char, String c' rest', _ => parse Top (One (Chr c') :: acc) rest'
      | "\"%char, EmptyString, _ => None
      | "["%char, String "^"%char rest', _ => parse (InSet true []) acc rest'
      | "["%char, _, _ => parse (InSet false []) acc rest
      | "*"%char, _, One a :: acc' => parse Top (Star a :: acc') rest
      | "+"%char, _, One a :: acc' => parse Top (Plus a :: acc') rest
      | "*"%char, _, _ | "+"%char, _, _ => None
      | "("%char, _, _ => parse Top (Open :: acc) rest
      | ")"%char, _, _ => parse Top (Close :: acc) rest
      | "^"%char, _, _ => parse Top (Bol :: acc) rest
      | "$"%char, _, _ => parse Top (Eol :: acc) rest
      | "."%char, _, _ => parse Top (One Dot :: acc) rest
      | _, _, _ => parse Top (One (Chr c) :: acc) rest
      end
  | InSet _ _, EmptyString => None
  | InSet neg rs, String c rest =>
      match c, rest with
      | "]"%char, _ => parse Top (One (Set_ neg (rev rs)) :: acc) rest
      | "\"%char, String c' rest' => parse (InSet neg ((c', c') :: rs)) acc rest'
      | "\"%char, EmptyString => None
      | _, String "-"%char (String d rest') =>
          if Ascii.eqb d "]" then parse (InSet neg ((c, c) :: rs)) acc rest
          else parse (InSet neg ((c, d) :: rs)) acc rest'
      | _, _ => parse (InSet neg ((c, c) :: rs)) acc rest
      end
  end.

(** [re.compile(src)]; a text outside the fragment gives the pattern
    that matches nothing. *)
Definition compile (src : string) : regex :=
  default [One (Set_ false [])] (parse Top [] src).

(** [m.group(n)], for n from 1. *)
Definition group (caps : list string) (n : nat) : string :=
  default EmptyString (caps !! (n - 1)).

End Re.

(** ** The patterns of the script

    Each pattern is compiled from the text it has in the source. *)

Definition dquote : string := String "034"%char EmptyString.

(** addFile *)
Definition re_include : Re.regex := Eval vm_compute in
  Re.compile ("^# *include *[<" +:+ dquote +:+ "](.*)[>" +:+ dquote +:+ "]$").

(** readFunctionInfo *)
Definition re_qualified : Re.regex := Eval vm_compute in
  Re.compile "([a-zA-Z0-9]+)::([a-zA-Z0-9]+)\(([^\)]*)\)".
Definition re_class_decl : Re.regex := Eval vm_compute in
  Re.compile "^class ([a-zA-Z0-9]+)".
Definition re_in_class : Re.regex := Eval vm_compute in
  Re.compile "^ *([a-zA-Z0-9 \:\<\>]+) +([a-zA-Z0-9]+)\(([^\)]*)\)".

(** readScriptDefinitions *)
Definition re_doc : Re.regex := Eval vm_compute in
  Re.compile "///(.*)".
Definition re_CLASS : Re.regex := Eval vm_compute in
  Re.compile "REGISTER_SCRIPT_CLASS\(([^\)]*)\)".
Definition re_CLASS_NO_CREATE : Re.regex := Eval vm_compute in
  Re.compile "REGISTER_SCRIPT_CLASS_NO_CREATE\(([^\)]*)\)".
Definition re_SUBCLASS : Re.regex := Eval vm_compute in
  Re.compile "REGISTER_SCRIPT_SUBCLASS\(([^,]*),([^\)]*)\)".
Definition re_SUBCLASS_NO_CREATE : Re.regex := Eval vm_compute in
  Re.compile "REGISTER_SCRIPT_SUBCLASS_NO_CREATE\(([^,]*),([^\)]*)\)".
Definition re_CLASS_FUNCTION : Re.regex := Eval vm_compute in
  Re.compile "REGISTER_SCRIPT_CLASS_FUNCTION\(([^,]*),([^\)]*)\)".
Definition re_CLASS_CALLBACK : Re.regex := Eval vm_compute in
  Re.compile "REGISTER_SCRIPT_CLASS_CALLBACK\(([^,]*),([^\)]*)\)".
Definition re_FUNCTION : Re.regex := Eval vm_compute in
  Re.compile "REGISTER_SCRIPT_FUNCTION\(([^\)]*)\)".

(** ** The data model *)

Module ScriptFunction.
Record t := mk {
  name : string;
  description : string;
  origin_class : option string;
  parameters : option string
}.
(** [ScriptFunction(name)] *)
Definition init (name : string) : t := mk name "" None None.
Definition set_parameters (v : option string) (f : t) : t :=
  mk (name f) (description f) (origin_class f) v.
(** [__repr__] *)
Definition repr (f : t) : string := name f.
End ScriptFunction.

Module ScriptMember.
Record t := mk {
  name : string;
  description : string;
  origin_class : option string
}.
(** [ScriptMember(name)] *)
Definition init (name : string) : t := mk name "" None.
End ScriptMember.

Module ScriptClass.
Record t := mk {
  name : string;
  parent_name : option string;
  parent : option nat;          (* a reference into [_definitions] *)
  description : string;
  children : list nat;          (* references into [_definitions] *)
  create : bool;
  functions : list ScriptFunction.t;
  members : list ScriptMember.t;
  callbacks : list string
}.
(** [ScriptClass(name)] *)
Definition init (name : string) : t := mk name None None "" [] true [] [] [].

Definition set_parent_name (v : option string) (c : t) : t :=
  mk (name c) v (parent c) (description c) (children c) (create c)
     (functions c) (members c) (callbacks c).
Definition set_parent (v : option nat) (c : t) : t :=
  mk (name c) (parent_name c) v (description c) (children c) (create c)
     (functions c) (members c) (callbacks c).
Definition set_description (v : string) (c : t) : t :=
  mk (name c) (parent_name c) (parent c) v (children c) (create c)
     (functions c) (members c) (callbacks c).
Definition set_children (v : list nat) (c : t) : t :=
  mk (name c) (parent_name c) (parent c) (description c) v (create c)
     (functions c) (members c) (callbacks c).
Definition set_create (v : bool) (c : t) : t :=
  mk (name c) (parent_name c) (parent c) (description c) (children c) v
     (functions c) (members c) (callbacks c).
Definition set_functions (v : list ScriptFunction.t) (c : t) : t :=
  mk (name c) (parent_name c) (parent c) (description c) (children c)
     (create c) v (members c) (callbacks c).
Definition set_members (v : list ScriptMember.t) (c : t) : t :=
  mk (name c) (parent_name c) (parent c) (description c) (children c)
     (create c) (functions c) v (callbacks c).
Definition set_callbacks (v : list string) (c : t) : t :=
  mk (name c) (parent_name c) (parent c) (description c) (children c)
     (create c) (functions c) (members c) v.

(** [addFunction], [addMember], [addCallback] append a new object and
    return it for the caller to fill in; here the caller passes the
    object with its fields already set. *)
Definition addFunction (f : ScriptFunction.t) (c : t) : t :=
  set_functions (functions c ++ [f]) c.
Definition addMember (m : ScriptMember.t) (c : t) : t :=
  set_members (members c ++ [m]) c.
Definition addCallback (callback_name : string) (c : t) : t :=
  set_callbacks (callbacks c ++ [callback_name]) c.
End ScriptClass.

(** An entity of the declaration list [_definitions]. *)
Inductive definition :=
| Class (c : ScriptClass.t)
| Function (f : ScriptFunction.t).

(** [d.name] *)
Definition def_name (d : definition) : string :=
  match d with
  | Class c => ScriptClass.name c
  | Function f => ScriptFunction.name f
  end.

(** Update in place of the class object [d], when [d] is one. *)
Definition on_class (f : ScriptClass.t → ScriptClass.t) (d : definition)
  : definition :=
  match d with
  | Class c => Class (f c)
  | Function _ => d
  end.

(** [ScriptClass.__repr__], reading the parent's name through the
    reference. *)
Definition repr_class (defs : list definition) (c : ScriptClass.t) : string :=
  let ret := ScriptClass.name c in
  let ret :=
    match ScriptClass.parent c with
    | Some j =>
        ret +:+ "(" +:+ from_option def_name "" (defs !! j) +:+ ")"
    | None => ret
    end in
  let ret :=
    fold_left (λ ret func, ret +:+ ":" +:+ ScriptFunction.repr func)
      (ScriptClass.functions c) ret in
  "{" +:+ ret +:+ "}".

(** ** Paths ([os.path] on a POSIX system) *)

Module Path.

(** [(p[:i], p[i:])] for [i = p.rfind(sep) + 1]. *)
Fixpoint rsplit_sep (p : string) : string * string :=
  match p with
  | String c p' =>
      let '(h, t) := rsplit_sep p' in
      match h with
      | String _ _ => (String c h, t)
      | EmptyString =>
          if Ascii.eqb c "/" then (String c EmptyString, t)
          else (EmptyString, String c t)
      end
  | EmptyString => (EmptyString, EmptyString)
  end.

Fixpoint all_sep (s : string) : bool :=
  match s with
  | String c s' => Ascii.eqb c "/" && all_sep s'
  | EmptyString => true
  end.

(** [s.rstrip(sep)] *)
Fixpoint rstrip_sep (s : string) : string :=
  match s with
  | String c s' =>
      match rstrip_sep s' with
      | EmptyString =>
          if Ascii.eqb c "/" then EmptyString else String c EmptyString
      | t => String c t
      end
  | EmptyString => EmptyString
  end.

(** [os.path.dirname(p)] *)
Definition dirname (p : string) : string :=
  let head := fst (rsplit_sep p) in
  if negb (String.eqb head "") && negb (all_sep head) then rstrip_sep head
  else head.

(** [(b[:i], b[i:])] for [i = b.rfind(extsep)], [(b, empty)] without a
    dot. *)
Fixpoint rsplit_dot (b : string) : string * string :=
  match b with
  | String c b' =>
      let '(stem, ext) := rsplit_dot b' in
      match ext with
      | String _ _ => (String c stem, ext)
      | EmptyString =>
          if Ascii.eqb c "." then (EmptyString, b) else (String c stem, ext)
      end
  | EmptyString => (EmptyString, EmptyString)
  end.

Fixpoint all_dots (s : string) : bool :=
  match s with
  | String c s' => Ascii.eqb c "." && all_dots s'
  | EmptyString => true
  end.

(** [os.path.splitext(p)[1]]: the extension starts at the last dot of
    the last component, unless only dots precede it there. *)
Definition splitext_ext (p : string) : string :=
  let '(stem, ext) := rsplit_dot (snd (rsplit_sep p)) in
  if all_dots stem then "" else ext.

(** [os.path.join(a, b)] *)
Definition join (a b : string) : string :=
  if Py.startswith b "/" then b
  else if String.eqb a "" || Py.endswith a "/" then a +:+ b
  else a +:+ "/" +:+ b.

End Path.

(** ** The source-set collector

    The file system is a finite map from the paths of its regular files
    to their lines: [os.path.isfile] holds of the keys, and the paths
    that name a file are finitely many (the length of a path is
    bounded).  A file is known to the script by the spelling of its
    path only, so two spellings are two keys.  [_files] is a set: a list
    without repetition, in the order of insertion, so it also tells in
    which order the files were read.  The recursion of [addFile]
    follows the includes, so it is not structural; [fuel] bounds its
    depth and [None] means that the bound was reached. *)

Definition file_system := gmap string (list string).

Fixpoint for_lines {S} (body : S → string → option S) (lines : list string)
    (s : S) : option S :=
  match lines with
  | [] => Some s
  | line :: lines' => s' ← body s line; for_lines body lines' s'
  end.

Definition is_c_family (ext : string) : bool :=
  String.eqb ext ".c" || String.eqb ext ".cpp" || String.eqb ext ".h".

Fixpoint addFile (fuel : nat) (fs : file_system) (filename : string)
    (files : list string) : option (list string) :=
  match fuel with
  | 0 => None
  | S fuel' =>
      if bool_decide (filename ∈ files) then Some files
      else
        match fs !! filename with
        | None => Some files
        | Some lines =>
            let files := files ++ [filename] in
            let ext := Py.lower (Path.splitext_ext filename) in
            if is_c_family ext then
              for_lines
                (λ files line,
                   match Re.match_ re_include line with
                   | Some m =>
                       files ← addFile fuel' fs (Re.group m 1) files;
                       addFile fuel' fs
                         (Path.join (Path.dirname filename) (Re.group m 1))
                         files
                   | None => Some files
                   end)
                lines files
            else Some files
        end
  end.

(** The body of the loop of [addFile] over the lines of [filename]. *)
Definition follow_include (fuel : nat) (fs : file_system) (filename : string)
    (files : list string) (line : string) : option (list string) :=
  match Re.match_ re_include line with
  | Some m =>
      files ← addFile fuel fs (Re.group m 1) files;
      addFile fuel fs (Path.join (Path.dirname filename) (Re.group m 1)) files
  | None => Some files
  end.

(** What a call that returns has done to the set: it has added paths at
    the end, and no path is in it twice. *)
Definition visits (files files' : list string) : Prop :=
  NoDup files' ∧ ∃ added, files' = files ++ added.

(** The paths of the regular files not yet visited: what [addFile] can
    still add. *)
Definition unvisited (fs : file_system) (files : list string) : nat :=
  size (filter (λ p, p ∉ files) (dom fs)).

(** ** The signature extractor *)

(** A row of [_function_info]: owner, method, raw parameter text. *)
Definition signature : Type := string * string * string.

Record header_scan := HeaderScan {
  function_info : list signature;
  h_current_class : option string
}.

(** The body of the loop over the lines of one header. *)
Definition readFunctionInfo_line (st : header_scan) (line : string)
  : header_scan :=
  if Py.startswith line "#" then st
  else
    let info := function_info st in
    let info :=
      match Re.search re_qualified line with
      | Some m => info ++ [(Re.group m 1, Re.group m 2, Re.group m 3)]
      | None => info
      end in
    let current_class :=
      match Re.search re_class_decl line with
      | Some m => Some (Re.group m 1)
      | None => h_current_class st
      end in
    let info :=
      match current_class with
      | Some cls =>
          match Re.search re_in_class line with
          | Some m =>
              if negb (String.eqb (Re.group m 2) "")
              then info ++ [(cls, Re.group m 2, Re.group m 3)]
              else info
          | None => info
          end
      | None => info
      end in
    HeaderScan info current_class.

(** The lines of one file, from [current_class = None]. *)
Definition readFunctionInfo_file (info : list signature) (lines : list string)
  : list signature :=
  function_info (fold_left readFunctionInfo_line lines (HeaderScan info None)).

(** [files] are the members of [_files] with their lines, in the order
    in which the set is iterated. *)
Definition readFunctionInfo (files : list (string * list string))
    (info : list signature) : list signature :=
  fold_left
    (λ info '(filename, lines),
       if negb (Py.endswith filename ".h") then info
       else readFunctionInfo_file info lines)
    files info.

(** ** The declaration extractor *)

Record scan := Scan {
  definitions : list definition;
  current_class : option nat;      (* a reference into [definitions] *)
  description : string
}.

(** [current_class = ScriptClass(..); ..; self._definitions.append(..)] *)
Definition declare_class (c : ScriptClass.t) (st : scan) : scan :=
  Scan (definitions st ++ [Class c]) (Some (length (definitions st)))
       (description st).

Definition none_has_no (attr : string) : exn :=
  AttributeError ("'NoneType' object has no attribute '" +:+ attr +:+ "'").

(** A method call on [current_class]. *)
Definition with_current_class (attr : string)
    (f : ScriptClass.t → ScriptClass.t) (st : scan) : result scan :=
  match current_class st with
  | Some i =>
      Ok (Scan (alter (on_class f) i (definitions st)) (current_class st)
               (description st))
  | None => Raise (none_has_no attr)
  end.

Definition on_CLASS (line : string) (st : scan) : scan :=
  match Re.search re_CLASS line with
  | Some m =>
      declare_class
        (ScriptClass.set_description (description st)
           (ScriptClass.init (Py.strip (Re.group m 1)))) st
  | None => st
  end.

Definition on_CLASS_NO_CREATE (line : string) (st : scan) : scan :=
  match Re.search re_CLASS_NO_CREATE line with
  | Some m =>
      declare_class
        (ScriptClass.set_description (description st)
           (ScriptClass.set_create false
              (ScriptClass.init (Py.strip (Re.group m 1))))) st
  | None => st
  end.

Definition on_SUBCLASS (line : string) (st : scan) : scan :=
  match Re.search re_SUBCLASS line with
  | Some m =>
      declare_class
        (ScriptClass.set_description (description st)
           (ScriptClass.set_parent_name (Some (Py.strip (Re.group m 2)))
              (ScriptClass.init (Py.strip (Re.group m 1))))) st
  | None => st
  end.

Definition on_SUBCLASS_NO_CREATE (line : string) (st : scan) : scan :=
  match Re.search re_SUBCLASS_NO_CREATE line with
  | Some m =>
      declare_class
        (ScriptClass.set_description (description st)
           (ScriptClass.set_create false
              (ScriptClass.set_parent_name (Some (Py.strip (Re.group m 2)))
                 (ScriptClass.init (Py.strip (Re.group m 1)))))) st
  | None => st
  end.

Definition on_CLASS_FUNCTION (line : string) (st : scan) : result scan :=
  match Re.search re_CLASS_FUNCTION line with
  | Some m =>
      with_current_class "addFunction"
        (ScriptClass.addFunction
           (ScriptFunction.mk (Py.strip (Re.group m 2)) (description st)
              (Some (Py.strip (Re.group m 1))) None)) st
  | None => Ok st
  end.

Definition on_CLASS_CALLBACK (line : string) (st : scan) : result scan :=
  match Re.search re_CLASS_CALLBACK line with
  | Some m =>
      with_current_class "addCallback"
        (ScriptClass.addCallback (Py.strip (Re.group m 2))) st
  | None => Ok st
  end.

Definition on_FUNCTION (line : string) (st : scan) : scan :=
  match Re.search re_FUNCTION line with
  | Some m =>
      Scan (definitions st
            ++ [Function (ScriptFunction.mk (Py.strip (Re.group m 1))
                            (description st) None None)])
           None (description st)
  | None => st
  end.

(** The body of the loop over the lines of one file. *)
Definition readScriptDefinitions_line (st : scan) (line : string)
  : result scan :=
  if Py.startswith line "#" then Ok st
  else
    match Re.search re_doc line with
    | Some m =>
        let description := description st in
        let description :=
          if negb (String.eqb description "")
          then description +:+ String Re.newline EmptyString
          else description in
        Ok (Scan (definitions st) (current_class st)
                 (description +:+ Re.group m 1))
    | None =>
        let st := on_CLASS line st in
        let st := on_CLASS_NO_CREATE line st in
        let st := on_SUBCLASS line st in
        let st := on_SUBCLASS_NO_CREATE line st in
        st ← on_CLASS_FUNCTION line st;
        st ← on_CLASS_CALLBACK line st;
        let st := on_FUNCTION line st in
        Ok (Scan (definitions st) (current_class st) "")
    end.

(** The lines of one file, from [description = ""] and
    [current_class = None]. *)
Definition readScriptDefinitions_file (defs : list definition)
    (lines : list string) : result (list definition) :=
  st ← for_each readScriptDefinitions_line lines (Scan defs None "");
  Ok (definitions st).

(** [files] are the members of [_files] with their lines, in the order
    in which the set is iterated. *)
Definition readScriptDefinitions (files : list (string * list string))
    (defs : list definition) : result (list definition) :=
  for_each readScriptDefinitions_file (files.*2) defs.

(** ** The linker *)

(** The test and assignment at the heart of [linkFunctions]. *)
Definition link_function (sig : signature) (func : ScriptFunction.t)
  : ScriptFunction.t :=
  let '(class_name, function_name, parameters) := sig in
  if bool_decide (ScriptFunction.origin_class func = Some class_name)
     && bool_decide (ScriptFunction.name func = function_name)
  then ScriptFunction.set_parameters (Some parameters) func
  else func.

(** One row of [_function_info] against every function of every class. *)
Definition linkFunctions_row (defs : list definition) (sig : signature)
  : list definition :=
  map (on_class (λ c, ScriptClass.set_functions
                        (map (link_function sig) (ScriptClass.functions c)) c))
      defs.

Definition linkFunctions (info : list signature) (defs : list definition)
  : list definition :=
  fold_left linkFunctions_row info defs.

Definition isValid : ScriptFunction.t :=
  ScriptFunction.mk "isValid"
    "Check if this is still looking at a valid object. Returns false when the objects that this variable references is destroyed."
    None (Some "").

Definition destroy : ScriptFunction.t :=
  ScriptFunction.mk "destroy" "Removes this object from the game."
    None (Some "").

Definition typeName : ScriptMember.t :=
  ScriptMember.mk "typeName"
    ("Returns the class name of this object, this is not a function, but a direct member: if object.typeName == "
     +:+ dquote +:+ "Mine" +:+ dquote +:+ " then print(" +:+ dquote
     +:+ "MINE!" +:+ dquote +:+ ") end")
    None.

(** [d.children.append(definition)], [definition] being the entity at
    [i] and [d] the one at [j]. *)
Definition append_child (i j : nat) (defs : list definition)
  : result (list definition) :=
  match defs !! j with
  | Some (Class d) =>
      Ok (<[j := Class (ScriptClass.set_children
                          (ScriptClass.children d ++ [i]) d)]> defs)
  | Some (Function _) =>
      Raise (AttributeError
               "'ScriptFunction' object has no attribute 'children'")
  | None => Ok defs
  end.

(** The body of the inner loop of [linkParents]: the entity at [j]
    against the parent name of the class at [i]. *)
Definition link_parent (i : nat) (parent_name : string)
    (defs : list definition) (j : nat) : result (list definition) :=
  match defs !! j with
  | Some d =>
      if bool_decide (def_name d = parent_name) then
        append_child i j
          (alter (on_class (ScriptClass.set_parent (Some j))) i defs)
      else Ok defs
  | None => Ok defs
  end.

(** What [print] writes for a class without a resolved parent. *)
Definition parent_not_found (defs : list definition) (c : ScriptClass.t)
  : string :=
  "Parent not found for: " +:+ " " +:+ repr_class defs c.

(** The body of the outer loop of [linkParents] on the entity at [i];
    [out] are the lines printed so far. *)
Definition linkParents_step (st : list definition * list string) (i : nat)
  : result (list definition * list string) :=
  let '(defs, out) := st in
  match defs !! i with
  | Some (Class definition) =>
      match ScriptClass.parent_name definition with
      | Some parent_name =>
          defs ← for_each (link_parent i parent_name)
                   (seq 0 (length defs)) defs;
          match defs !! i with
          | Some (Class definition) =>
              match ScriptClass.parent definition with
              | None => Ok (defs, out ++ [parent_not_found defs definition])
              | Some _ => Ok (defs, out)
              end
          | _ => Ok (defs, out)
          end
      | None =>
          Ok (alter (on_class (λ c, ScriptClass.addMember typeName
                                      (ScriptClass.addFunction destroy
                                         (ScriptClass.addFunction isValid c))))
                    i defs,
              out)
      end
  | _ => Ok (defs, out)
  end.

Definition linkParents (defs : list definition)
  : result (list definition * list string) :=
  for_each linkParents_step (seq 0 (length defs)) (defs, []).

(** The two passes, in the order of the script's entry point. *)
Definition link (info : list signature) (defs : list definition)
  : result (list definition * list string) :=
  linkParents (linkFunctions info defs).

(** ** The linker in closed form

    What [linkParents] leaves in each entity, as a function of the
    declaration list it starts from.  The loops above are proved equal
    to these in the second half of the file. *)

(** [new] if there is one, else [old]. *)
Definition or_keep {A} (new old : option A) : option A :=
  match new with
  | Some _ => new
  | None => old
  end.

(** The changes [linkParents] makes to a class object: a parent to
    assign, if any, and what it appends to the three lists. *)
Definition relink (par : option nat) (kids : list nat)
    (fns : list ScriptFunction.t) (mbs : list ScriptMember.t)
    (c : ScriptClass.t) : ScriptClass.t :=
  ScriptClass.mk (ScriptClass.name c) (ScriptClass.parent_name c)
    (or_keep par (ScriptClass.parent c)) (ScriptClass.description c)
    (ScriptClass.children c ++ kids) (ScriptClass.create c)
    (ScriptClass.functions c ++ fns) (ScriptClass.members c ++ mbs)
    (ScriptClass.callbacks c).

(** The positions, counted from [start], of the elements that satisfy
    [P], in increasing order. *)
Fixpoint positions {A} (P : A → bool) (l : list A) (start : nat) : list nat :=
  match l with
  | [] => []
  | x :: l' => (if P x then [start] else []) ++ positions P l' (S start)
  end.

Definition is_named (p : string) (d : definition) : bool :=
  bool_decide (def_name d = p).

Definition is_class_named (p : string) (d : definition) : bool :=
  match d with
  | Class c => bool_decide (ScriptClass.name c = p)
  | Function _ => false
  end.

Definition is_function_named (p : string) (d : definition) : bool :=
  match d with
  | Function f => bool_decide (ScriptFunction.name f = p)
  | Class _ => false
  end.

Definition is_child_of (nm : string) (d : definition) : bool :=
  match d with
  | Class c => bool_decide (ScriptClass.parent_name c = Some nm)
  | Function _ => false
  end.

Definition is_root (c : ScriptClass.t) : bool :=
  match ScriptClass.parent_name c with
  | None => true
  | Some _ => false
  end.

(** The last entity named [p], which is the one the inner loop leaves in
    [parent]. *)
Definition resolve (p : string) (defs : list definition) : option nat :=
  last (positions (is_named p) defs 0).

(** The classes that name [nm] as their parent. *)
Definition children_of (nm : string) (defs : list definition) : list nat :=
  positions (is_child_of nm) defs 0.

(** The class at [k] once the outer loop has passed the entities before
    [m]. *)
Definition linked_class (defs : list definition) (m k : nat)
    (c : ScriptClass.t) : ScriptClass.t :=
  relink
    (if k <? m then p ← ScriptClass.parent_name c; resolve p defs else None)
    (children_of (ScriptClass.name c) (take m defs))
    (if (k <? m) && is_root c then [isValid; destroy] else [])
    (if (k <? m) && is_root c then [typeName] else [])
    c.

Definition linked (defs : list definition) (m : nat) : list definition :=
  imap (λ k, on_class (linked_class defs m k)) defs.

(** The class at [k] once the inner loop for the class at [i], whose
    parent name is [p], has passed the entities before [m]. *)
Definition candidate_class (defs : list definition) (i : nat) (p : string)
    (m k : nat) (c : ScriptClass.t) : ScriptClass.t :=
  relink
    (if k =? i then last (positions (is_named p) (take m defs) 0) else None)
    (if (k <? m) && bool_decide (ScriptClass.name c = p) then [i] else [])
    [] [] c.

Definition candidates (defs : list definition) (i : nat) (p : string)
    (m : nat) : list definition :=
  imap (λ k, on_class (candidate_class defs i p m k)) defs.

(** A class whose parent name is the name of a free function: the
    append to [children] raises. *)
Definition clash_at (defs : list definition) (d : definition) : bool :=
  match d with
  | Class c =>
      match ScriptClass.parent_name c with
      | Some p => existsb (is_function_named p) defs
      | None => false
      end
  | Function _ => false
  end.

Definition clash (defs : list definition) : bool :=
  existsb (clash_at defs) defs.

Definition no_children : exn :=
  AttributeError "'ScriptFunction' object has no attribute 'children'".

(** What the outer loop prints at one entity. *)
Definition diagnostic (defs : list definition) (d : definition)
  : list string :=
  match d with
  | Class c =>
      match ScriptClass.parent_name c with
      | Some p =>
          match or_keep (resolve p defs) (ScriptClass.parent c) with
          | None => [parent_not_found defs c]
          | Some _ => []
          end
      | None => []
      end
  | Function _ => []
  end.

Definition diagnostics (defs : list definition) : list string :=
  concat (map (diagnostic defs) defs).

(** The last row of [info] that matches [func], which is the one whose
    parameters [linkFunctions] leaves in it. *)
Definition matches (func : ScriptFunction.t) (sig : signature) : bool :=
  bool_decide (ScriptFunction.origin_class func = Some sig.1.1)
  && bool_decide (ScriptFunction.name func = sig.1.2).

Definition linked_function (info : list signature) (func : ScriptFunction.t)
  : ScriptFunction.t :=
  match last (filter (λ sig, matches func sig = true) info) with
  | Some sig => ScriptFunction.set_parameters (Some sig.2) func
  | None => func
  end.

(** What [linkFunctions] leaves in a class. *)
Definition link_class (info : list signature) (c : ScriptClass.t)
  : ScriptClass.t :=
  ScriptClass.set_functions
    (map (linked_function info) (ScriptClass.functions c)) c.

(** ** The state in which the extractor leaves the declaration list *)

Definition unlinked_function (f : ScriptFunction.t) : bool :=
  bool_decide (ScriptFunction.parameters f = None)
  && bool_decide (ScriptFunction.origin_class f ≠ None).

(** A class that [linkParents] has not touched. *)
Definition parents_unlinked_class (c : ScriptClass.t) : bool :=
  bool_decide (ScriptClass.parent c = None)
  && bool_decide (ScriptClass.children c = [])
  && bool_decide (ScriptClass.members c = []).

Definition unlinked_class (c : ScriptClass.t) : bool :=
  parents_unlinked_class c
  && forallb unlinked_function (ScriptClass.functions c).

Definition unlinked_definition (d : definition) : bool :=
  match d with
  | Class c => unlinked_class c
  | Function _ => true
  end.

(** The declaration list before [linkParents]: no class has a parent, a
    child or a member yet. *)
Definition parents_unlinked (defs : list definition) : bool :=
  forallb (λ d, match d with
                | Class c => parents_unlinked_class c
                | Function _ => true
                end) defs.

(** The declaration list before both passes: moreover every function of
    a class has an origin class and no parameters. *)
Definition unlinked (defs : list definition) : bool :=
  forallb unlinked_definition defs.

(** What a scan has added between two states of the declaration list:
    entities at the end, and functions and callbacks at the end of the
    lists of the classes that were there.  [Q] holds of the description
    of everything that was added. *)
Definition added_function (Q : string → Prop) (f : ScriptFunction.t) : Prop :=
  Q (ScriptFunction.description f) ∧ unlinked_function f = true.

Definition extended_entry (Q : string → Prop) (old : option definition)
    (d' : definition) : Prop :=
  match old, d' with
  | Some (Class c), Class c' =>
      ScriptClass.name c' = ScriptClass.name c
      ∧ ScriptClass.parent_name c' = ScriptClass.parent_name c
      ∧ ScriptClass.parent c' = ScriptClass.parent c
      ∧ ScriptClass.description c' = ScriptClass.description c
      ∧ ScriptClass.children c' = ScriptClass.children c
      ∧ ScriptClass.create c' = ScriptClass.create c
      ∧ ScriptClass.members c' = ScriptClass.members c
      ∧ ∃ fs, ScriptClass.functions c' = ScriptClass.functions c ++ fs
              ∧ Forall (added_function Q) fs
  | Some (Function f), Function f' => f' = f
  | None, Class c' =>
      Q (ScriptClass.description c')
      ∧ parents_unlinked_class c' = true
      ∧ Forall (added_function Q) (ScriptClass.functions c')
  | None, Function f' => Q (ScriptFunction.description f')
  | _, _ => False
  end.

Definition extended (Q : string → Prop) (before after : list definition)
  : Prop :=
  length before ≤ length after
  ∧ ∀ i d', after !! i = Some d' → extended_entry Q (before !! i) d'.

(** The number of functions called [n] in a list of functions. *)
Definition count_named (n : string) (fs : list ScriptFunction.t) : nat :=
  length (filter (λ f, ScriptFunction.name f = n) fs).

Definition count_member (n : string) (ms : list ScriptMember.t) : nat :=
  length (filter (λ m, ScriptMember.name m = n) ms).

(** ** The two contexts of the extractors, as the specification words them *)

(** The signature extractor: the name on the last line so far that
    begins with [class Identifier]. *)
Definition class_of_line (line : string) : option string :=
  m ← Re.search re_class_decl line; Some (Re.group m 1).

Definition most_recent_class (lines : list string) : option string :=
  last (omap class_of_line lines).

(** The declaration extractor: whether [line] has a match of [r]. *)
Definition found (r : Re.regex) (line : string) : bool :=
  match Re.search r line with
  | Some _ => true
  | None => false
  end.

(** The lines it scans for macros are those that are neither a
    directive nor a documentation comment. *)
Definition is_skipped (line : string) : bool :=
  Py.startswith line "#" || found re_doc line.

Definition is_class_macro (line : string) : bool :=
  found re_CLASS line || found re_CLASS_NO_CREATE line
  || found re_SUBCLASS line || found re_SUBCLASS_NO_CREATE line.

Definition is_per_class_macro (line : string) : bool :=
  found re_CLASS_FUNCTION line || found re_CLASS_CALLBACK line.

(** Every per-class macro of [lines] comes after a class macro with no
    free-function macro in between; [active] tells whether a class
    macro is pending when [lines] starts. *)
Fixpoint ordered (active : bool) (lines : list string) : bool :=
  match lines with
  | [] => true
  | line :: rest =>
      if is_skipped line then ordered active rest
      else
        let active := active || is_class_macro line in
        if is_per_class_macro line && negb active then false
        else ordered (active && negb (found re_FUNCTION line)) rest
  end.

(** Whether a class is the current one. *)
Definition in_class (st : scan) : bool :=
  match current_class st with
  | Some _ => true
  | None => false
  end.

(** The class macros of a line, in the order of the source. *)
Definition class_macros (line : string) (st : scan) : scan :=
  on_SUBCLASS_NO_CREATE line
    (on_SUBCLASS line (on_CLASS_NO_CREATE line (on_CLASS line st))).

(** The errors of a method call on [current_class = None]. *)
Definition is_none_error (e : exn) : Prop :=
  e = none_has_no "addFunction" ∨ e = none_has_no "addCallback".

(** The text of the open group of a match after the characters [u] are
    read. *)
Definition extend (cur : option string) (u : string) : option string :=
  (λ t, t +:+ u) <$> cur.

(** Whether a result is a value. *)
Definition is_ok {A} (r : result A) : bool :=
  match r with
  | Ok _ => true
  | Raise _ => false
  end.

(** ** Sample inputs *)

Definition nl : string := String Re.newline EmptyString.

(** A file as the list of its lines, from the lines without their
    newline. *)
Definition file_of (lines : list string) : list string :=
  (λ l, l +:+ nl) <$> lines.

(** Two signatures for the same method of the same class. *)
Definition overloads_info : list signature :=
  [("Foo", "bar", "int x"); ("Foo", "bar", "float y")].

Definition bar_of_Foo : ScriptFunction.t :=
  ScriptFunction.mk "bar" "" (Some "Foo") None.

Definition overloads_defs : list definition :=
  [Class (ScriptClass.addFunction bar_of_Foo (ScriptClass.init "Foo"))].

(** A root class that registers a function called isValid itself. *)
Definition own_isValid_file : list string :=
  file_of ["REGISTER_SCRIPT_CLASS(Foo)";
           "REGISTER_SCRIPT_CLASS_FUNCTION(Foo, isValid)"].

(** A root class and a subclass of it. *)
Definition family_file : list string :=
  file_of ["REGISTER_SCRIPT_CLASS(Foo)";
           "REGISTER_SCRIPT_SUBCLASS(Kid, Foo)"].

(** The scenario of the unresolved parent. *)
Definition orphan_file : list string :=
  file_of ["REGISTER_SCRIPT_SUBCLASS_NO_CREATE(Child, Parent)"].



(** A per-class macro before any class macro. *)
Definition early_function_file : list string :=
  file_of ["REGISTER_SCRIPT_CLASS_FUNCTION(Foo, bar)"].

(** A free function that carries the name a class gives as its parent. *)
Definition function_as_parent_file : list string :=
  file_of ["REGISTER_SCRIPT_FUNCTION(Foo)";
           "REGISTER_SCRIPT_SUBCLASS(Kid, Foo)"].

(** A header whose second method follows the closing brace of its class. *)
Definition header_file : list string :=
  file_of ["class Foo"; "{"; "    int bar(int x);"; "};";
           "    void baz();"].

(** Two headers that include each other, and one that includes itself. *)
Definition cyclic_fs : file_system :=
  list_to_map
    [("a.h", file_of ["#include <b.h>"; "#include <a.h>"]);
     ("b.h", file_of ["#include <a.h>"])].





(** The matcher and the string methods are not unfolded by [simpl]: the
    proofs below use them through their equations. *)
Arguments Re.search : simpl never.
Arguments Re.match_ : simpl never.
Arguments Py.strip : simpl never.
Arguments Py.startswith : simpl never.
Arguments Py.endswith : simpl never.

(** * Further definitions

    The declaration extractor and the signature extractor in closed
    form, and the rest of the script: [addDirectory], [outputClassTree]
    and [generateDocs]. *)

(** ** The state of the declaration extractor inside one file

    [defs0] is the declaration list when the file is opened, [defs] and
    [cur] are [_definitions] and [current_class] at some line of it. *)

(** A free function as [REGISTER_SCRIPT_FUNCTION] leaves it. *)
Definition bare_function (f : ScriptFunction.t) : Prop :=
  ScriptFunction.origin_class f = None ∧ ScriptFunction.parameters f = None.

Definition scan_invariant (defs0 defs : list definition) (cur : option nat)
  : Prop :=
  take (length defs0) defs = defs0
  ∧ (∀ i, cur = Some i →
          S i = length defs ∧ length defs0 ≤ i
          ∧ ∃ c, defs !! i = Some (Class c))
  ∧ (∀ i f, length defs0 ≤ i → defs !! i = Some (Function f) →
            bare_function f).

(** The text of a documentation comment, for a line that is one. *)
Definition doc_text (line : string) : option string :=
  if Py.startswith line "#" then None
  else m ← Re.search re_doc line; Some (Re.group m 1).

Fixpoint drop_leading_empty (texts : list string) : list string :=
  match texts with
  | [] => []
  | t :: rest => if String.eqb t "" then drop_leading_empty rest else texts
  end.

(** The names of the entities that a line declares, in the order in
    which the extractor appends them. *)
Definition name_if_found (r : Re.regex) (line : string) : list string :=
  match Re.search r line with
  | Some m => [Py.strip (Re.group m 1)]
  | None => []
  end.

Definition declared_names (line : string) : list string :=
  if is_skipped line then []
  else name_if_found re_CLASS line ++ name_if_found re_CLASS_NO_CREATE line
       ++ name_if_found re_SUBCLASS line
       ++ name_if_found re_SUBCLASS_NO_CREATE line
       ++ name_if_found re_FUNCTION line.

(** What a documentation comment does to the pending description: a
    newline first when it is not empty, then the text of the comment. *)
Definition append_doc (description text : string) : string :=
  (if negb (String.eqb description "") then description +:+ nl
   else description) +:+ text.

(** ** The signature extractor in closed form

    The rows that one line of a header adds to [_function_info], as a
    function of the line and of the lines before it. *)
Definition qualified_rows (line : string) : list signature :=
  match Re.search re_qualified line with
  | Some m => [(Re.group m 1, Re.group m 2, Re.group m 3)]
  | None => []
  end.

Definition in_class_rows (cls : option string) (line : string)
  : list signature :=
  match cls, Re.search re_in_class line with
  | Some c, Some m => [(c, Re.group m 2, Re.group m 3)]
  | _, _ => []
  end.

Definition rows_of_line (before : list string) (line : string)
  : list signature :=
  if Py.startswith line "#" then []
  else qualified_rows line
       ++ in_class_rows (most_recent_class (before ++ [line])) line.

Definition rows_of_file (lines : list string) : list signature :=
  concat (imap (λ k line, rows_of_line (take k lines) line) lines).

Definition rows_of_files (files : list (string * list string))
  : list signature :=
  concat (map (λ file : string * list string,
                 if Py.endswith file.1 ".h" then rows_of_file file.2 else [])
              files).

(** ** What the linker leaves alone, and what it reports *)

(** A function as it was registered, its parameters apart. *)
Definition same_declaration (f f' : ScriptFunction.t) : Prop :=
  ScriptFunction.name f' = ScriptFunction.name f
  ∧ ScriptFunction.description f' = ScriptFunction.description f
  ∧ ScriptFunction.origin_class f' = ScriptFunction.origin_class f.

(** The classes of [defs] whose parent name is the name of no entity of
    [env], in the order of [defs]. *)
Definition orphans_in (env defs : list definition) : list ScriptClass.t :=
  omap (λ d, match d with
             | Class c =>
                 match ScriptClass.parent_name c with
                 | Some p =>
                     if existsb (is_named p) env then None else Some c
                 | None => None
                 end
             | Function _ => None
             end) defs.

Definition orphans (defs : list definition) : list ScriptClass.t :=
  orphans_in defs defs.

(** A list of positions in the order of the declaration list, none
    twice. *)
Definition increasing (l : list nat) : Prop :=
  ∀ a b x y, a < b → l !! a = Some x → l !! b = Some y → x < y.

(** ** The include closure of the source set *)

(** [q] is a regular file that a line of the C-family file [p] includes:
    the path of the directive as it is written, or joined to the
    directory of [p]. *)
Definition includes (fs : file_system) (p q : string) : Prop :=
  ∃ lines line m,
    fs !! p = Some lines
    ∧ is_c_family (Py.lower (Path.splitext_ext p)) = true
    ∧ line ∈ lines
    ∧ Re.match_ re_include line = Some m
    ∧ (q = Re.group m 1 ∨ q = Path.join (Path.dirname p) (Re.group m 1))
    ∧ is_Some (fs !! q).

(** Every file of the set but the [pending] ones has its includes in
    the set. *)
Definition closed_but (fs : file_system) (pending files : list string)
  : Prop :=
  ∀ p q, p ∈ files → p ∉ pending → includes fs p q → q ∈ files.

Definition include_closed (fs : file_system) (files : list string) : Prop :=
  closed_but fs [] files.

(** ** [addDirectory]

    The directories of the file system are a finite map from the path
    of a directory to the names that [os.listdir] returns for it, in the
    order in which it returns them: [os.path.isdir] holds of the keys.
    The path of an entry is the path of the directory, [os.sep] and the
    name; [os.sep] is the slash of the POSIX paths that [Path] models.
    [isdir] is tested before [isfile], as in the source.  The recursion
    follows the directories, so it is not structural: [fuel] bounds its
    depth, and that of the calls of [addFile], and [None] means that the
    bound was reached. *)

Definition directories := gmap string (list string).

Definition entry_path (directory name : string) : string :=
  directory +:+ "/" +:+ name.

Fixpoint addDirectory (fuel : nat) (dirs : directories) (fs : file_system)
    (directory : string) (files : list string) : option (list string) :=
  match fuel with
  | 0 => None
  | S fuel' =>
      match dirs !! directory with
      | None => Some files
      | Some names =>
          for_lines
            (λ files name,
               let name := entry_path directory name in
               if bool_decide (is_Some (dirs !! name))
               then addDirectory fuel' dirs fs name files
               else if bool_decide (is_Some (fs !! name))
                    then addFile fuel' fs name files
                    else Some files)
            names files
      end
  end.

(** The body of the loop of [addDirectory] over the entries of
    [directory]. *)
Definition add_entry (fuel : nat) (dirs : directories) (fs : file_system)
    (directory : string) (files : list string) (name : string)
  : option (list string) :=
  let name := entry_path directory name in
  if bool_decide (is_Some (dirs !! name))
  then addDirectory fuel dirs fs name files
  else if bool_decide (is_Some (fs !! name))
       then addFile fuel fs name files
       else Some files.

(** The directories whose path is longer than that of [directory]: the
    ones that a call on [directory] can still descend into. *)
Definition deeper (dirs : directories) (directory : string) : nat :=
  size (filter (λ p, String.length directory < String.length p) (dom dirs)).

(** [p] is a regular file of the tree under [directory]: an entry of it
    that is no directory, or a regular file of the tree under an entry
    that is one. *)
Inductive under (dirs : directories) (fs : file_system)
  : string → string → Prop :=
  | under_file directory names name :
      dirs !! directory = Some names → name ∈ names →
      dirs !! entry_path directory name = None →
      is_Some (fs !! entry_path directory name) →
      under dirs fs directory (entry_path directory name)
  | under_directory directory names name p :
      dirs !! directory = Some names → name ∈ names →
      under dirs fs (entry_path directory name) p →
      under dirs fs directory p.

(** A source tree: a header that includes a file of a subdirectory, an
    entry that is neither a directory nor a regular file, and a file
    outside the tree that the header of the subdirectory includes. *)
Definition tree_dirs : directories :=
  list_to_map [("src", ["a.h"; "sub"; "gone"]); ("src/sub", ["b.h"])].

Definition tree_fs : file_system :=
  list_to_map
    [("src/a.h", file_of ["#include <sub/b.h>"]);
     ("src/sub/b.h", file_of ["#include <../../lib/c.h>"]);
     ("src/sub/../../lib/c.h", file_of ["int x;"])].

(** ** The renderer

    [stream.write] only appends to the stream, so a function that writes
    is modelled by the text that it writes; [print] writes lines to the
    standard output.  A class is referred to by its position in
    [_definitions], as in the linker. *)

(** [str.replace] of a string of one character, which is what the
    renderer replaces. *)
Fixpoint replace_char (old : ascii) (new : string) (s : string) : string :=
  match s with
  | EmptyString => EmptyString
  | String c rest =>
      (if Ascii.eqb c old then new else String c EmptyString)
      +:+ replace_char old new rest
  end.

(** The replacement of the less-than sign, for parameters. *)
Definition escape_lt (s : string) : string :=
  replace_char "<"%char "&lt;" s.

(** The two replacements, in the order of the source, for descriptions. *)
Definition escape (s : string) : string :=
  replace_char Re.newline "<br>" (escape_lt s).

(** Calls that write one after the other. *)
Fixpoint write_all {A} (write : A → option string) (xs : list A)
  : option string :=
  match xs with
  | [] => Some ""
  | x :: xs' => a ← write x; b ← write_all write xs'; Some (a +:+ b)
  end.

(** [ScriptClass.outputClassTree], for the class at [i].  The recursion
    follows the children, so it is not structural: [fuel] bounds its
    depth and [None] means that the bound was reached.  The children of
    a class are classes; nothing is written for a position that is not
    one. *)
Fixpoint outputClassTree (fuel : nat) (defs : list definition) (i : nat)
  : option string :=
  match fuel with
  | 0 => None
  | S fuel' =>
      match defs !! i with
      | Some (Class self) =>
          let item :=
            "<li><a href=" +:+ dquote +:+ "#class_" +:+ ScriptClass.name self
            +:+ dquote +:+ ">" +:+ ScriptClass.name self +:+ "</a>" +:+ nl in
          if 0 <? length (ScriptClass.children self) then
            sub ← write_all (outputClassTree fuel' defs)
                     (ScriptClass.children self);
            Some (item +:+ "<ul>" +:+ sub +:+ "</ul>" +:+ nl)
          else Some item
      | _ => Some ""
      end
  end.

(** *** The fixed text of the page *)

Definition page_open : string :=
  (* line 242 *) "<!doctype html><html lang=" +:+ dquote +:+ "us" +:+ dquote +:+ "><head><meta charset=" +:+ dquote +:+ "utf-8" +:+ dquote +:+ "><title>EmptyEpsilon - Scripting documentation</title>"
  +:+
  (* line 243 *) "<link href=" +:+ dquote +:+ "http://daid.github.io/EmptyEpsilon/jquery-ui.min.css" +:+ dquote +:+ " rel=" +:+ dquote +:+ "stylesheet" +:+ dquote +:+ ">"
  +:+
  (* line 244 *) "<link href=" +:+ dquote +:+ "http://daid.github.io/EmptyEpsilon/main.css" +:+ dquote +:+ " rel=" +:+ dquote +:+ "stylesheet" +:+ dquote +:+ ">"
  +:+
  (* line 246 *) "
<link rel=" +:+ dquote +:+ "preconnect" +:+ dquote +:+ " href=" +:+ dquote +:+ "https://fonts.googleapis.com" +:+ dquote +:+ " />
<link rel=" +:+ dquote +:+ "preconnect" +:+ dquote +:+ " href=" +:+ dquote +:+ "https://fonts.gstatic.com" +:+ dquote +:+ " crossorigin />
<link
href=" +:+ dquote +:+ "https://fonts.googleapis.com/css2?family=JetBrains+Mono:ital,wght@0,400;0,700;1,400&display=swap" +:+ dquote +:+ "
rel=" +:+ dquote +:+ "stylesheet" +:+ dquote +:+ "
/>

<style>
  body {
    background-image: none;
    background-color: #050505;
    font-size: 12px;
    line-height: 1.7;
  }

  h2 {
    font-size: 2em;
  }

  .ui-widget {
    font-family: " +:+ dquote +:+ "JetBrains Mono" +:+ dquote +:+ ", " +:+ dquote +:+ "Courier New" +:+ dquote +:+ ", Courier, monospace;
  }

  .ui-widget-content {
    background: rgba(16, 19, 23, 0.8);
    padding-top: 2rem;
    padding-bottom: 2rem;
    margin-bottom: 2rem;
  }

  dl {
    padding-bottom: 2rem;
  }

  ul {
    padding-left: 0;
  }

  ul > li {
    list-style-type: none;
    font-weight: bold;
    line-height: 2.5rem;
    background: rgba(36, 40, 44, 0.8);
    padding-left: 1rem;
    border-top: 1px solid rgba(255, 255, 255, 0.1);
  }

  ul > li > ul {
    border: 0;
    background-color: rgba(255, 255, 255, 0.05);
  }

  ul > li > ul > li {
    border: 0;
    background-color: rgba(36, 40, 44, 0.2);
  }

  dt {
    font-weight: bold;
    line-height: 2.5rem;
    background: rgba(36, 40, 44, 0.8);
    padding-left: 1rem;
    border-top: 1px solid rgba(255, 255, 255, 0.1);
  }

  dd {
    margin-left: 0;
    padding-top: 0.5rem;
    padding-left: 2rem;
    padding-bottom: 0.5rem;
    background: rgba(55, 62, 70, 0.2);
  }

  dd:empty {
    display: none;
  }

  li > dd {
    background: rgba(16, 19, 23, 0.8);
    margin-left: -1rem;
  }
</style>
"
  +:+
  (* line 333 *) "</head>"
  +:+
  (* line 334 *) "<body>"
  +:+
  (* line 336 *) "<div class=" +:+ dquote +:+ "ui-widget ui-widget-content ui-corner-all" +:+ dquote +:+ ">"
  +:+
  (* line 337 *) "<h1>EmptyEpsilon Scripting Reference</h1>"
  +:+
  (* line 338 *) "<p>This is the EmptyEpsilon script reference for this version of EmptyEpsilon.</p>"
  +:+
  (* line 339 *) "<p>By no means this is a guide to help you scripting, you should check <a href=" +:+ dquote +:+ "http://emptyepsilon.org/" +:+ dquote +:+ ">emptyepsilon.org</a> for the guide on scripting. "
  +:+
  (* line 340 *) "As well as check the already existing scenario and ship data files on how to get started.</p>"
  +:+
  (* line 341 *) "</div>
"
  +:+
  (* line 344 *) "<div class=" +:+ dquote +:+ "ui-widget ui-widget-content ui-corner-all" +:+ dquote +:+ ">"
  +:+
  (* line 345 *) "<p>Some of the types in the parameters:</p>"
  +:+
  (* line 346 *) "<ul>
"
  +:+
  (* line 347 *) "<li>ScriptSimpleCallback / function: Note that the callback function must reference something global, otherwise you get an error like " +:+ dquote +:+ "??[convert&lt;ScriptSimpleCallback&gt;::param] Upvalue 1 of function is not a table..." +:+ dquote +:+ ". Use e.g. `math.abs(0) -- Provides global context for SeriousProton` to do nothing.</li>
"
  +:+
  (* line 348 *) "<li>EAlertLevel: " +:+ dquote +:+ "Normal" +:+ dquote +:+ ", " +:+ dquote +:+ "YELLOW ALERT" +:+ dquote +:+ ", " +:+ dquote +:+ "RED ALERT" +:+ dquote +:+ " (<code>playerSpaceship.cpp</code>)</li>
"
  +:+
  (* line 349 *) "<li>ECrewPosition: " +:+ dquote +:+ "Helms" +:+ dquote +:+ ", " +:+ dquote +:+ "Weapons" +:+ dquote +:+ ", " +:+ dquote +:+ "Engineering" +:+ dquote +:+ ", " +:+ dquote +:+ "Science" +:+ dquote +:+ ", " +:+ dquote +:+ "Relay" +:+ dquote +:+ ", " +:+ dquote +:+ "Tactical" +:+ dquote +:+ ", " +:+ dquote +:+ "Engineering+" +:+ dquote +:+ ", " +:+ dquote +:+ "Operations" +:+ dquote +:+ ", " +:+ dquote +:+ "Single" +:+ dquote +:+ ", " +:+ dquote +:+ "DamageControl" +:+ dquote +:+ ", " +:+ dquote +:+ "PowerManagement" +:+ dquote +:+ ", " +:+ dquote +:+ "Database" +:+ dquote +:+ ", " +:+ dquote +:+ "AltRelay" +:+ dquote +:+ ", " +:+ dquote +:+ "CommsOnly" +:+ dquote +:+ ", " +:+ dquote +:+ "ShipLog" +:+ dquote +:+ ", (<code>playerInfo.cpp</code>)</li>
"
  +:+
  (* line 350 *) "<li>EMissileSizes: " +:+ dquote +:+ "small" +:+ dquote +:+ ", " +:+ dquote +:+ "medium" +:+ dquote +:+ ", " +:+ dquote +:+ "large" +:+ dquote +:+ "</li>
"
  +:+
  (* line 351 *) "<li>EMissileWeapons: " +:+ dquote +:+ "Homing" +:+ dquote +:+ ", " +:+ dquote +:+ "Nuke" +:+ dquote +:+ ", " +:+ dquote +:+ "Mine" +:+ dquote +:+ ", " +:+ dquote +:+ "EMP" +:+ dquote +:+ ", " +:+ dquote +:+ "HVLI" +:+ dquote +:+ " (<code>spaceship.cpp</code>)</li>
"
  +:+
  (* line 352 *) "<li>EScannedState: " +:+ dquote +:+ "notscanned" +:+ dquote +:+ ", " +:+ dquote +:+ "friendorfoeidentified" +:+ dquote +:+ ", " +:+ dquote +:+ "simplescan" +:+ dquote +:+ ", " +:+ dquote +:+ "fullscan" +:+ dquote +:+ " (<code>spaceObject.h</code>)</li>
"
  +:+
  (* line 353 *) "<li>ESystem: " +:+ dquote +:+ "reactor" +:+ dquote +:+ ", " +:+ dquote +:+ "beamweapons" +:+ dquote +:+ ", " +:+ dquote +:+ "missilesystem" +:+ dquote +:+ ", " +:+ dquote +:+ "maneuver" +:+ dquote +:+ ", " +:+ dquote +:+ "impulse" +:+ dquote +:+ ", " +:+ dquote +:+ "warp" +:+ dquote +:+ ", " +:+ dquote +:+ "jumpdrive" +:+ dquote +:+ ", " +:+ dquote +:+ "frontshield" +:+ dquote +:+ ", " +:+ dquote +:+ "rearshield" +:+ dquote +:+ "</li>
"
  +:+
  (* line 354 *) "<!--
"
  +:+
  (* line 355 *) "<li>EMainScreenOverlay: TODO</li>
"
  +:+
  (* line 356 *) "<li>EMainScreenSetting: TODO</li>
"
  +:+
  (* line 357 *) "-->
"
  +:+
  (* line 358 *) "<li>Factions: " +:+ dquote +:+ "Independent" +:+ dquote +:+ ", " +:+ dquote +:+ "Kraylor" +:+ dquote +:+ ", " +:+ dquote +:+ "Arlenians" +:+ dquote +:+ ", " +:+ dquote +:+ "Exuari" +:+ dquote +:+ ", " +:+ dquote +:+ "Ghosts" +:+ dquote +:+ ", " +:+ dquote +:+ "Ktlitans" +:+ dquote +:+ ", " +:+ dquote +:+ "TSN" +:+ dquote +:+ ", " +:+ dquote +:+ "USN" +:+ dquote +:+ ", " +:+ dquote +:+ "CUF" +:+ dquote +:+ " (<code>factionInfo.lua</code>)</li>
"
  +:+
  (* line 359 *) "</ul>
"
  +:+
  (* line 360 *) "<p>Note that most <code>SpaceObject</code>s directly switch to fully scanned, only <code>SpaceShips</code>s go through all the states.</p>"
  +:+
  (* line 361 *) "</div>
"
  +:+
  (* line 363 *) "<div class=" +:+ dquote +:+ "ui-widget ui-widget-content ui-corner-all" +:+ dquote +:+ ">"
  +:+
  (* line 364 *) "<h2>Objects</h2>
"
  +:+
  (* line 365 *) "<ul>".

Definition after_tree : string :=
  (* line 369 *) "</ul>"
  +:+
  (* line 370 *) "</div>"
  +:+
  (* line 372 *) "<div class=" +:+ dquote +:+ "ui-widget ui-widget-content ui-corner-all" +:+ dquote +:+ ">"
  +:+
  (* line 373 *) "<h2>Functions</h2>
"
  +:+
  (* line 374 *) "<ul>".

Definition after_functions : string :=
  (* line 382 *) "</ul>"
  +:+
  (* line 383 *) "</div>".

Definition page_close : string :=
  (* line 425 *) "<script src=" +:+ dquote +:+ "http://daid.github.io/EmptyEpsilon/jquery.min.js" +:+ dquote +:+ "></script>"
  +:+
  (* line 426 *) "<script src=" +:+ dquote +:+ "http://daid.github.io/EmptyEpsilon/jquery-ui.min.js" +:+ dquote +:+ "></script>"
  +:+
  (* line 427 *) "</body>"
  +:+
  (* line 428 *) "</html>".

(** *** The entries of the page *)

(** What the renderer writes to the stream, and the lines it prints. *)
Definition output : Type := string * list string.

(** The loop over the classes without a parent object. *)
Definition tree_of_root (fuel : nat) (defs : list definition)
    (d : definition) (i : nat) : option string :=
  match d with
  | Class c =>
      match ScriptClass.parent c with
      | None => outputClassTree fuel defs i
      | Some _ => Some ""
      end
  | Function _ => Some ""
  end.

(** The body of the loop over the free functions. *)
Definition function_item (d : definition) : string :=
  match d with
  | Function d =>
      "<li>" +:+ ScriptFunction.name d
      +:+ "<dd>" +:+ escape (ScriptFunction.description d) +:+ "</dd>"
  | Class _ => ""
  end.

(** The body of the loop over the functions of the class [d]. *)
Definition class_function (d : ScriptClass.t) (func : ScriptFunction.t)
  : output :=
  let dd :=
    "<dd>" +:+ escape (ScriptFunction.description func) +:+ "</dd>" in
  match ScriptFunction.parameters func with
  | None =>
      ("<dt>" +:+ ScriptClass.name d +:+ ":" +:+ ScriptFunction.name func
       +:+ " [NOT FOUND; see SeriousProton]</dt>" +:+ dd,
       ["Failed to find parameters for " +:+ ScriptClass.name d +:+ ":"
        +:+ ScriptFunction.name func])
  | Some parameters =>
      ("<dt>" +:+ ScriptClass.name d +:+ ":" +:+ ScriptFunction.name func
       +:+ "(" +:+ escape_lt parameters +:+ ")</dt>" +:+ dd,
       [])
  end.

(** The body of the loop over the members of the class [d]. *)
Definition class_member (d : ScriptClass.t) (member : ScriptMember.t)
  : string :=
  "<dt>" +:+ ScriptClass.name d +:+ ":" +:+ ScriptMember.name member
  +:+ "</dt>"
  +:+ "<dd>" +:+ escape (ScriptMember.description member) +:+ "</dd>".

(** The body of the loop over the classes. *)
Definition class_section (defs : list definition) (d : definition) : output :=
  match d with
  | Class d =>
      let functions := class_function d <$> ScriptClass.functions d in
      ("<div class=" +:+ dquote +:+ "ui-widget ui-widget-content ui-corner-all"
       +:+ dquote +:+ ">" +:+ nl
       +:+ "<h2><a name=" +:+ dquote +:+ "class_" +:+ ScriptClass.name d
       +:+ dquote +:+ ">" +:+ ScriptClass.name d +:+ "</a></h2>" +:+ nl
       +:+ "<div>" +:+ escape (ScriptClass.description d) +:+ "</div>"
       +:+ match ScriptClass.parent d with
           | Some j =>
               let parent_name := from_option def_name "" (defs !! j) in
               "Subclass of: <a href=" +:+ dquote +:+ "#class_"
               +:+ parent_name +:+ dquote +:+ ">" +:+ parent_name +:+ "</a>"
           | None => ""
           end
       +:+ "<dl>"
       +:+ String.concat "" (functions.*1)
       +:+ String.concat "" (class_member d <$> ScriptClass.members d)
       +:+ "</dl>"
       +:+ "</div>",
       concat (functions.*2))
  | Function _ => ("", [])
  end.

Definition generateDocs (fuel : nat) (defs : list definition)
  : option output :=
  tree ← write_all (λ i, d ← defs !! i; tree_of_root fuel defs d i)
            (seq 0 (length defs));
  let sections := class_section defs <$> defs in
  Some (page_open
        +:+ tree
        +:+ after_tree
        +:+ String.concat "" (function_item <$> defs)
        +:+ after_functions
        +:+ String.concat "" (sections.*1)
        +:+ page_close,
        concat (sections.*2)).

(** *** What the renderer reports, from the declarations and the table *)

(** The line printed for a function of a class without parameters. *)
Definition failed_to_find (c : ScriptClass.t) (f : ScriptFunction.t)
  : string :=
  "Failed to find parameters for " +:+ ScriptClass.name c +:+ ":"
  +:+ ScriptFunction.name f.

(** The registered functions of [defs] that no row of [info] matches,
    class after class and function after function. *)
Definition unmatched (info : list signature) (defs : list definition)
  : list string :=
  concat
    ((λ d, match d with
           | Class c =>
               omap (λ f, if existsb (matches f) info then None
                          else Some (failed_to_find c f))
                    (ScriptClass.functions c)
           | Function _ => []
           end) <$> defs).

(** [j] is a child of the class at [i]. *)
Definition child_of (defs : list definition) (i j : nat) : Prop :=
  ∃ c, defs !! i = Some (Class c) ∧ j ∈ ScriptClass.children c.

(** No two classes have the same name. *)
Definition unique_class_names (defs : list definition) : Prop :=
  ∀ i j ci cj,
    defs !! i = Some (Class ci) → defs !! j = Some (Class cj) →
    ScriptClass.name ci = ScriptClass.name cj → i = j.

(** A root class, a subclass of it, and a second class of the name of
    the root that is a subclass of the subclass. *)
Definition namesake_file : list string :=
  file_of ["REGISTER_SCRIPT_CLASS(N)";
           "REGISTER_SCRIPT_SUBCLASS(X, N)";
           "REGISTER_SCRIPT_SUBCLASS(N, X)"].

(** What the linker leaves of it: the subclass is a child of both
    classes of the name [N], and the second of them a child of the
    subclass. *)
Definition namesake_linked : list definition :=
  [Class (relink None [1] [isValid; destroy] [typeName]
            (ScriptClass.init "N"));
   Class (relink (Some 2) [2] [] []
            (ScriptClass.set_parent_name (Some "N") (ScriptClass.init "X")));
   Class (relink (Some 1) [1] [] []
            (ScriptClass.set_parent_name (Some "X") (ScriptClass.init "N")))].

(** The chain of the parent objects of the class at [i], up to a class
    without one. *)
Fixpoint ancestors (defs : list definition) (i : nat) (path : list nat)
  : Prop :=
  match path with
  | [] => ∃ c, defs !! i = Some (Class c) ∧ ScriptClass.parent c = None
  | k :: path' =>
      (∃ c, defs !! i = Some (Class c) ∧ ScriptClass.parent c = Some k)
      ∧ ancestors defs k path'
  end.

(** ** The entry point

    The passes of the script after the source set is collected, on the
    files of the set with their lines, in the order in which the set is
    iterated: the two extractors, the two passes of the linker and the
    renderer.  The output is the page and the lines printed, those of
    [linkParents] before those of [generateDocs]. *)
Definition main (fuel : nat) (files : list (string * list string))
  : result (option output) :=
  let info := readFunctionInfo files [] in
  defs ← readScriptDefinitions files [];
  st ← link info defs;
  Ok (page ← generateDocs fuel st.1; Some (page.1, st.2 ++ page.2)).

(** Whether the character [c] occurs in [s]. *)
Fixpoint occurs (c : ascii) (s : string) : bool :=
  match s with
  | EmptyString => false
  | String c' rest => Ascii.eqb c' c || occurs c rest
  end.

(** * Properties *)

(** ** Loops *)

Section for_each.
Context {A S : Type} (body : S → A → result S).

Lemma for_each_app xs ys s :
  for_each body (xs ++ ys) s
  = (s' ← for_each body xs s; for_each body ys s').
Proof.
  revert s. induction xs as [|x xs IH]; intros s; simpl; [done|].
  destruct (body s x); simpl; [apply IH|done].
Qed.

Lemma for_each_snoc xs x s :
  for_each body (xs ++ [x]) s = (s' ← for_each body xs s; body s' x).
Proof.
  rewrite for_each_app.
  destruct (for_each body xs s) as [s'|]; simpl; [|done].
  by destruct (body s' x).
Qed.

Lemma for_each_cons_Ok x xs s s' :
  for_each body (x :: xs) s = Ok s'
  ↔ ∃ s1, body s x = Ok s1 ∧ for_each body xs s1 = Ok s'.
Proof.
  simpl. destruct (body s x) as [s1|e]; simpl.
  - split; [by eauto|]. by intros (? & [= <-] & ?).
  - split; [done|]. by intros (? & ? & _).
Qed.

Lemma for_each_app_Ok xs ys s s' :
  for_each body (xs ++ ys) s = Ok s'
  ↔ ∃ s1, for_each body xs s = Ok s1 ∧ for_each body ys s1 = Ok s'.
Proof.
  rewrite for_each_app. destruct (for_each body xs s) as [s1|e]; simpl.
  - split; [by eauto|]. by intros (? & [= <-] & ?).
  - split; [done|]. by intros (? & ? & _).
Qed.

(** A relation that every step of a loop keeps is kept by the loop. *)
Lemma for_each_preserves (R : S → S → Prop) :
  (∀ s, R s s) → (∀ s1 s2 s3, R s1 s2 → R s2 s3 → R s1 s3) →
  (∀ s x s', body s x = Ok s' → R s s') →
  ∀ xs s s', for_each body xs s = Ok s' → R s s'.
Proof.
  intros Hrefl Htrans Hbody xs.
  induction xs as [|x xs IH]; intros s s'.
  - by intros [= <-].
  - intros (s1 & Hx & Hxs)%for_each_cons_Ok. eauto.
Qed.
End for_each.

Lemma bind_Ok {A B} (m : result A) (k : A → result B) b :
  m ≫= k = Ok b ↔ ∃ a, m = Ok a ∧ k a = Ok b.
Proof.
  destruct m as [a|e]; simpl.
  - split; [by eauto|]. by intros (? & [= <-] & ?).
  - split; [done|]. by intros (? & ? & _).
Qed.

(** ** Positions *)

Section positions.
Context {A : Type} (P : A → bool).

Lemma positions_app l1 l2 s :
  positions P (l1 ++ l2) s
  = positions P l1 s ++ positions P l2 (s + length l1).
Proof.
  revert s. induction l1 as [|x l1 IH]; intros s; simpl.
  - by rewrite Nat.add_0_r.
  - rewrite IH, <- app_assoc. do 3 f_equal. lia.
Qed.

Lemma positions_take_S l m x :
  l !! m = Some x →
  positions P (take (S m) l) 0
  = positions P (take m l) 0 ++ (if P x then [m] else []).
Proof.
  intros Hx. rewrite (take_S_r _ _ _ Hx), positions_app. simpl.
  rewrite length_take_le, app_nil_r; [done|].
  apply lookup_lt_Some in Hx. lia.
Qed.

Lemma positions_imap (f : nat → A → A) l s :
  (∀ i x, P (f i x) = P x) →
  positions P (imap f l) s = positions P l s.
Proof.
  revert f s. induction l as [|x l IH]; intros f s Hf; simpl; [done|].
  rewrite Hf, IH; [done|]. intros i y. apply Hf.
Qed.

Lemma elem_of_positions l s i :
  i ∈ positions P l s ↔ ∃ x, s ≤ i ∧ l !! (i - s) = Some x ∧ P x = true.
Proof.
  revert s. induction l as [|y l IH]; intros s; simpl.
  - split; [by intros ?%elem_of_nil|]. by intros (x & _ & ? & _).
  - rewrite elem_of_app, IH. split.
    + intros [Hi|(x & Hs & Hx & HP)].
      * destruct (P y) eqn:HPy; [|by apply elem_of_nil in Hi].
        apply list_elem_of_singleton in Hi as ->. exists y.
        rewrite Nat.sub_diag. done.
      * exists x. split; [lia|]. split; [|done].
        replace (i - s) with (S (i - S s)) by lia. done.
    + intros (x & Hs & Hx & HP). destruct (decide (i = s)) as [->|Hne].
      * left. rewrite Nat.sub_diag in Hx. simplify_eq/=. rewrite HP.
        by apply list_elem_of_singleton.
      * right. exists x. split; [lia|]. split; [|done].
        replace (i - s) with (S (i - S s)) in Hx by lia. done.
Qed.

Lemma positions_lower l s i : i ∈ positions P l s → s ≤ i.
Proof. intros (x & ? & _)%elem_of_positions. done. Qed.

Lemma NoDup_positions l s : NoDup (positions P l s).
Proof.
  revert s. induction l as [|y l IH]; intros s; simpl; [constructor|].
  destruct (P y); simpl; [|apply IH]. constructor; [|apply IH].
  intros Hs%positions_lower. lia.
Qed.

Lemma positions_nil l s :
  (∀ x, x ∈ l → P x = false) → positions P l s = [].
Proof.
  revert s. induction l as [|y l IH]; intros s Hl; simpl; [done|].
  rewrite (Hl y), IH; [done| |by left]. intros x Hx. apply Hl. by right.
Qed.

Lemma existsb_imap (f : nat → A → A) l :
  (∀ i x, P (f i x) = P x) → existsb P (imap f l) = existsb P l.
Proof.
  revert f. induction l as [|x l IH]; intros f Hf; simpl; [done|].
  rewrite Hf, IH; [done|]. intros i y. apply Hf.
Qed.

Lemma existsb_take_S l m x :
  l !! m = Some x →
  existsb P (take (S m) l) = existsb P (take m l) || P x.
Proof.
  intros Hx. rewrite (take_S_r _ _ _ Hx), existsb_app. simpl.
  by rewrite orb_false_r.
Qed.

Lemma existsb_false_lookup l i x :
  existsb P l = false → l !! i = Some x → P x = false.
Proof.
  intros Hex Hi. destruct (P x) eqn:HP; [|done].
  rewrite <- Hex. symmetry. apply existsb_exists. exists x.
  split; [|done]. apply list_elem_of_In. by eapply list_elem_of_lookup_2.
Qed.

Lemma existsb_true_lookup l :
  existsb P l = true ↔ ∃ i x, l !! i = Some x ∧ P x = true.
Proof.
  rewrite existsb_exists. split.
  - intros (x & Hx%list_elem_of_In & HP).
    apply list_elem_of_lookup in Hx as [i Hi]. eauto.
  - intros (i & x & Hi & HP). exists x. split; [|done].
    apply list_elem_of_In. by eapply list_elem_of_lookup_2.
Qed.
End positions.

(** ** Updates of a class object as [relink] *)

Lemma or_keep_assoc {A} (a b c : option A) :
  or_keep a (or_keep b c) = or_keep (or_keep a b) c.
Proof. by destruct a, b. Qed.

Lemma relink_relink par1 kids1 fns1 mbs1 par2 kids2 fns2 mbs2 c :
  relink par2 kids2 fns2 mbs2 (relink par1 kids1 fns1 mbs1 c)
  = relink (or_keep par2 par1) (kids1 ++ kids2) (fns1 ++ fns2)
      (mbs1 ++ mbs2) c.
Proof.
  unfold relink; simpl. by rewrite or_keep_assoc, <- !app_assoc.
Qed.

Lemma relink_id c : relink None [] [] [] c = c.
Proof. destruct c. unfold relink; simpl. by rewrite !app_nil_r. Qed.

Lemma set_parent_relink j c :
  ScriptClass.set_parent (Some j) c = relink (Some j) [] [] [] c.
Proof. unfold relink, ScriptClass.set_parent; simpl. by rewrite !app_nil_r. Qed.

Lemma append_child_relink i c :
  ScriptClass.set_children (ScriptClass.children c ++ [i]) c
  = relink None [i] [] [] c.
Proof. unfold relink, ScriptClass.set_children; simpl. by rewrite !app_nil_r. Qed.

Lemma synthesize_relink c :
  ScriptClass.addMember typeName
    (ScriptClass.addFunction destroy (ScriptClass.addFunction isValid c))
  = relink None [] [isValid; destroy] [typeName] c.
Proof.
  unfold relink, ScriptClass.addMember, ScriptClass.addFunction,
    ScriptClass.set_members, ScriptClass.set_functions; simpl.
  by rewrite app_nil_r, <- app_assoc.
Qed.

Lemma alter_imap {A} (g : A → A) (f : nat → A → A) i l :
  alter g i (imap f l)
  = imap (λ k x, if decide (k = i) then g (f k x) else f k x) l.
Proof.
  apply list_eq; intros k.
  rewrite list_lookup_alter, !list_lookup_imap.
  destruct (decide (i = k)) as [->|Hne].
  - destruct (l !! k); simpl; [|done]. by rewrite decide_True.
  - destruct (l !! k); simpl; [|done]. by rewrite decide_False.
Qed.

Lemma append_child_class i j defs d :
  defs !! j = Some (Class d) →
  append_child i j defs
  = Ok (alter (on_class (relink None [i] [] [])) j defs).
Proof.
  intros Hj. unfold append_child. rewrite Hj. f_equal.
  rewrite append_child_relink. apply list_eq; intros k.
  destruct (decide (j = k)) as [->|].
  - rewrite list_lookup_insert_eq, list_lookup_alter_eq, Hj; [done|].
    by apply lookup_lt_Some in Hj.
  - by rewrite list_lookup_insert_ne, list_lookup_alter_ne.
Qed.

Lemma alter_set_parent i j (defs : list definition) :
  alter (on_class (ScriptClass.set_parent (Some j))) i defs
  = alter (on_class (relink (Some j) [] [] [])) i defs.
Proof.
  apply list_alter_ext; [|done]. intros [c|f] _; simpl; [|done].
  by rewrite set_parent_relink.
Qed.

Lemma lookup_alter_class g i (defs : list definition) k c :
  defs !! k = Some (Class c) →
  ∃ c', alter (on_class g) i defs !! k = Some (Class c').
Proof.
  intros Hk. rewrite list_lookup_alter. case_decide; subst; [|by eauto].
  rewrite Hk. simpl. eauto.
Qed.

Lemma lookup_alter_function g i (defs : list definition) k f :
  defs !! k = Some (Function f) →
  alter (on_class g) i defs !! k = Some (Function f).
Proof.
  intros Hk. rewrite list_lookup_alter. case_decide; subst; [|done].
  by rewrite Hk.
Qed.

Lemma append_child_function i j defs f :
  defs !! j = Some (Function f) → append_child i j defs = Raise no_children.
Proof. intros Hj. unfold append_child. by rewrite Hj. Qed.

(** ** The inner loop of [linkParents] *)

Lemma def_name_on_class f d :
  (∀ c, ScriptClass.name (f c) = ScriptClass.name c) →
  def_name (on_class f d) = def_name d.
Proof. intros Hf. destruct d; simpl; [apply Hf|done]. Qed.

Lemma candidates_0 defs i p : candidates defs i p 0 = defs.
Proof.
  unfold candidates. apply list_eq; intros k. rewrite list_lookup_imap.
  destruct (defs !! k) as [[c|f]|]; simpl; [|done..].
  unfold candidate_class. rewrite take_0. simpl.
  destruct (k =? i); simpl; by rewrite relink_id.
Qed.

Lemma candidates_S_other defs i p m d :
  defs !! m = Some d → def_name d ≠ p →
  candidates defs i p (S m) = candidates defs i p m.
Proof.
  intros Hm Hne. unfold candidates. apply imap_ext; intros k x Hk.
  destruct x as [c|f]; simpl; [|done]. f_equal. unfold candidate_class.
  assert (is_named p d = false) as Hn by by apply bool_decide_eq_false.
  rewrite (positions_take_S _ _ _ _ Hm), Hn, app_nil_r. f_equal.
  destruct (decide (k = m)) as [->|Hkm].
  - simplify_eq/=. rewrite (bool_decide_false _ Hne). by rewrite !andb_false_r.
  - replace (k <? S m) with (k <? m); [done|].
    destruct (Nat.ltb_spec k m), (Nat.ltb_spec k (S m)); done || lia.
Qed.

Lemma candidates_S_named defs i p m c :
  defs !! m = Some (Class c) → ScriptClass.name c = p →
  alter (on_class (relink None [i] [] [])) m
    (alter (on_class (relink (Some m) [] [] [])) i (candidates defs i p m))
  = candidates defs i p (S m).
Proof.
  intros Hm Hp. unfold candidates. rewrite !alter_imap.
  apply imap_ext; intros k x Hk.
  destruct x as [c'|f]; simpl; [|by repeat case_decide].
  assert (∀ d1 d2 : ScriptClass.t, d1 = d2 → Class d1 = Class d2) as HC
    by (by intros ?? ->).
  unfold candidate_class.
  assert (is_named p (Class c) = true) as Hn by by apply bool_decide_eq_true.
  rewrite (positions_take_S _ _ _ _ Hm), Hn, last_snoc.
  destruct (decide (k = m)) as [->|Hkm]; simpl.
  - simplify_eq/=. rewrite (bool_decide_true (_ = _)) by done.
    rewrite Nat.ltb_irrefl, (proj2 (Nat.ltb_lt m (S m))) by lia. simpl.
    destruct (decide (m = i)) as [->|Hmi]; simpl; apply HC.
    + rewrite !relink_relink, Nat.eqb_refl. simpl. done.
    + rewrite !relink_relink, (proj2 (Nat.eqb_neq m i)) by done. done.
  - replace (k <? S m) with (k <? m)
      by (destruct (Nat.ltb_spec k m), (Nat.ltb_spec k (S m)); done || lia).
    destruct (decide (k = i)) as [->|Hki]; simpl; apply HC.
    + rewrite !relink_relink, Nat.eqb_refl. simpl.
      by rewrite !app_nil_r.
    + by rewrite (proj2 (Nat.eqb_neq k i)) by done.
Qed.

Lemma link_parent_loop defs i p m :
  m ≤ length defs →
  for_each (link_parent i p) (seq 0 m) defs
  = if existsb (is_function_named p) (take m defs) then Raise no_children
    else Ok (candidates defs i p m).
Proof.
  induction m as [|m IH]; intros Hm.
  - simpl. by rewrite candidates_0.
  - destruct (lookup_lt_is_Some_2 defs m) as [d Hd]; [lia|].
    rewrite seq_S, for_each_snoc, IH, (existsb_take_S _ _ _ _ Hd) by lia.
    simpl. destruct (existsb _ (take m defs)); simpl; [done|].
    unfold link_parent.
    assert (candidates defs i p m !! m
            = Some (on_class (candidate_class defs i p m m) d)) as Hc.
    { unfold candidates. by rewrite list_lookup_imap, Hd. }
    rewrite Hc, def_name_on_class by done.
    rewrite alter_set_parent. case_bool_decide as Hp.
    + destruct d as [c|f]; simpl.
      * edestruct (lookup_alter_class (relink (Some m) [] [] []) i)
          as [c' Hc']; [exact Hc|].
        rewrite (append_child_class _ _ _ _ Hc').
        by rewrite (candidates_S_named _ _ _ _ c).
      * rewrite (bool_decide_true _ Hp).
        eapply append_child_function, lookup_alter_function, Hc.
    + rewrite (candidates_S_other _ _ _ _ d) by done.
      destruct d as [c|f]; simpl; [done|]. by rewrite bool_decide_false.
Qed.

(** ** The outer loop of [linkParents] *)

Lemma ltb_S_ne k m : k ≠ m → (k <? S m) = (k <? m).
Proof.
  intros. destruct (Nat.ltb_spec k m), (Nat.ltb_spec k (S m)); done || lia.
Qed.

Lemma or_keep_None_r {A} (a : option A) : or_keep a None = a.
Proof. by destruct a. Qed.

Lemma Class_eq c1 c2 : c1 = c2 → Class c1 = Class c2.
Proof. by intros ->. Qed.

Lemma children_of_take_S nm defs m d :
  defs !! m = Some d →
  children_of nm (take (S m) defs)
  = children_of nm (take m defs) ++ (if is_child_of nm d then [m] else []).
Proof. apply positions_take_S. Qed.

Lemma linked_0 defs : linked defs 0 = defs.
Proof.
  unfold linked. apply list_eq; intros k. rewrite list_lookup_imap.
  destruct (defs !! k) as [[c|f]|]; simpl; [|done..].
  unfold linked_class. rewrite take_0. simpl. by rewrite relink_id.
Qed.

Lemma length_linked defs m : length (linked defs m) = length defs.
Proof. apply length_imap. Qed.

Lemma linked_S_function defs m f :
  defs !! m = Some (Function f) → linked defs (S m) = linked defs m.
Proof.
  intros Hm. unfold linked. apply imap_ext; intros k [c|g] Hk; simpl; [|done].
  apply Class_eq. unfold linked_class.
  rewrite (children_of_take_S _ _ _ _ Hm). simpl. rewrite app_nil_r.
  rewrite ltb_S_ne; [done|]. intros ->. congruence.
Qed.

Lemma alter_synthesize i (defs : list definition) :
  alter (on_class (λ c, ScriptClass.addMember typeName
                          (ScriptClass.addFunction destroy
                             (ScriptClass.addFunction isValid c)))) i defs
  = alter (on_class (relink None [] [isValid; destroy] [typeName])) i defs.
Proof.
  apply list_alter_ext; [|done]. intros [c|f] _; simpl; [|done].
  by rewrite synthesize_relink.
Qed.

Lemma linked_S_root defs m c :
  defs !! m = Some (Class c) → ScriptClass.parent_name c = None →
  alter (on_class (relink None [] [isValid; destroy] [typeName])) m
    (linked defs m)
  = linked defs (S m).
Proof.
  intros Hm Hroot. unfold linked. rewrite alter_imap.
  apply imap_ext; intros k [c'|g] Hk; simpl; [|by case_decide].
  unfold linked_class. rewrite (children_of_take_S _ _ _ _ Hm). simpl.
  rewrite Hroot, bool_decide_false, app_nil_r by done.
  case_decide as Hkm; simpl; apply Class_eq.
  - subst k. simplify_eq. rewrite relink_relink. unfold is_root.
    rewrite Hroot, Nat.ltb_irrefl, (proj2 (Nat.ltb_lt m (S m))) by lia.
    simpl. by rewrite app_nil_r.
  - by rewrite ltb_S_ne.
Qed.

Lemma linked_S_child defs m c p :
  defs !! m = Some (Class c) → ScriptClass.parent_name c = Some p →
  candidates (linked defs m) m p (length defs) = linked defs (S m).
Proof.
  intros Hm Hp. unfold candidates, linked. apply list_eq; intros k.
  rewrite !list_lookup_imap.
  destruct (defs !! k) as [[c'|g]|] eqn:Hk; simpl; [|done..].
  f_equal. apply Class_eq. unfold candidate_class, linked_class.
  rewrite relink_relink, (children_of_take_S _ _ _ _ Hm). simpl.
  rewrite take_ge by (by rewrite length_imap).
  rewrite positions_imap by (intros ? []; done).
  rewrite (proj2 (Nat.ltb_lt k (length defs)))
    by (by apply lookup_lt_Some in Hk).
  simpl. rewrite Hp.
  rewrite (bool_decide_ext (Some p = Some (ScriptClass.name c'))
             (ScriptClass.name c' = p)) by naive_solver.
  destruct (decide (k = m)) as [->|Hkm].
  - simplify_eq. unfold is_root.
    rewrite Hp, Nat.eqb_refl, Nat.ltb_irrefl,
      (proj2 (Nat.ltb_lt m (S m))) by lia.
    simpl. by rewrite or_keep_None_r.
  - rewrite (proj2 (Nat.eqb_neq k m)), ltb_S_ne, !app_nil_r by done.
    done.
Qed.

Lemma repr_class_root defs1 defs2 c1 c2 :
  ScriptClass.parent c1 = None → ScriptClass.parent c2 = None →
  ScriptClass.name c1 = ScriptClass.name c2 →
  ScriptClass.functions c1 = ScriptClass.functions c2 →
  repr_class defs1 c1 = repr_class defs2 c2.
Proof. unfold repr_class. by intros -> -> -> ->. Qed.

Lemma clash_at_linked defs m p :
  existsb (is_function_named p) (linked defs m)
  = existsb (is_function_named p) defs.
Proof. apply existsb_imap. by intros ? []. Qed.

Lemma linkParents_loop defs m :
  m ≤ length defs →
  for_each linkParents_step (seq 0 m) (defs, [])
  = if existsb (clash_at defs) (take m defs) then Raise no_children
    else Ok (linked defs m, concat (map (diagnostic defs) (take m defs))).
Proof.
  induction m as [|m IH]; intros Hm.
  - simpl. by rewrite linked_0.
  - destruct (lookup_lt_is_Some_2 defs m) as [d Hd]; [lia|].
    rewrite seq_S, for_each_snoc, IH, (existsb_take_S _ _ _ _ Hd) by lia.
    simpl. destruct (existsb _ (take m defs)); simpl; [done|].
    rewrite (take_S_r _ _ _ Hd), map_app, concat_app. simpl.
    rewrite app_nil_r.
    assert (linked defs m !! m
            = Some (on_class (linked_class defs m m) d)) as Hl.
    { unfold linked. by rewrite list_lookup_imap, Hd. }
    rewrite Hl. destruct d as [c|f]; simpl.
    + destruct (ScriptClass.parent_name c) as [p|] eqn:Hp.
      * rewrite length_linked.
        rewrite link_parent_loop by (by rewrite length_linked).
        rewrite (take_ge (linked defs m)) by (by rewrite length_linked).
        rewrite clash_at_linked.
        destruct (existsb (is_function_named p) defs); simpl; [done|].
        rewrite (linked_S_child _ _ c p) by done.
        unfold linked at 1. rewrite list_lookup_imap, Hd. simpl.
        unfold linked_class at 1. simpl. rewrite Hp. simpl.
        rewrite (proj2 (Nat.ltb_lt m (S m))) by lia.
        destruct (resolve p defs) as [j|] eqn:Hr; simpl;
          [by rewrite app_nil_r|].
        destruct (ScriptClass.parent c) eqn:Hpar; simpl;
          [by rewrite app_nil_r|].
        do 3 f_equal. unfold parent_not_found. do 3 f_equal.
        apply repr_class_root; simpl; unfold is_root;
          rewrite ?Hpar, ?Hp, ?app_nil_r; done.
      * rewrite alter_synthesize, (linked_S_root _ _ c) by done.
        by rewrite app_nil_r.
    + rewrite (linked_S_function _ _ f) by done. by rewrite app_nil_r.
Qed.

(** [linkParents] raises exactly on a clash, and otherwise leaves the
    closed form. *)
Lemma linkParents_closed_form defs :
  linkParents defs
  = if clash defs then Raise no_children
    else Ok (linked defs (length defs), diagnostics defs).
Proof.
  unfold linkParents, clash, diagnostics.
  rewrite linkParents_loop by done. by rewrite take_ge.
Qed.

(** ** [linkFunctions] in closed form *)

Lemma link_function_matches sig func :
  link_function sig func
  = if matches func sig then ScriptFunction.set_parameters (Some sig.2) func
    else func.
Proof. by destruct sig as [[??]?]. Qed.

Lemma matches_set_parameters v func sig :
  matches (ScriptFunction.set_parameters v func) sig = matches func sig.
Proof. done. Qed.

Lemma link_functions_fold info func :
  fold_left (λ f sig, link_function sig f) info func
  = linked_function info func.
Proof.
  induction info as [|sig info IH] using rev_ind; [done|].
  rewrite fold_left_app. simpl. rewrite IH, link_function_matches.
  unfold linked_function. rewrite filter_app, last_app.
  destruct (matches func sig) eqn:Hm.
  - rewrite filter_cons_True by done. simpl.
    by destruct (last (filter _ info)); rewrite ?matches_set_parameters, Hm.
  - rewrite filter_cons_False by (by rewrite Hm). simpl.
    by destruct (last (filter _ info)); rewrite ?matches_set_parameters, Hm.
Qed.

Lemma linkFunctions_closed_form info defs :
  linkFunctions info defs = map (on_class (link_class info)) defs.
Proof.
  unfold linkFunctions. revert defs.
  induction info as [|sig info IH] using rev_ind; intros defs.
  - simpl. rewrite <- (map_id defs) at 1. apply map_ext. intros [c|f]; [|done].
    simpl. unfold link_class. f_equal. destruct c; unfold ScriptClass.set_functions; simpl.
    f_equal. rewrite <- (map_id functions) at 1. apply map_ext. done.
  - rewrite fold_left_app. simpl. rewrite IH. unfold linkFunctions_row.
    rewrite map_map. apply map_ext. intros [c|f]; [|done]. simpl.
    f_equal. unfold link_class, ScriptClass.set_functions. simpl. f_equal.
    rewrite map_map. apply map_ext. intros func.
    rewrite <- !link_functions_fold, fold_left_app. done.
Qed.

(** ** Reading the closed forms *)

Lemma linkParents_Ok defs defs' out :
  linkParents defs = Ok (defs', out) →
  clash defs = false ∧ defs' = linked defs (length defs)
  ∧ out = diagnostics defs.
Proof.
  rewrite linkParents_closed_form. destruct (clash defs); [done|].
  by intros [= <- <-].
Qed.

Lemma linked_lookup defs i c :
  defs !! i = Some (Class c) →
  linked defs (length defs) !! i
  = Some (Class (relink (p ← ScriptClass.parent_name c; resolve p defs)
                   (children_of (ScriptClass.name c) defs)
                   (if is_root c then [isValid; destroy] else [])
                   (if is_root c then [typeName] else []) c)).
Proof.
  intros Hi. unfold linked. rewrite list_lookup_imap, Hi. simpl.
  unfold linked_class. rewrite take_ge by done.
  by rewrite (proj2 (Nat.ltb_lt i (length defs)))
    by (by apply lookup_lt_Some in Hi).
Qed.

Lemma linked_lookup_function defs m i f :
  defs !! i = Some (Function f) → linked defs m !! i = Some (Function f).
Proof. intros Hi. unfold linked. by rewrite list_lookup_imap, Hi. Qed.

(** A clash is a class whose parent name is the name of a free function. *)
Lemma clash_true defs :
  clash defs = true
  ↔ ∃ i c j f, defs !! i = Some (Class c) ∧ defs !! j = Some (Function f)
      ∧ ScriptClass.parent_name c = Some (ScriptFunction.name f).
Proof.
  unfold clash. rewrite existsb_true_lookup. split.
  - intros (i & [c|g] & Hi & Hc); simpl in Hc; [|done].
    destruct (ScriptClass.parent_name c) as [p|] eqn:Hp; [|done].
    apply existsb_true_lookup in Hc as (j & [c'|f] & Hj & Hf);
      simpl in Hf; [done|].
    apply bool_decide_eq_true in Hf as <-. by exists i, c, j, f.
  - intros (i & c & j & f & Hi & Hj & Hp). exists i, (Class c).
    split; [done|]. simpl. rewrite Hp. apply existsb_true_lookup.
    exists j, (Function f). split; [done|]. simpl.
    by apply bool_decide_eq_true.
Qed.

Lemma parents_unlinked_lookup defs i c :
  parents_unlinked defs = true → defs !! i = Some (Class c) →
  ScriptClass.parent c = None ∧ ScriptClass.children c = []
  ∧ ScriptClass.members c = [].
Proof.
  intros Hun Hi. unfold parents_unlinked in Hun.
  rewrite forallb_forall in Hun. specialize (Hun (Class c)).
  simpl in Hun. unfold parents_unlinked_class in Hun.
  rewrite !andb_true_iff, !bool_decide_eq_true in Hun.
  destruct Hun as [[??]?]; [|done].
  apply list_elem_of_In. by eapply list_elem_of_lookup_2.
Qed.

Lemma unlinked_lookup defs i c f :
  unlinked defs = true → defs !! i = Some (Class c) →
  f ∈ ScriptClass.functions c →
  ScriptFunction.parameters f = None ∧ ScriptFunction.origin_class f ≠ None.
Proof.
  intros Hun Hi Hf%list_elem_of_In. unfold unlinked in Hun.
  rewrite forallb_forall in Hun. specialize (Hun (Class c)).
  simpl in Hun. unfold unlinked_class in Hun.
  rewrite andb_true_iff, forallb_forall in Hun.
  destruct Hun as [_ Hfs].
  { apply list_elem_of_In. by eapply list_elem_of_lookup_2. }
  apply Hfs in Hf. unfold unlinked_function in Hf.
  by rewrite andb_true_iff, !bool_decide_eq_true in Hf.
Qed.

Lemma unlinked_parents_unlinked defs :
  unlinked defs = true → parents_unlinked defs = true.
Proof.
  unfold unlinked, parents_unlinked. rewrite !forallb_forall.
  intros Hun [c|f] Hd; [|done]. apply Hun in Hd. simpl in Hd.
  unfold unlinked_class in Hd. by apply andb_true_iff in Hd as [? _].
Qed.

Lemma parents_unlinked_linkFunctions info defs :
  parents_unlinked (linkFunctions info defs) = parents_unlinked defs.
Proof.
  rewrite linkFunctions_closed_form. unfold parents_unlinked.
  induction defs as [|[c|f] defs IH]; simpl; by rewrite ?IH.
Qed.

(** ** Signature linking *)

Lemma filter_nil_Forall {A} (P : A → Prop) `{!∀ x, Decision (P x)} l :
  (∀ x, x ∈ l → ¬ P x) → filter P l = [].
Proof.
  induction l as [|x l IH]; intros Hl; [done|].
  rewrite filter_cons_False by (apply Hl; by left).
  apply IH. intros y Hy. apply Hl. by right.
Qed.

Lemma matches_true func sig :
  matches func sig = true
  ↔ ScriptFunction.origin_class func = Some sig.1.1
    ∧ ScriptFunction.name func = sig.1.2.
Proof. unfold matches. by rewrite andb_true_iff, !bool_decide_eq_true. Qed.

(** C1, as amended: the parameters a declared class function holds after
    signature linking are those of the LAST row of the signature table
    whose owner is the function's origin-class tag and whose method is
    its name; without such a row they stay absent. *)
Theorem linkFunctions_last_match_wins info defs i c k f :
  unlinked defs = true →
  defs !! i = Some (Class c) →
  ScriptClass.functions c !! k = Some f →
  ∃ c' f',
    linkFunctions info defs !! i = Some (Class c')
    ∧ ScriptClass.functions c' !! k = Some f'
    ∧ ScriptFunction.name f' = ScriptFunction.name f
    ∧ ScriptFunction.origin_class f' = ScriptFunction.origin_class f
    ∧ (∀ pre owner method parameters post,
         info = pre ++ (owner, method, parameters) :: post →
         ScriptFunction.origin_class f = Some owner →
         ScriptFunction.name f = method →
         (∀ o m ps, (o, m, ps) ∈ post →
            ¬ (ScriptFunction.origin_class f = Some o
               ∧ ScriptFunction.name f = m)) →
         ScriptFunction.parameters f' = Some parameters)
    ∧ ((∀ o m ps, (o, m, ps) ∈ info →
          ¬ (ScriptFunction.origin_class f = Some o
             ∧ ScriptFunction.name f = m)) →
       ScriptFunction.parameters f' = None).
Proof.
  intros Hun Hi Hk.
  exists (link_class info c), (linked_function info f).
  split_and!.
  - rewrite linkFunctions_closed_form.
    change (map ?g ?l) with (g <$> l). by rewrite list_lookup_fmap, Hi.
  - unfold link_class. simpl.
    change (map ?g ?l) with (g <$> l). by rewrite list_lookup_fmap, Hk.
  - unfold linked_function. by destruct (last _).
  - unfold linked_function. by destruct (last _).
  - intros pre owner method parameters post -> Ho Hn Hpost.
    unfold linked_function. rewrite filter_app, filter_cons_True
      by (by apply matches_true).
    rewrite (filter_nil_Forall _ post).
    + by rewrite last_snoc.
    + intros [[o m] ps] Hin Hm%matches_true. by eapply Hpost.
  - intros Hinfo. unfold linked_function.
    rewrite filter_nil_Forall.
    + simpl. eapply unlinked_lookup; [done..|].
      by eapply list_elem_of_lookup_2.
    + intros [[o m] ps] Hin Hm%matches_true. by eapply Hinfo.
Qed.

Lemma linkFunctions_last_match_wins_witness :
  ∃ c' f',
    linkFunctions overloads_info overloads_defs !! 0 = Some (Class c')
    ∧ ScriptClass.functions c' !! 0 = Some f'
    ∧ ScriptFunction.parameters f' = Some "float y".
Proof.
  destruct (linkFunctions_last_match_wins overloads_info overloads_defs 0
              (ScriptClass.addFunction bar_of_Foo (ScriptClass.init "Foo"))
              0 bar_of_Foo)
    as (c' & f' & Hc & Hf & _ & _ & Hlast & _);
    [reflexivity..|].
  exists c', f'. split_and!; [done..|].
  apply (Hlast [("Foo", "bar", "int x")] "Foo" "bar" "float y" []);
    [reflexivity..|].
  by intros ??? ?%elem_of_nil.
Defined.

(** C1, as stated, fails: with two rows for [Foo::bar] the function ends
    with the parameters of the second row, not of the first. *)
Lemma linkFunctions_first_match_loses :
  ∃ c f,
    linkFunctions overloads_info overloads_defs !! 0 = Some (Class c)
    ∧ ScriptClass.functions c !! 0 = Some f
    ∧ ScriptFunction.origin_class f = Some "Foo"
    ∧ ScriptFunction.name f = "bar"
    ∧ head overloads_info = Some ("Foo", "bar", "int x")
    ∧ ScriptFunction.parameters f = Some "float y"
    ∧ ScriptFunction.parameters f ≠ Some "int x".
Proof. by eexists _, _; split_and!; try reflexivity. Qed.

(** ** Parent linking *)

(** C10: [linkParents] looks the parent name up among all the entities.
    When a free function carries the name that some class gives as its
    parent, the append to the function's [children] raises; when no free
    function does, the pass returns. *)
Theorem linkParents_raises_iff_function_named_as_parent defs :
  ((∃ i c j f,
      defs !! i = Some (Class c) ∧ defs !! j = Some (Function f)
      ∧ ScriptClass.parent_name c = Some (ScriptFunction.name f)) →
   linkParents defs
   = Raise (AttributeError
              "'ScriptFunction' object has no attribute 'children'"))
  ∧ ((¬ ∃ i c j f,
        defs !! i = Some (Class c) ∧ defs !! j = Some (Function f)
        ∧ ScriptClass.parent_name c = Some (ScriptFunction.name f)) →
     ∃ defs' out, linkParents defs = Ok (defs', out)).
Proof.
  rewrite linkParents_closed_form, <- clash_true.
  destruct (clash defs); split; try done. eauto.
Qed.

Lemma linkParents_raises_witness :
  readScriptDefinitions [("a.cpp", function_as_parent_file)] []
  = Ok [Function (ScriptFunction.mk "Foo" "" None None);
        Class (ScriptClass.set_parent_name (Some "Foo")
                 (ScriptClass.init "Kid"))]
  ∧ linkParents [Function (ScriptFunction.mk "Foo" "" None None);
                 Class (ScriptClass.set_parent_name (Some "Foo")
                          (ScriptClass.init "Kid"))]
    = Raise (AttributeError
               "'ScriptFunction' object has no attribute 'children'").
Proof.
  split; [reflexivity|].
  apply (proj1 (linkParents_raises_iff_function_named_as_parent _)).
  by eexists 1, _, 0, _.
Defined.

Lemma count_named_app n fs gs :
  count_named n (fs ++ gs) = count_named n fs + count_named n gs.
Proof. unfold count_named. by rewrite filter_app, length_app. Qed.

(** C2, as amended: to a class without a parent name [linkParents]
    appends one function isValid and one function destroy, with the
    empty string as parameters and their fixed descriptions, and the one
    member typeName; each of the two names is then in the list once more
    than the class registered it.  A class with a parent name gets none
    of them. *)
Theorem linkParents_root_synthesis defs defs' out i c :
  parents_unlinked defs = true →
  linkParents defs = Ok (defs', out) →
  defs !! i = Some (Class c) →
  ∃ c',
    defs' !! i = Some (Class c')
    ∧ (ScriptClass.parent_name c = None →
       ScriptClass.functions c' = ScriptClass.functions c ++ [isValid; destroy]
       ∧ ScriptClass.members c' = [typeName]
       ∧ count_named "isValid" (ScriptClass.functions c')
         = S (count_named "isValid" (ScriptClass.functions c))
       ∧ count_named "destroy" (ScriptClass.functions c')
         = S (count_named "destroy" (ScriptClass.functions c))
       ∧ count_member "typeName" (ScriptClass.members c') = 1)
    ∧ (ScriptClass.parent_name c ≠ None →
       ScriptClass.functions c' = ScriptClass.functions c
       ∧ ScriptClass.members c' = []).
Proof.
  intros Hun (_ & -> & _)%linkParents_Ok Hi.
  destruct (parents_unlinked_lookup _ _ _ Hun Hi) as (_ & _ & Hmb).
  eexists. split; [by apply linked_lookup|]. simpl. rewrite Hmb.
  unfold is_root. split.
  - intros ->. split_and!; try done.
    + rewrite count_named_app. unfold count_named at 2. simpl. lia.
    + rewrite count_named_app. unfold count_named at 2. simpl. lia.
  - destruct (ScriptClass.parent_name c); [|done]. intros _.
    by rewrite app_nil_r.
Qed.

Lemma linkParents_root_synthesis_witness :
  ∃ c',
    ScriptClass.functions c' = [isValid; destroy]
    ∧ ScriptClass.members c' = [typeName].
Proof.
  destruct (linkParents_root_synthesis
              [Class (ScriptClass.init "Foo")]
              [Class (relink None [] [isValid; destroy] [typeName]
                        (ScriptClass.init "Foo"))]
              [] 0 (ScriptClass.init "Foo"))
    as (c' & _ & Hroot & _); [reflexivity..|].
  exists c'. destruct Hroot as (? & ? & _); done.
Defined.

(** C2, as stated, fails: a root class that registers a function called
    isValid itself has two entries of that name after linking. *)
Lemma linkParents_two_isValid :
  ∃ defs defs' out c',
    readScriptDefinitions [("a.cpp", own_isValid_file)] [] = Ok defs
    ∧ linkParents defs = Ok (defs', out)
    ∧ defs' !! 0 = Some (Class c')
    ∧ ScriptClass.parent_name c' = None
    ∧ count_named "isValid" (ScriptClass.functions c') = 2.
Proof. by eexists _, _, _, _; split_and!; try reflexivity. Qed.

Lemma elem_of_children_of nm defs i :
  i ∈ children_of nm defs
  ↔ ∃ c, defs !! i = Some (Class c) ∧ ScriptClass.parent_name c = Some nm.
Proof.
  unfold children_of. rewrite elem_of_positions. split.
  - intros ([c|f] & _ & Hi & Hc); simpl in Hc; [|done].
    rewrite Nat.sub_0_r in Hi. apply bool_decide_eq_true in Hc. eauto.
  - intros (c & Hi & Hc). exists (Class c). rewrite Nat.sub_0_r.
    split_and!; [lia|done|]. by apply bool_decide_eq_true.
Qed.

Lemma resolve_Some p defs j :
  resolve p defs = Some j → ∃ d, defs !! j = Some d ∧ def_name d = p.
Proof.
  unfold resolve. intros [l Hl]%last_Some.
  assert (j ∈ positions (is_named p) defs 0) as Hj.
  { rewrite Hl. apply elem_of_app. right. by left. }
  apply elem_of_positions in Hj as (d & _ & Hd & Hn).
  rewrite Nat.sub_0_r in Hd. apply bool_decide_eq_true in Hn. eauto.
Qed.

Lemma resolve_None p defs :
  resolve p defs = None ↔ ∀ j d, defs !! j = Some d → def_name d ≠ p.
Proof.
  unfold resolve. rewrite last_None. split.
  - intros Hnil j d Hj Hn.
    assert (j ∈ positions (is_named p) defs 0) as Hin.
    { apply elem_of_positions. exists d. rewrite Nat.sub_0_r.
      split_and!; [lia|done|]. by apply bool_decide_eq_true. }
    rewrite Hnil in Hin. by apply elem_of_nil in Hin.
  - intros Hno. apply positions_nil. intros d [j Hj]%list_elem_of_lookup.
    apply bool_decide_eq_false. by eapply Hno.
Qed.

Lemma resolve_is_Some p defs j d :
  defs !! j = Some d → def_name d = p → is_Some (resolve p defs).
Proof.
  intros Hj Hn. destruct (resolve p defs) eqn:Hr; [done|].
  rewrite resolve_None in Hr. by destruct (Hr j d).
Qed.

(** C5: a class whose parent name is the name of exactly one declared
    class has, after [linkParents], that class as its parent, and is
    once in that class's list of children. *)
Theorem linkParents_resolved_parent defs defs' out i c j P :
  parents_unlinked defs = true →
  linkParents defs = Ok (defs', out) →
  defs !! i = Some (Class c) →
  ScriptClass.parent_name c = Some (ScriptClass.name P) →
  defs !! j = Some (Class P) →
  (∀ j' P', defs !! j' = Some (Class P') →
            ScriptClass.name P' = ScriptClass.name P → j' = j) →
  ∃ c' P',
    defs' !! i = Some (Class c') ∧ defs' !! j = Some (Class P')
    ∧ ScriptClass.parent c' = Some j
    ∧ count_occ Nat.eq_dec (ScriptClass.children P') i = 1.
Proof.
  intros Hun (Hclash & -> & _)%linkParents_Ok Hi Hp Hj Huniq.
  do 2 eexists. split_and!; [by apply linked_lookup..| |]; simpl.
  - rewrite Hp. simpl.
    destruct (resolve_is_Some (ScriptClass.name P) defs j (Class P))
      as [j' Hr]; [done..|].
    rewrite Hr. simpl. f_equal.
    destruct (resolve_Some _ _ _ Hr) as ([P'|f] & Hj' & Hn).
    + by eapply Huniq.
    + apply not_true_iff_false in Hclash. destruct Hclash.
      apply clash_true. exists i, c, j', f. by rewrite Hp, <- Hn.
  - destruct (parents_unlinked_lookup _ _ _ Hun Hj) as (_ & -> & _). simpl.
    apply NoDup_count_occ'; [apply NoDup_ListNoDup, NoDup_positions|].
    apply list_elem_of_In, elem_of_children_of. eauto.
Qed.

Lemma linkParents_resolved_parent_witness :
  ∃ c' P',
    ScriptClass.parent c' = Some 0
    ∧ count_occ Nat.eq_dec (ScriptClass.children P') 1 = 1.
Proof.
  destruct (linkParents_resolved_parent
              [Class (ScriptClass.init "Foo");
               Class (ScriptClass.set_parent_name (Some "Foo")
                        (ScriptClass.init "Kid"))]
              [Class (relink None [1] [isValid; destroy] [typeName]
                        (ScriptClass.init "Foo"));
               Class (relink (Some 0) [] [] []
                        (ScriptClass.set_parent_name (Some "Foo")
                           (ScriptClass.init "Kid")))]
              [] 1
              (ScriptClass.set_parent_name (Some "Foo")
                 (ScriptClass.init "Kid"))
              0 (ScriptClass.init "Foo"))
    as (c' & P' & _ & _ & Hpar & Hch); [reflexivity..| |by eauto].
  intros [|[|j']] P' HP' Hn; [done| |done].
  by simplify_eq/=.
Defined.

(** ** A second run of the linker *)

Lemma existsb_ext_in {A} (P Q : A → bool) l :
  (∀ x, P x = Q x) → existsb P l = existsb Q l.
Proof. intros HPQ. induction l as [|x l IH]; simpl; [done|]. by rewrite HPQ, IH. Qed.

Lemma clash_linked defs m : clash (linked defs m) = clash defs.
Proof.
  unfold clash.
  rewrite (existsb_ext_in (clash_at (linked defs m)) (clash_at defs)).
  - apply existsb_imap. by intros ? [].
  - intros [c|f]; simpl; [|done].
    destruct (ScriptClass.parent_name c); [|done]. apply clash_at_linked.
Qed.

Lemma resolve_linked p defs m : resolve p (linked defs m) = resolve p defs.
Proof. unfold resolve, linked. rewrite positions_imap; [done|]. by intros ? []. Qed.

Lemma children_of_linked nm defs m :
  children_of nm (linked defs m) = children_of nm defs.
Proof.
  unfold children_of, linked. rewrite positions_imap; [done|]. by intros ? [].
Qed.

Lemma filter_matches_same_key (f g : ScriptFunction.t) (info : list signature) :
  ScriptFunction.origin_class g = ScriptFunction.origin_class f →
  ScriptFunction.name g = ScriptFunction.name f →
  filter (λ sig, matches g sig = true) info
  = filter (λ sig, matches f sig = true) info.
Proof.
  intros Ho Hn. induction info as [|sig info IH]; [done|].
  assert (matches g sig = matches f sig) as Hm
    by (unfold matches; by rewrite Ho, Hn).
  destruct (matches f sig) eqn:Hf.
  - rewrite !filter_cons_True by (by rewrite ?Hm, ?Hf). by rewrite IH.
  - rewrite !filter_cons_False by (by rewrite ?Hm, ?Hf). done.
Qed.

Lemma linked_function_idemp info f :
  linked_function info (linked_function info f) = linked_function info f.
Proof.
  unfold linked_function at 1 3.
  rewrite (filter_matches_same_key f (linked_function info f))
    by (unfold linked_function; by destruct (last _)).
  unfold linked_function. by destruct (last _).
Qed.

Lemma linked_function_no_origin info f :
  ScriptFunction.origin_class f = None → linked_function info f = f.
Proof.
  intros Ho. unfold linked_function. rewrite filter_nil_Forall; [done|].
  intros sig _ [Hm _]%matches_true. congruence.
Qed.

Lemma link_class_relink info par kids fns mbs c :
  Forall (λ f, ScriptFunction.origin_class f = None) fns →
  link_class info (relink par kids fns mbs (link_class info c))
  = relink par kids fns mbs (link_class info c).
Proof.
  intros Hfns. unfold link_class, relink, ScriptClass.set_functions. simpl.
  f_equal. rewrite map_app, map_map. f_equal.
  - apply map_ext. intros f. apply linked_function_idemp.
  - rewrite <- (map_id fns) at 2. apply map_ext_Forall.
    eapply Forall_impl; [exact Hfns|]. intros f Hf.
    by apply linked_function_no_origin.
Qed.

Lemma linkFunctions_lookup info defs i :
  linkFunctions info defs !! i = on_class (link_class info) <$> defs !! i.
Proof.
  rewrite linkFunctions_closed_form. change (map ?g ?l) with (g <$> l).
  apply list_lookup_fmap.
Qed.

Lemma synthesized_no_origin (b : bool) :
  Forall (λ f, ScriptFunction.origin_class f = None)
    (if b then [isValid; destroy] else []).
Proof. destruct b; repeat constructor. Qed.

(** C3, as amended: on an already linked model a second [linkFunctions]
    changes nothing, and a second [linkParents] returns and leaves every
    resolved parent as it is; but it appends isValid, destroy and
    typeName once more to every root class and every child once more to
    the children of its parent. *)
Theorem second_link_appends_again info defs defs1 out1 :
  unlinked defs = true →
  link info defs = Ok (defs1, out1) →
  linkFunctions info defs1 = defs1
  ∧ ∃ defs2 out2,
      linkParents defs1 = Ok (defs2, out2)
      ∧ (∀ i f, defs1 !! i = Some (Function f) →
                defs2 !! i = Some (Function f))
      ∧ ∀ i c1, defs1 !! i = Some (Class c1) →
          ∃ c2,
            defs2 !! i = Some (Class c2)
            ∧ ScriptClass.name c2 = ScriptClass.name c1
            ∧ ScriptClass.parent_name c2 = ScriptClass.parent_name c1
            ∧ ScriptClass.parent c2 = ScriptClass.parent c1
            ∧ ScriptClass.description c2 = ScriptClass.description c1
            ∧ ScriptClass.create c2 = ScriptClass.create c1
            ∧ ScriptClass.callbacks c2 = ScriptClass.callbacks c1
            ∧ ScriptClass.children c2
              = ScriptClass.children c1 ++ ScriptClass.children c1
            ∧ ScriptClass.functions c2
              = ScriptClass.functions c1
                ++ (if is_root c1 then [isValid; destroy] else [])
            ∧ ScriptClass.members c2
              = ScriptClass.members c1
                ++ (if is_root c1 then [typeName] else []).
Proof.
  unfold link. intros Hun (Hclash & -> & _)%linkParents_Ok. split.
  - apply list_eq; intros i. rewrite linkFunctions_lookup.
    unfold linked. rewrite list_lookup_imap, linkFunctions_lookup.
    destruct (defs !! i) as [[c|f]|]; simpl; [|done..].
    f_equal. apply Class_eq. unfold linked_class.
    apply link_class_relink, synthesized_no_origin.
  - rewrite linkParents_closed_form, clash_linked, Hclash.
    do 2 eexists. split; [done|]. split.
    + intros i f Hf. by apply linked_lookup_function.
    + intros i c1 Hi. eexists. split; [by apply linked_lookup|]. simpl.
      unfold linked in Hi. apply list_lookup_imap_Some in Hi
        as ([c|f] & Hi & Hc1); simpl in Hc1; [|done].
      injection Hc1 as ->. rewrite linkFunctions_lookup in Hi.
      destruct (defs !! i) as [[c0|f]|] eqn:Hi0; simplify_eq/=.
      destruct (parents_unlinked_lookup _ _ _
                  (unlinked_parents_unlinked _ Hun) Hi0) as (Hpar & Hch & _).
      rewrite children_of_linked, Hch, Hpar, take_ge by done. simpl.
      split_and!; try done.
      destruct (ScriptClass.parent_name c0) as [p|]; simpl;
        [|by destruct (_ <? _)].
      rewrite resolve_linked, (proj2 (Nat.ltb_lt i _)).
      * by destruct (resolve p _).
      * rewrite linkFunctions_closed_form, length_map.
        by apply lookup_lt_Some in Hi0.
Qed.

Lemma second_link_appends_again_witness :
  ∃ defs1 defs2 out2 c2,
    linkParents defs1 = Ok (defs2, out2)
    ∧ defs2 !! 0 = Some (Class c2)
    ∧ ScriptClass.children c2 = [1; 1].
Proof.
  destruct (second_link_appends_again []
              [Class (ScriptClass.init "Foo");
               Class (ScriptClass.set_parent_name (Some "Foo")
                        (ScriptClass.init "Kid"))]
              [Class (relink None [1] [isValid; destroy] [typeName]
                        (ScriptClass.init "Foo"));
               Class (relink (Some 0) [] [] []
                        (ScriptClass.set_parent_name (Some "Foo")
                           (ScriptClass.init "Kid")))]
              [])
    as (_ & defs2 & out2 & Hrun & _ & Hcls); [reflexivity..|].
  destruct (Hcls 0 (relink None [1] [isValid; destroy] [typeName]
                      (ScriptClass.init "Foo")))
    as (c2 & Hc2 & Hfields); [reflexivity|].
  eexists _, defs2, out2, c2. split_and!; [exact Hrun|exact Hc2|].
  by destruct Hfields as (_ & _ & _ & _ & _ & _ & -> & _).
Defined.

(** C3, as stated, fails: the second run of the two passes changes the
    model; the root class gets a second isValid and its child is twice
    in its list of children. *)
Lemma second_link_changes_model :
  ∃ defs defs1 out1 defs2 out2 foo1 foo2,
    readScriptDefinitions [("a.cpp", family_file)] [] = Ok defs
    ∧ link [] defs = Ok (defs1, out1)
    ∧ link [] defs1 = Ok (defs2, out2)
    ∧ defs2 ≠ defs1
    ∧ defs1 !! 0 = Some (Class foo1)
    ∧ defs2 !! 0 = Some (Class foo2)
    ∧ count_named "isValid" (ScriptClass.functions foo1) = 1
    ∧ count_named "isValid" (ScriptClass.functions foo2) = 2
    ∧ ScriptClass.children foo1 = [1]
    ∧ ScriptClass.children foo2 = [1; 1].
Proof.
  eexists _, _, _, _, _, _, _.
  split_and!; [vm_compute; reflexivity..| | | | | | |];
    [|vm_compute; reflexivity..].
  vm_compute. intros Heq. discriminate Heq.
Qed.

(** ** A parent name that no class carries *)

Lemma linkParents_unresolved defs defs' out i c p :
  parents_unlinked defs = true →
  linkParents defs = Ok (defs', out) →
  defs !! i = Some (Class c) →
  ScriptClass.parent_name c = Some p →
  (∀ j P, defs !! j = Some (Class P) → ScriptClass.name P ≠ p) →
  ∃ c',
    defs' !! i = Some (Class c')
    ∧ ScriptClass.name c' = ScriptClass.name c
    ∧ ScriptClass.parent_name c' = ScriptClass.parent_name c
    ∧ ScriptClass.create c' = ScriptClass.create c
    ∧ ScriptClass.parent c' = None
    ∧ ScriptClass.functions c' = ScriptClass.functions c
    ∧ ScriptClass.members c' = []
    ∧ parent_not_found defs' c' ∈ out.
Proof.
  intros Hun (Hclash & -> & ->)%linkParents_Ok Hi Hp Hnone.
  destruct (parents_unlinked_lookup _ _ _ Hun Hi) as (Hpar & _ & Hmb).
  assert (resolve p defs = None) as Hr.
  { apply resolve_None. intros j [P|f] Hj Hn; [by eapply Hnone|].
    apply not_true_iff_false in Hclash. destruct Hclash.
    apply clash_true. exists i, c, j, f. by rewrite Hp, <- Hn. }
  eexists. split; [by apply linked_lookup|]. simpl.
  unfold is_root. rewrite Hp, Hpar, Hmb. simpl. rewrite Hr. simpl.
  split_and!; try done; [by rewrite app_nil_r|].
  apply list_elem_of_In, in_concat. exists (diagnostic defs (Class c)).
  split.
  - apply in_map, list_elem_of_In. by eapply list_elem_of_lookup_2.
  - simpl. rewrite Hp, Hr, Hpar. simpl. left.
    unfold parent_not_found.
    rewrite (repr_class_root defs (linked defs (length defs)) c
               (relink None (children_of (ScriptClass.name c) defs) [] [] c));
      simpl; rewrite ?Hpar, ?app_nil_r; done.
Qed.

(** ** What a scan adds to the declaration list *)

Lemma extended_entry_refl Q d : extended_entry Q (Some d) d.
Proof.
  destruct d as [c|f]; simpl; [|done]. split_and!; try done.
  exists []. by rewrite app_nil_r.
Qed.

Lemma extended_refl Q defs : extended Q defs defs.
Proof.
  split; [done|]. intros i d' ->. apply extended_entry_refl.
Qed.

Lemma added_function_weaken (Q Q' : string → Prop) f :
  (∀ s, Q s → Q' s) → added_function Q f → added_function Q' f.
Proof. intros HQ [??]. split; auto. Qed.

Lemma extended_entry_weaken (Q Q' : string → Prop) old d :
  (∀ s, Q s → Q' s) → extended_entry Q old d → extended_entry Q' old d.
Proof.
  intros HQ. destruct old as [[c|f]|], d as [c'|f']; simpl; try done.
  - intros (?&?&?&?&?&?&?& fs & ? & Hfs). split_and!; try done.
    exists fs. split; [done|].
    eapply Forall_impl; [done|]. intros f. by apply added_function_weaken.
  - intros (? & ? & Hfs). split_and!; auto.
    eapply Forall_impl; [done|]. intros f. by apply added_function_weaken.
  - auto.
Qed.

Lemma extended_weaken (Q Q' : string → Prop) a b :
  (∀ s, Q s → Q' s) → extended Q a b → extended Q' a b.
Proof.
  intros HQ [Hlen Hent]. split; [done|]. intros i d' Hi.
  eapply extended_entry_weaken; eauto.
Qed.

Lemma extended_entry_trans Q old d d' :
  extended_entry Q old d → extended_entry Q (Some d) d' →
  extended_entry Q old d'.
Proof.
  destruct old as [[c0|f0]|], d as [c|f], d' as [c'|f']; simpl; try done.
  - intros (?&?&?&?&?&?&?& fs & Hf & Hfs) (?&?&?&?&?&?&?& gs & Hg & Hgs).
    split_and!; try congruence. exists (fs ++ gs).
    rewrite Hg, Hf, <- app_assoc. split; [done|]. by apply Forall_app.
  - congruence.
  - intros (? & Hpu & Hfs) (?&?&Hp&Hd&Hc&?&Hm& gs & Hg & Hgs).
    split_and!.
    + congruence.
    + unfold parents_unlinked_class in *. by rewrite Hp, Hc, Hm.
    + rewrite Hg. by apply Forall_app.
  - by intros ? ->.
Qed.

Lemma extended_trans Q a b c :
  extended Q a b → extended Q b c → extended Q a c.
Proof.
  intros [Hab Eab] [Hbc Ebc]. split; [lia|]. intros i d' Hi.
  specialize (Ebc i d' Hi). destruct (b !! i) as [d|] eqn:Hb.
  - eapply extended_entry_trans; eauto.
  - rewrite (lookup_ge_None_2 a i); [done|].
    apply lookup_ge_None_1 in Hb. lia.
Qed.

Lemma extended_snoc Q a b d :
  extended Q a b → extended_entry Q None d → extended Q a (b ++ [d]).
Proof.
  intros [Hab Eab] Hd. split; [rewrite length_app; lia|]. intros i d' Hi.
  apply lookup_app_Some in Hi as [Hi|[Hge Hi]]; [by apply Eab|].
  apply list_lookup_singleton_Some in Hi as [_ <-].
  rewrite (lookup_ge_None_2 a i); [done|lia].
Qed.

Lemma extended_alter Q a b g i :
  extended Q a b →
  (∀ old d, extended_entry Q old d → extended_entry Q old (g d)) →
  extended Q a (alter g i b).
Proof.
  intros [Hab Eab] Hg. split; [by rewrite length_alter|]. intros k d' Hk.
  rewrite list_lookup_alter in Hk. case_decide; [subst k|by apply Eab].
  destruct (b !! i) as [d|] eqn:Hb; simplify_eq/=. by apply Hg, Eab.
Qed.

Lemma extended_entry_addFunction Q f old d :
  added_function Q f → extended_entry Q old d →
  extended_entry Q old (on_class (ScriptClass.addFunction f) d).
Proof.
  intros Hf. destruct old as [[c0|f0]|], d as [c|g]; simpl; try done.
  - intros (?&?&?&?&?&?&?& fs & Hfs & HQ). split_and!; try done.
    exists (fs ++ [f]). rewrite Hfs, <- app_assoc. split; [done|].
    apply Forall_app. split; [done|]. by constructor.
  - intros (? & ? & HQ). split_and!; try done.
    apply Forall_app. split; [done|]. by constructor.
Qed.

Lemma extended_entry_addCallback Q n old d :
  extended_entry Q old d →
  extended_entry Q old (on_class (ScriptClass.addCallback n) d).
Proof. by destruct old as [[c0|f0]|], d as [c|g]. Qed.

(** The extractor keeps the list unlinked. *)
Lemma extended_unlinked Q a b :
  extended Q a b → unlinked a = true → unlinked b = true.
Proof.
  intros [Hab Eab] Ha. unfold unlinked in *. rewrite forallb_forall in *.
  intros d' [i Hi]%list_elem_of_In%list_elem_of_lookup.
  specialize (Eab i d' Hi). destruct d' as [c'|f']; simpl; [|done].
  assert (∀ fs, Forall (added_function Q) fs →
                forallb unlinked_function fs = true) as Hadd.
  { intros fs Hfs. apply forallb_forall. intros f Hf%list_elem_of_In.
    rewrite Forall_forall in Hfs. by apply Hfs in Hf as [_ ?]. }
  unfold unlinked_class. apply andb_true_iff.
  destruct (a !! i) as [[c|f]|] eqn:Hai; simpl in Eab; try done.
  - destruct Eab as (?&?&Hp&?&Hc&?&Hm& fs & Hfs & HQ).
    specialize (Ha (Class c)). simpl in Ha. unfold unlinked_class in Ha.
    apply andb_true_iff in Ha as [Hpu Hfc].
    + split.
      * unfold parents_unlinked_class in *. by rewrite Hp, Hc, Hm.
      * rewrite Hfs, forallb_app, Hfc. simpl. by apply Hadd.
    + apply list_elem_of_In. by eapply list_elem_of_lookup_2.
  - destruct Eab as (? & ? & Hfs). split; [done|]. by apply Hadd.
Qed.

(** What a class keeps while the scan goes on. *)
Lemma extended_lookup_class Q a b i c :
  extended Q a b → a !! i = Some (Class c) →
  ∃ c', b !! i = Some (Class c')
        ∧ ScriptClass.name c' = ScriptClass.name c
        ∧ ScriptClass.parent_name c' = ScriptClass.parent_name c
        ∧ ScriptClass.create c' = ScriptClass.create c
        ∧ ScriptClass.description c' = ScriptClass.description c.
Proof.
  intros [Hab Eab] Hi.
  destruct (lookup_lt_is_Some_2 b i) as [d' Hd'].
  { apply lookup_lt_Some in Hi. lia. }
  specialize (Eab i d' Hd'). rewrite Hi in Eab.
  destruct d' as [c'|f']; simpl in Eab; [|done].
  exists c'. by destruct Eab as (?&?&?&?&?&?&?&?).
Qed.

(** ** The steps of the declaration extractor *)

(** A class that is declared goes to the end of the list. *)
Lemma declare_class_extends Q a c st :
  extended Q a (definitions st) →
  Q (ScriptClass.description c) →
  parents_unlinked_class c = true → ScriptClass.functions c = [] →
  extended Q a (definitions (declare_class c st))
  ∧ description (declare_class c st) = description st.
Proof.
  intros Ha HQ Hpu Hfs. split; [|done]. simpl.
  apply extended_snoc; [done|]. simpl. rewrite Hfs. by split_and!.
Qed.

(** Each class macro declares one class, with the pending description,
    when its pattern is found on the line. *)
Ltac class_macro_extends :=
  intros ? ?;
  match goal with
  | |- context [Re.search ?r ?line] => destruct (Re.search r line)
  end;
  [by apply declare_class_extends|done].

Lemma on_CLASS_extends Q a line st :
  extended Q a (definitions st) → Q (description st) →
  extended Q a (definitions (on_CLASS line st))
  ∧ description (on_CLASS line st) = description st.
Proof. unfold on_CLASS. class_macro_extends. Qed.

Lemma on_CLASS_NO_CREATE_extends Q a line st :
  extended Q a (definitions st) → Q (description st) →
  extended Q a (definitions (on_CLASS_NO_CREATE line st))
  ∧ description (on_CLASS_NO_CREATE line st) = description st.
Proof. unfold on_CLASS_NO_CREATE. class_macro_extends. Qed.

Lemma on_SUBCLASS_extends Q a line st :
  extended Q a (definitions st) → Q (description st) →
  extended Q a (definitions (on_SUBCLASS line st))
  ∧ description (on_SUBCLASS line st) = description st.
Proof. unfold on_SUBCLASS. class_macro_extends. Qed.

Lemma on_SUBCLASS_NO_CREATE_extends Q a line st :
  extended Q a (definitions st) → Q (description st) →
  extended Q a (definitions (on_SUBCLASS_NO_CREATE line st))
  ∧ description (on_SUBCLASS_NO_CREATE line st) = description st.
Proof. unfold on_SUBCLASS_NO_CREATE. class_macro_extends. Qed.

Lemma with_current_class_Ok attr f st st' :
  with_current_class attr f st = Ok st'
  ↔ ∃ i, current_class st = Some i
         ∧ st' = Scan (alter (on_class f) i (definitions st)) (Some i)
                      (description st).
Proof.
  unfold with_current_class. destruct (current_class st) as [i|].
  - split; [intros [= <-]; eauto|]. by intros (? & [= <-] & ->).
  - split; [done|]. by intros (? & ? & _).
Qed.

Lemma on_CLASS_FUNCTION_extends Q a line st st' :
  extended Q a (definitions st) → Q (description st) →
  on_CLASS_FUNCTION line st = Ok st' →
  extended Q a (definitions st') ∧ description st' = description st.
Proof.
  intros Ha HQ. unfold on_CLASS_FUNCTION.
  destruct (Re.search _ _); [|by intros [= <-]].
  intros (i & _ & ->)%with_current_class_Ok. split; [|done]. simpl.
  apply extended_alter; [done|]. intros old d.
  by apply extended_entry_addFunction.
Qed.

Lemma on_CLASS_CALLBACK_extends Q a line st st' :
  extended Q a (definitions st) →
  on_CLASS_CALLBACK line st = Ok st' →
  extended Q a (definitions st') ∧ description st' = description st.
Proof.
  intros Ha. unfold on_CLASS_CALLBACK.
  destruct (Re.search _ _); [|by intros [= <-]].
  intros (i & _ & ->)%with_current_class_Ok. split; [|done]. simpl.
  apply extended_alter; [done|]. intros old d.
  by apply extended_entry_addCallback.
Qed.

Lemma on_FUNCTION_extends Q a line st :
  extended Q a (definitions st) → Q (description st) →
  extended Q a (definitions (on_FUNCTION line st)).
Proof.
  intros Ha HQ. unfold on_FUNCTION. destruct (Re.search _ _); [|done].
  simpl. by apply extended_snoc.
Qed.

Lemma is_skipped_false line :
  is_skipped line = false
  ↔ Py.startswith line "#" = false ∧ Re.search re_doc line = None.
Proof.
  unfold is_skipped, found. rewrite orb_false_iff.
  destruct (Re.search re_doc line); split; by intros [??].
Qed.

Lemma is_skipped_true line :
  is_skipped line = true
  ↔ Py.startswith line "#" = true
    ∨ Py.startswith line "#" = false ∧ is_Some (Re.search re_doc line).
Proof.
  unfold is_skipped, found.
  destruct (Py.startswith line "#"), (Re.search re_doc line); simpl;
    split; try done; eauto.
  by intros [|[_ [??]]].
Qed.

Lemma readScriptDefinitions_line_skipped st line :
  is_skipped line = true →
  ∃ d, readScriptDefinitions_line st line
       = Ok (Scan (definitions st) (current_class st) d).
Proof.
  intros [Hd|[Hd [m Hm]]]%is_skipped_true; unfold readScriptDefinitions_line;
    rewrite Hd.
  - exists (description st). by destruct st.
  - rewrite Hm. eauto.
Qed.

Lemma readScriptDefinitions_line_scanned st line :
  is_skipped line = false →
  readScriptDefinitions_line st line
  = (st2 ← on_CLASS_FUNCTION line (class_macros line st);
     st3 ← on_CLASS_CALLBACK line st2;
     Ok (Scan (definitions (on_FUNCTION line st3))
              (current_class (on_FUNCTION line st3)) "")).
Proof.
  intros [Hd Hdoc]%is_skipped_false. unfold readScriptDefinitions_line.
  by rewrite Hd, Hdoc.
Qed.

Lemma class_macros_extends Q a line st :
  extended Q a (definitions st) → Q (description st) →
  extended Q a (definitions (class_macros line st))
  ∧ description (class_macros line st) = description st.
Proof.
  intros Ha HQ. unfold class_macros.
  destruct (on_CLASS_extends Q a line st) as [H1 E1]; [done..|].
  destruct (on_CLASS_NO_CREATE_extends Q a line (on_CLASS line st))
    as [H2 E2]; [done|by rewrite E1|].
  destruct (on_SUBCLASS_extends Q a line
              (on_CLASS_NO_CREATE line (on_CLASS line st)))
    as [H3 E3]; [done|by rewrite E2, E1|].
  destruct (on_SUBCLASS_NO_CREATE_extends Q a line
              (on_SUBCLASS line (on_CLASS_NO_CREATE line (on_CLASS line st))))
    as [H4 E4]; [done|by rewrite E3, E2, E1|].
  split; [done|]. by rewrite E4, E3, E2, E1.
Qed.

(** The per-class and free-function macros of a line, from the state
    [st] that its class macros leave. *)
Lemma tail_macros_extend Q a line st st2 st3 :
  extended Q a (definitions st) → Q (description st) →
  on_CLASS_FUNCTION line st = Ok st2 →
  on_CLASS_CALLBACK line st2 = Ok st3 →
  extended Q a (definitions (on_FUNCTION line st3)).
Proof.
  intros Ha HQ H2 H3.
  destruct (on_CLASS_FUNCTION_extends Q a line st st2) as [E2 D2]; [done..|].
  destruct (on_CLASS_CALLBACK_extends Q a line st2 st3) as [E3 D3]; [done..|].
  apply on_FUNCTION_extends; [done|]. by rewrite D3, D2.
Qed.

(** Everything a line adds carries the description that is pending when
    the line is read. *)
Lemma readScriptDefinitions_line_extends st line st' :
  readScriptDefinitions_line st line = Ok st' →
  extended (λ s, s = description st) (definitions st) (definitions st').
Proof.
  destruct (is_skipped line) eqn:Hskip.
  - destruct (readScriptDefinitions_line_skipped st line Hskip) as [d ->].
    intros [= <-]. apply extended_refl.
  - rewrite readScriptDefinitions_line_scanned by done.
    intros (st2 & H2 & (st3 & H3 & [= <-])%bind_Ok)%bind_Ok. simpl.
    destruct (class_macros_extends (λ s, s = description st)
                (definitions st) line st) as [E1 D1];
      [apply extended_refl|done|].
    by eapply tail_macros_extend.
Qed.

Lemma readScriptDefinitions_lines_extend lines st st' :
  for_each readScriptDefinitions_line lines st = Ok st' →
  extended (λ _, True) (definitions st) (definitions st').
Proof.
  apply (for_each_preserves _
           (λ s s', extended (λ _, True) (definitions s) (definitions s'))).
  - intros s. apply extended_refl.
  - intros s1 s2 s3. apply extended_trans.
  - intros s x s' Hx%readScriptDefinitions_line_extends.
    by eapply extended_weaken.
Qed.

Lemma readScriptDefinitions_file_extends defs lines defs' :
  readScriptDefinitions_file defs lines = Ok defs' →
  extended (λ _, True) defs defs'.
Proof.
  unfold readScriptDefinitions_file.
  intros (st & Hst%readScriptDefinitions_lines_extend & [= <-])%bind_Ok.
  done.
Qed.

Lemma readScriptDefinitions_files_extend files defs defs' :
  for_each readScriptDefinitions_file files defs = Ok defs' →
  extended (λ _, True) defs defs'.
Proof.
  apply (for_each_preserves _ (extended (λ _, True))).
  - apply extended_refl.
  - apply extended_trans.
  - apply readScriptDefinitions_file_extends.
Qed.

(** The declaration list that the extractor returns is unlinked. *)
Lemma readScriptDefinitions_unlinked files defs :
  readScriptDefinitions files [] = Ok defs → unlinked defs = true.
Proof.
  intros Hex%readScriptDefinitions_files_extend.
  by eapply extended_unlinked.
Qed.

(** ** The current class of the declaration extractor *)

Lemma in_class_class_macros line st :
  in_class (class_macros line st) = in_class st || is_class_macro line.
Proof.
  unfold class_macros, on_SUBCLASS_NO_CREATE, on_SUBCLASS, on_CLASS_NO_CREATE,
    on_CLASS, is_class_macro, found, in_class.
  destruct (Re.search re_CLASS line), (Re.search re_CLASS_NO_CREATE line),
    (Re.search re_SUBCLASS line), (Re.search re_SUBCLASS_NO_CREATE line),
    (current_class st); done.
Qed.

(** A scanned line raises exactly when it has a per-class macro and no
    class is current once its class macros are read. *)
Lemma readScriptDefinitions_line_ordered st line :
  is_skipped line = false →
  if is_per_class_macro line && negb (in_class st || is_class_macro line)
  then ∃ e, is_none_error e ∧ readScriptDefinitions_line st line = Raise e
  else ∃ st', readScriptDefinitions_line st line = Ok st'
              ∧ in_class st'
                = (in_class st || is_class_macro line)
                  && negb (found re_FUNCTION line).
Proof.
  intros Hskip. rewrite readScriptDefinitions_line_scanned by done.
  rewrite <- in_class_class_macros. generalize (class_macros line st).
  intros st1.
  unfold is_per_class_macro, on_CLASS_FUNCTION, on_CLASS_CALLBACK,
    on_FUNCTION, with_current_class, found, in_class, is_none_error.
  destruct (Re.search re_CLASS_FUNCTION line),
    (Re.search re_CLASS_CALLBACK line), (Re.search re_FUNCTION line),
    (current_class st1) eqn:Hcur; simpl; rewrite ?Hcur; simpl; eauto.
Qed.

(** In particular a per-class macro raises when no class is current and
    its line has no class macro before it. *)
Lemma per_class_macro_without_class_raises st line :
  is_skipped line = false → in_class st = false →
  is_class_macro line = false → is_per_class_macro line = true →
  ∃ e, is_none_error e ∧ readScriptDefinitions_line st line = Raise e.
Proof.
  intros Hskip Hin Hcls Hper.
  pose proof (readScriptDefinitions_line_ordered st line Hskip) as Hline.
  by rewrite Hin, Hcls, Hper in Hline.
Qed.

(** A free-function macro leaves no class current. *)
Lemma free_function_macro_clears_class st line st' :
  is_skipped line = false → found re_FUNCTION line = true →
  readScriptDefinitions_line st line = Ok st' → in_class st' = false.
Proof.
  intros Hskip Hfun Hline.
  pose proof (readScriptDefinitions_line_ordered st line Hskip) as Hord.
  destruct (is_per_class_macro line && _).
  - destruct Hord as (e & _ & He). congruence.
  - destruct Hord as (st'' & Hst & Hin). rewrite Hline in Hst.
    injection Hst as <-. by rewrite Hin, Hfun, andb_false_r.
Qed.

Lemma readScriptDefinitions_lines_ordered lines st :
  if ordered (in_class st) lines
  then ∃ st', for_each readScriptDefinitions_line lines st = Ok st'
  else ∃ e, is_none_error e
            ∧ for_each readScriptDefinitions_line lines st = Raise e.
Proof.
  revert st. induction lines as [|line lines IH]; intros st; simpl; [eauto|].
  destruct (is_skipped line) eqn:Hskip.
  - destruct (readScriptDefinitions_line_skipped st line Hskip) as [d ->].
    simpl. apply (IH (Scan (definitions st) (current_class st) d)).
  - pose proof (readScriptDefinitions_line_ordered st line Hskip) as Hline.
    destruct (is_per_class_macro line && _).
    + destruct Hline as (e & He & ->). simpl. eauto.
    + destruct Hline as (st' & -> & Hin). simpl. rewrite <- Hin. apply IH.
Qed.

Lemma readScriptDefinitions_file_ordered lines defs :
  if ordered false lines
  then ∃ defs', readScriptDefinitions_file defs lines = Ok defs'
  else ∃ e, is_none_error e
            ∧ readScriptDefinitions_file defs lines = Raise e.
Proof.
  unfold readScriptDefinitions_file.
  pose proof (readScriptDefinitions_lines_ordered lines (Scan defs None ""))
    as Hlines.
  change (in_class (Scan defs None "")) with false in Hlines.
  destruct (ordered false lines).
  - destruct Hlines as [st' ->]. simpl. eauto.
  - destruct Hlines as (e & He & ->). simpl. eauto.
Qed.

Lemma readScriptDefinitions_files_ordered files defs :
  if forallb (ordered false) files
  then ∃ defs', for_each readScriptDefinitions_file files defs = Ok defs'
  else ∃ e, is_none_error e
            ∧ for_each readScriptDefinitions_file files defs = Raise e.
Proof.
  revert defs. induction files as [|lines files IH]; intros defs; simpl;
    [eauto|].
  pose proof (readScriptDefinitions_file_ordered lines defs) as Hfile.
  destruct (ordered false lines); simpl.
  - destruct Hfile as [defs' ->]. simpl. apply IH.
  - destruct Hfile as (e & He & ->). simpl. eauto.
Qed.

(** C9: the declaration extractor returns a declaration list when, in
    every file, each REGISTER_SCRIPT_CLASS_FUNCTION and
    REGISTER_SCRIPT_CLASS_CALLBACK macro comes after a class macro with
    no REGISTER_SCRIPT_FUNCTION macro in between; otherwise it raises
    the error of a method call on None. *)
Theorem readScriptDefinitions_raises_iff_macro_without_class files defs :
  (forallb (ordered false) (files.*2) = true →
   ∃ defs', readScriptDefinitions files defs = Ok defs')
  ∧ (forallb (ordered false) (files.*2) = false →
     ∃ attr,
       (attr = "addFunction" ∨ attr = "addCallback")
       ∧ readScriptDefinitions files defs
         = Raise (AttributeError
                    ("'NoneType' object has no attribute '" +:+ attr
                     +:+ "'"))).
Proof.
  unfold readScriptDefinitions.
  pose proof (readScriptDefinitions_files_ordered (files.*2) defs) as H.
  destruct (forallb _ _); split; try done.
  - intros _. destruct H as (e & [->| ->] & ->); eauto.
Qed.

Lemma readScriptDefinitions_raises_witness :
  readScriptDefinitions [("a.cpp", early_function_file)] []
  = Raise (AttributeError "'NoneType' object has no attribute 'addFunction'")
  ∧ ∃ defs', readScriptDefinitions [("a.cpp", own_isValid_file)] []
             = Ok defs'.
Proof.
  split; [reflexivity|].
  apply (proj1 (readScriptDefinitions_raises_iff_macro_without_class
                  [("a.cpp", own_isValid_file)] [])).
  reflexivity.
Defined.

(** ** The pending description *)




(** A documentation comment joins its text to the pending description. *)
Lemma readScriptDefinitions_line_doc st line m :
  Py.startswith line "#" = false → Re.search re_doc line = Some m →
  readScriptDefinitions_line st line
  = Ok (Scan (definitions st) (current_class st)
          ((if negb (String.eqb (description st) "")
            then description st +:+ nl else description st)
           +:+ Re.group m 1)).
Proof.
  intros Hd Hm. unfold readScriptDefinitions_line. by rewrite Hd, Hm.
Qed.




(** ** The subclass whose parent is not declared *)

(** The class that a REGISTER_SCRIPT_SUBCLASS_NO_CREATE macro declares
    is in the declaration list when its line has been read. *)
Lemma readScriptDefinitions_line_SUBCLASS_NO_CREATE st line m st' :
  is_skipped line = false →
  Re.search re_SUBCLASS_NO_CREATE line = Some m →
  readScriptDefinitions_line st line = Ok st' →
  ∃ i c,
    definitions st' !! i = Some (Class c)
    ∧ ScriptClass.name c = Py.strip (Re.group m 1)
    ∧ ScriptClass.parent_name c = Some (Py.strip (Re.group m 2))
    ∧ ScriptClass.create c = false.
Proof.
  intros Hskip Hm. rewrite readScriptDefinitions_line_scanned by done.
  intros (st2 & H2 & (st3 & H3 & [= <-])%bind_Ok)%bind_Ok. simpl.
  unfold class_macros, on_SUBCLASS_NO_CREATE in H2. rewrite Hm in H2.
  set (st0 := on_SUBCLASS line (on_CLASS_NO_CREATE line (on_CLASS line st)))
    in *.
  set (c0 := ScriptClass.set_description _ _) in H2.
  pose proof (tail_macros_extend (λ _, True) _ line _ st2 st3
                (extended_refl _ _) I H2 H3) as Hext.
  destruct (extended_lookup_class _ _ _ (length (definitions st0)) c0 Hext)
    as (c & Hc & Hn & Hp & Hcr & _).
  { simpl. by rewrite lookup_app_r, Nat.sub_diag. }
  exists (length (definitions st0)), c. by rewrite Hn, Hp, Hcr.
Qed.

Lemma readScriptDefinitions_declares_SUBCLASS_NO_CREATE
    before name pre line post after m defs :
  is_skipped line = false →
  Re.search re_SUBCLASS_NO_CREATE line = Some m →
  readScriptDefinitions (before ++ (name, pre ++ line :: post) :: after) []
  = Ok defs →
  ∃ i c,
    defs !! i = Some (Class c)
    ∧ ScriptClass.name c = Py.strip (Re.group m 1)
    ∧ ScriptClass.parent_name c = Some (Py.strip (Re.group m 2))
    ∧ ScriptClass.create c = false.
Proof.
  intros Hskip Hm. unfold readScriptDefinitions.
  rewrite fmap_app, fmap_cons. simpl.
  intros (defsA & _ & (defsF & Hfile & Hafter)%for_each_cons_Ok)
    %for_each_app_Ok.
  unfold readScriptDefinitions_file in Hfile.
  apply bind_Ok in Hfile as (stE & Hlines & [= <-]).
  apply for_each_app_Ok in Hlines as (st & _ & Hlines).
  apply for_each_cons_Ok in Hlines as (st1 & Hline & Hpost).
  destruct (readScriptDefinitions_line_SUBCLASS_NO_CREATE _ _ _ _
              Hskip Hm Hline) as (i & c1 & Hc1 & Hn1 & Hp1 & Hcr1).
  apply readScriptDefinitions_lines_extend in Hpost.
  apply readScriptDefinitions_files_extend in Hafter.
  destruct (extended_lookup_class _ _ _ i c1
              (extended_trans _ _ _ _ Hpost Hafter) Hc1)
    as (c & Hc & Hn & Hp & Hcr & _).
  exists i, c. by rewrite Hn, Hp, Hcr.
Qed.

Lemma linked_function_origin info f :
  ScriptFunction.origin_class (linked_function info f)
  = ScriptFunction.origin_class f.
Proof. unfold linked_function. by destruct (last _). Qed.

(** C4: a class declared by a REGISTER_SCRIPT_SUBCLASS_NO_CREATE macro
    whose parent name is the name of no declared class has, after
    linking, create = false and no parent; the diagnostic for it is
    printed; and none of isValid, destroy, typeName is added to it. *)
Theorem unresolved_parent_of_no_create_subclass
    before name pre line post after m info defs defs' out :
  is_skipped line = false →
  Re.search re_SUBCLASS_NO_CREATE line = Some m →
  readScriptDefinitions (before ++ (name, pre ++ line :: post) :: after) []
  = Ok defs →
  (∀ j P, defs !! j = Some (Class P) →
          ScriptClass.name P ≠ Py.strip (Re.group m 2)) →
  link info defs = Ok (defs', out) →
  ∃ i c',
    defs' !! i = Some (Class c')
    ∧ ScriptClass.name c' = Py.strip (Re.group m 1)
    ∧ ScriptClass.parent_name c' = Some (Py.strip (Re.group m 2))
    ∧ ScriptClass.create c' = false
    ∧ ScriptClass.parent c' = None
    ∧ parent_not_found defs' c' ∈ out
    ∧ (isValid ∉ ScriptClass.functions c')
    ∧ (destroy ∉ ScriptClass.functions c')
    ∧ ScriptClass.members c' = [].
Proof.
  intros Hskip Hm Hread Hnone Hlink.
  destruct (readScriptDefinitions_declares_SUBCLASS_NO_CREATE _ _ _ _ _ _ _ _
              Hskip Hm Hread) as (i & c & Hc & Hn & Hp & Hcr).
  pose proof (readScriptDefinitions_unlinked _ _ Hread) as Hun.
  unfold link in Hlink.
  destruct (linkParents_unresolved (linkFunctions info defs) defs' out i
              (link_class info c) (Py.strip (Re.group m 2)))
    as (c' & Hc' & Hn' & Hp' & Hcr' & Hpar' & Hfs' & Hmb' & Hout).
  - rewrite parents_unlinked_linkFunctions.
    by apply unlinked_parents_unlinked.
  - done.
  - by rewrite linkFunctions_lookup, Hc.
  - done.
  - intros j P. rewrite linkFunctions_lookup.
    destruct (defs !! j) as [[P0|f]|] eqn:Hj; simpl; [|done..].
    intros [= <-]. simpl. by eapply Hnone.
  - exists i, c'. rewrite Hn', Hp', Hcr', Hfs'. simpl.
    split_and!; try done.
    + intros (f & Hf & Hin)%list_elem_of_fmap.
      destruct (unlinked_lookup _ _ _ f Hun Hc Hin) as [_ Ho].
      destruct Ho. rewrite <- (linked_function_origin info f), <- Hf. done.
    + intros (f & Hf & Hin)%list_elem_of_fmap.
      destruct (unlinked_lookup _ _ _ f Hun Hc Hin) as [_ Ho].
      destruct Ho. rewrite <- (linked_function_origin info f), <- Hf. done.
Qed.

Lemma unresolved_parent_of_no_create_subclass_witness :
  ∃ i c',
    readScriptDefinitions [("a.cpp", orphan_file)] []
    = Ok [Class (ScriptClass.set_create false
                   (ScriptClass.set_parent_name (Some "Parent")
                      (ScriptClass.init "Child")))]
    ∧ [Class (ScriptClass.set_create false
                (ScriptClass.set_parent_name (Some "Parent")
                   (ScriptClass.init "Child")))] !! i
      = Some (Class c')
    ∧ ScriptClass.create c' = false
    ∧ ScriptClass.parent c' = None
    ∧ parent_not_found [] c' ∈ ["Parent not found for:  {Child}"]
    ∧ ScriptClass.members c' = [].
Proof.
  destruct (unresolved_parent_of_no_create_subclass
              [] "a.cpp" []
              ("REGISTER_SCRIPT_SUBCLASS_NO_CREATE(Child, Parent)" +:+ nl)
              [] [] ["Child"; " Parent"] []
              [Class (ScriptClass.set_create false
                        (ScriptClass.set_parent_name (Some "Parent")
                           (ScriptClass.init "Child")))]
              [Class (ScriptClass.set_create false
                        (ScriptClass.set_parent_name (Some "Parent")
                           (ScriptClass.init "Child")))]
              ["Parent not found for:  {Child}"])
    as (i & c' & Hc' & _ & _ & Hcr & Hpar & Hout & _ & _ & Hmb);
    [reflexivity|reflexivity|reflexivity| |reflexivity|].
  - intros [|j] P; [|done]. intros [= <-]. done.
  - exists i, c'. split_and!; [reflexivity|done..| |done].
    unfold parent_not_found in *.
    by rewrite (repr_class_root [] [Class (ScriptClass.set_create false
                        (ScriptClass.set_parent_name (Some "Parent")
                           (ScriptClass.init "Child")))] c' c').
Defined.

(** ** The matcher *)

Lemma string_app_nil_r (t : string) : t +:+ "" = t.
Proof.
  induction t as [|c t IH]; [done|].
  change (String c (t +:+ "") = String c t). by rewrite IH.
Qed.

Lemma string_app_assoc (t u v : string) : (t +:+ u) +:+ v = t +:+ u +:+ v.
Proof.
  induction t as [|c t IH]; [done|].
  change (String c ((t +:+ u) +:+ v) = String c (t +:+ u +:+ v)).
  by rewrite IH.
Qed.

Lemma extend_nil cur : extend cur "" = cur.
Proof. destruct cur; simpl; [|done]. by rewrite string_app_nil_r. Qed.

Lemma extend_push c cur u :
  extend (Re.push c cur) u = extend cur (String c u).
Proof. destruct cur; simpl; [|done]. by rewrite string_app_assoc. Qed.

Lemma star_Some {R} a (k : string → nat → option string → option R)
    s pos cur r :
  Re.star a k s pos cur = Some r →
  ∃ u s' pos', k s' pos' (extend cur u) = Some r.
Proof.
  revert pos cur. induction s as [|c s IH]; intros pos cur; simpl.
  - intros Hk. exists "", "", pos. by rewrite extend_nil.
  - destruct (Re.atom_ok a c).
    + destruct (Re.star a k s (S pos) (Re.push c cur)) as [r'|] eqn:Hstar.
      * intros [= <-]. apply IH in Hstar as (u & s' & pos' & Hk).
        exists (String c u), s', pos'. by rewrite <- extend_push.
      * intros Hk. exists "", (String c s), pos. by rewrite extend_nil.
    + intros Hk. exists "", (String c s), pos. by rewrite extend_nil.
Qed.

Lemma match_here_One a r s pos caps cur m :
  Re.match_here (Re.One a :: r) s pos caps cur = Some m →
  ∃ c s', s = String c s' ∧ Re.atom_ok a c = true
          ∧ Re.match_here r s' (S pos) caps (Re.push c cur) = Some m.
Proof.
  simpl. destruct s as [|c s']; [done|].
  destruct (Re.atom_ok a c) eqn:Ha; [|done]. eauto.
Qed.

Lemma match_here_Star a r s pos caps cur m :
  Re.match_here (Re.Star a :: r) s pos caps cur = Some m →
  ∃ u s' pos', Re.match_here r s' pos' caps (extend cur u) = Some m.
Proof. simpl. apply star_Some. Qed.

Lemma match_here_Plus a r s pos caps cur m :
  Re.match_here (Re.Plus a :: r) s pos caps cur = Some m →
  ∃ c u s' pos',
    Re.match_here r s' pos' caps (extend cur (String c u)) = Some m.
Proof.
  simpl. destruct s as [|c s']; [done|].
  destruct (Re.atom_ok a c); [|done].
  intros (u & s'' & pos' & Hk)%star_Some. rewrite extend_push in Hk. eauto.
Qed.

Lemma match_here_Open r s pos caps cur m :
  Re.match_here (Re.Open :: r) s pos caps cur = Some m →
  Re.match_here r s pos caps (Some "") = Some m.
Proof. done. Qed.

Lemma match_here_Close r s pos caps cur m :
  Re.match_here (Re.Close :: r) s pos caps cur = Some m →
  Re.match_here r s pos (caps ++ [default "" cur]) None = Some m.
Proof. done. Qed.

Lemma match_here_Bol r s pos caps cur m :
  Re.match_here (Re.Bol :: r) s pos caps cur = Some m →
  pos = 0 ∧ Re.match_here r s pos caps cur = Some m.
Proof. simpl. destruct pos; [done|]. done. Qed.

Lemma search_from_Some r s pos m :
  Re.search_from r s pos = Some m →
  ∃ s' pos', Re.match_here r s' pos' [] None = Some m.
Proof.
  revert pos. induction s as [|c s IH]; intros pos; simpl.
  - destruct (Re.match_here r "" pos [] None) eqn:Hm; [|done].
    intros [= <-]. eauto.
  - destruct (Re.match_here r (String c s) pos [] None) eqn:Hm.
    + intros [= <-]. eauto.
    + apply IH.
Qed.

Lemma search_from_Bol r s pos :
  Re.search_from (Re.Bol :: r) s (S pos) = None.
Proof. revert pos. induction s as [|c s IH]; intros pos; simpl; [done|]. apply IH. Qed.

(** The method name that the in-class pattern captures is never empty,
    so the test of [readFunctionInfo] on it always passes. *)
Lemma in_class_method_nonempty line m :
  Re.search re_in_class line = Some m → Re.group m 2 ≠ "".
Proof.
  unfold Re.search, re_in_class.
  intros (s & pos & H)%search_from_Some.
  apply match_here_Bol in H as [_ H].
  apply match_here_Star in H as (u0 & s0 & p0 & H).
  apply match_here_Open in H.
  apply match_here_Plus in H as (c1 & u1 & s1 & p1 & H).
  apply match_here_Close in H.
  apply match_here_Plus in H as (c2 & u2 & s2 & p2 & H).
  apply match_here_Open in H.
  apply match_here_Plus in H as (c3 & u3 & s3 & p3 & H).
  apply match_here_Close in H.
  apply match_here_One in H as (c4 & s4 & _ & _ & H).
  apply match_here_Open in H.
  apply match_here_Star in H as (u5 & s5 & p5 & H).
  apply match_here_Close in H.
  apply match_here_One in H as (c6 & s6 & _ & _ & H).
  simpl in H. injection H as <-. intros Hempty. cbv in Hempty. done.
Qed.

Lemma startswith_hash line :
  Py.startswith line "#" = true → ∃ rest, line = String "#" rest.
Proof.
  destruct line as [|c rest]; [done|].
  change (Py.startswith (String c rest) "#") with (Ascii.eqb c "#" && true).
  destruct (Ascii.eqb_spec c "#") as [->|]; simpl; [eauto|done].
Qed.

Lemma class_decl_not_directive line :
  Py.startswith line "#" = true → Re.search re_class_decl line = None.
Proof.
  intros [rest ->]%startswith_hash. unfold Re.search, re_class_decl.
  cbn. apply search_from_Bol.
Qed.

Lemma in_class_not_directive line :
  Py.startswith line "#" = true → Re.search re_in_class line = None.
Proof.
  intros [rest ->]%startswith_hash. unfold Re.search, re_in_class.
  cbn. apply search_from_Bol.
Qed.

(** ** The current class of the signature extractor *)

Lemma class_of_line_directive line :
  Py.startswith line "#" = true → class_of_line line = None.
Proof.
  intros Hd. unfold class_of_line. by rewrite class_decl_not_directive.
Qed.

(** One line either replaces the current class by the one it names or
    leaves it as it is. *)
Lemma readFunctionInfo_line_current st line :
  h_current_class (readFunctionInfo_line st line)
  = or_keep (class_of_line line) (h_current_class st).
Proof.
  unfold readFunctionInfo_line.
  destruct (Py.startswith line "#") eqn:Hd.
  - by rewrite class_of_line_directive.
  - unfold class_of_line. simpl. by destruct (Re.search re_class_decl line).
Qed.

Lemma most_recent_class_snoc lines line :
  most_recent_class (lines ++ [line])
  = or_keep (class_of_line line) (most_recent_class lines).
Proof.
  unfold most_recent_class. rewrite omap_app, last_app. simpl.
  by destruct (class_of_line line).
Qed.

(** The current class after any lines of a header is the class named on
    the last of them that begins with [class Identifier]: no other line
    changes it. *)
Lemma readFunctionInfo_lines_current lines st :
  h_current_class (fold_left readFunctionInfo_line lines st)
  = or_keep (most_recent_class lines) (h_current_class st).
Proof.
  induction lines as [|line lines IH] using rev_ind; [done|].
  rewrite fold_left_app, most_recent_class_snoc. simpl.
  rewrite readFunctionInfo_line_current, IH.
  by destruct (class_of_line line).
Qed.

(** The table only grows. *)
Lemma readFunctionInfo_line_grows st line sig :
  sig ∈ function_info st → sig ∈ function_info (readFunctionInfo_line st line).
Proof.
  intros Hin. unfold readFunctionInfo_line.
  destruct (Py.startswith line "#"); [done|]. simpl.
  assert (sig ∈ match Re.search re_qualified line with
                | Some m => function_info st
                            ++ [(Re.group m 1, Re.group m 2, Re.group m 3)]
                | None => function_info st
                end) as Hin'.
  { destruct (Re.search re_qualified line); [|done].
    apply elem_of_app. by left. }
  destruct (match Re.search re_class_decl line with
            | Some m => Some (Re.group m 1)
            | None => h_current_class st
            end); [|done].
  destruct (Re.search re_in_class line); [|done].
  destruct (negb _); [|done]. apply elem_of_app. by left.
Qed.

Lemma readFunctionInfo_lines_grow lines st sig :
  sig ∈ function_info st →
  sig ∈ function_info (fold_left readFunctionInfo_line lines st).
Proof.
  revert st. induction lines as [|line lines IH]; intros st Hin; [done|].
  simpl. by apply IH, readFunctionInfo_line_grows.
Qed.

Lemma readFunctionInfo_grows files info sig :
  sig ∈ info → sig ∈ readFunctionInfo files info.
Proof.
  unfold readFunctionInfo. revert info.
  induction files as [|[name lines] files IH]; intros info Hin; [done|].
  simpl. apply IH. destruct (negb _); [done|].
  unfold readFunctionInfo_file. by apply readFunctionInfo_lines_grow.
Qed.

(** A line that matches the in-class pattern while a class is current
    adds its signature under that class. *)
Lemma readFunctionInfo_line_in_class st line m cls :
  or_keep (class_of_line line) (h_current_class st) = Some cls →
  Re.search re_in_class line = Some m →
  (cls, Re.group m 2, Re.group m 3)
  ∈ function_info (readFunctionInfo_line st line).
Proof.
  intros Hcls Hm. unfold readFunctionInfo_line.
  destruct (Py.startswith line "#") eqn:Hd.
  { by rewrite in_class_not_directive in Hm. }
  simpl. unfold class_of_line in Hcls.
  assert (String.eqb (Re.group m 2) "" = false) as He.
  { destruct (String.eqb_spec (Re.group m 2) ""); [|done].
    by apply in_class_method_nonempty in Hm. }
  destruct (Re.search re_class_decl line) as [mc|]; simpl in Hcls.
  - injection Hcls as <-. rewrite Hm, He. simpl.
    apply elem_of_app. right. by left.
  - rewrite Hcls, Hm, He. simpl. apply elem_of_app. right. by left.
Qed.

(** C8: in a header, a line that matches the in-class pattern is
    recorded under the class named on the last line so far that begins
    with [class Identifier], whatever the lines in between are; the
    current class of the scan is always that class. *)
Theorem current_class_persists before name pre line post after info cls m :
  Py.endswith name ".h" = true →
  most_recent_class (pre ++ [line]) = Some cls →
  Re.search re_in_class line = Some m →
  (cls, Re.group m 2, Re.group m 3)
  ∈ readFunctionInfo (before ++ (name, pre ++ line :: post) :: after) info
  ∧ ∀ info0 lines,
      h_current_class
        (fold_left readFunctionInfo_line lines (HeaderScan info0 None))
      = most_recent_class lines.
Proof.
  intros Hh Hcls Hm. split.
  - unfold readFunctionInfo. rewrite fold_left_app. simpl. rewrite Hh. simpl.
    apply readFunctionInfo_grows.
    unfold readFunctionInfo_file. rewrite fold_left_app. simpl.
    apply readFunctionInfo_lines_grow, readFunctionInfo_line_in_class;
      [|done].
    rewrite readFunctionInfo_lines_current. simpl.
    rewrite most_recent_class_snoc in Hcls.
    by destruct (class_of_line line), (most_recent_class pre).
  - intros info0 lines. rewrite readFunctionInfo_lines_current. simpl.
    by destruct (most_recent_class lines).
Qed.

Lemma current_class_persists_witness :
  ("Foo", "baz", "") ∈ readFunctionInfo [("a.h", header_file)] [].
Proof.
  apply (current_class_persists [] "a.h"
           (file_of ["class Foo"; "{"; "    int bar(int x);"; "};"])
           ("    void baz();" +:+ nl) [] [] [] "Foo" ["void"; "baz"; ""]);
    reflexivity.
Defined.

(** ** The source-set collector *)

Lemma unvisited_mono (fs : file_system) files files' :
  (∀ p, p ∈ files → p ∈ files') → unvisited fs files' ≤ unvisited fs files.
Proof.
  intros Hsub. unfold unvisited. apply subseteq_size.
  intros p. rewrite !elem_of_filter. intros [Hp ?]. split; [|done].
  intros Hin. by apply Hp, Hsub.
Qed.

Lemma unvisited_add (fs : file_system) files filename lines :
  fs !! filename = Some lines → filename ∉ files →
  unvisited fs (files ++ [filename]) < unvisited fs files.
Proof.
  intros Hfs Hnew. unfold unvisited. apply subset_size. split.
  - intros p. rewrite !elem_of_filter, elem_of_app. intros [Hp ?].
    split; [|done]. intros Hin. apply Hp. by left.
  - intros Hsub.
    assert (filename ∈ filter (λ p, p ∉ files) (dom fs)) as Hin.
    { apply elem_of_filter. split; [done|]. apply elem_of_dom. eauto. }
    apply Hsub, elem_of_filter in Hin as [Hin _].
    apply Hin, elem_of_app. right. by left.
Qed.

Lemma addFile_S fuel fs filename files :
  addFile (S fuel) fs filename files
  = if bool_decide (filename ∈ files) then Some files
    else match fs !! filename with
         | None => Some files
         | Some lines =>
             if is_c_family (Py.lower (Path.splitext_ext filename))
             then for_lines (follow_include fuel fs filename) lines
                    (files ++ [filename])
             else Some (files ++ [filename])
         end.
Proof. done. Qed.

Lemma visits_refl files : NoDup files → visits files files.
Proof. intros Hnd. split; [done|]. exists []. by rewrite app_nil_r. Qed.

Lemma visits_trans a b c : visits a b → visits b c → visits a c.
Proof.
  intros [_ [x ->]] [Hnd [y ->]]. split; [done|]. exists (x ++ y).
  by rewrite app_assoc.
Qed.

Lemma visits_unvisited (fs : file_system) a b : visits a b → unvisited fs b ≤ unvisited fs a.
Proof.
  intros [_ [x ->]]. apply unvisited_mono. intros p Hp.
  apply elem_of_app. by left.
Qed.

Lemma for_lines_total {S} (R : S → S → Prop) (I : S → Prop)
    (body : S → string → option S) lines s :
  (∀ s, I s → R s s) → (∀ s1 s2 s3, R s1 s2 → R s2 s3 → R s1 s3) →
  (∀ s1 s2, I s1 → R s1 s2 → I s2) →
  (∀ s line, I s → ∃ s', body s line = Some s' ∧ R s s') →
  I s → ∃ s', for_lines body lines s = Some s' ∧ R s s'.
Proof.
  intros Hrefl Htrans HI Hbody. revert s.
  induction lines as [|line lines IH]; intros s Hs; simpl; [by eauto|].
  destruct (Hbody s line Hs) as (s1 & -> & Hs1). simpl.
  destruct (IH s1) as (s' & -> & Hs'); [by eauto|]. eauto.
Qed.

(** With more fuel than there are unvisited files, [addFile] returns. *)
Lemma addFile_total fuel fs filename files :
  NoDup files → unvisited fs files < fuel →
  ∃ files', addFile fuel fs filename files = Some files'
            ∧ visits files files'.
Proof.
  revert filename files.
  induction fuel as [|fuel IH]; intros filename files Hnd Hfuel; [lia|].
  rewrite addFile_S. case_bool_decide as Hin.
  { eauto using visits_refl. }
  destruct (fs !! filename) as [lines|] eqn:Hfs;
    [|by eauto using visits_refl].
  assert (visits files (files ++ [filename])) as Hadd.
  { split; [|by eauto]. apply NoDup_app. split_and!; [done| |].
    - intros p Hp ->%list_elem_of_singleton. done.
    - apply NoDup_singleton. }
  pose proof (unvisited_add fs files filename lines Hfs Hin) as Hless.
  destruct (is_c_family _); [|by eauto].
  destruct (for_lines_total visits
              (λ fl, NoDup fl ∧ unvisited fs fl < fuel)
              (follow_include fuel fs filename) lines (files ++ [filename]))
    as (files' & Hloop & Hvis).
  - intros fl [??]. by apply visits_refl.
  - apply visits_trans.
  - intros fl1 fl2 [_ Hlt] Hv. split; [by destruct Hv|].
    apply (visits_unvisited fs) in Hv. lia.
  - intros fl line [Hnd1 Hlt1]. unfold follow_include.
    destruct (Re.match_ re_include line) as [m|];
      [|by eauto using visits_refl].
    destruct (IH (Re.group m 1) fl) as (fl2 & -> & Hv2); [done..|]. simpl.
    destruct (IH (Path.join (Path.dirname filename) (Re.group m 1)) fl2)
      as (fl3 & -> & Hv3).
    + by destruct Hv2.
    + apply (visits_unvisited fs) in Hv2. lia.
    + eauto using visits_trans.
  - split; [by destruct Hadd|lia].
  - exists files'. split; [done|]. by eapply visits_trans.
Qed.

Lemma for_lines_ext {S} (body body' : S → string → option S) lines s s' :
  (∀ s line s', body s line = Some s' → body' s line = Some s') →
  for_lines body lines s = Some s' → for_lines body' lines s = Some s'.
Proof.
  intros Hbody. revert s. induction lines as [|line lines IH]; intros s;
    simpl; [done|].
  destruct (body s line) as [s1|] eqn:Hb; [|done]. simpl.
  rewrite (Hbody _ _ _ Hb). simpl. apply IH.
Qed.

(** More fuel does not change what [addFile] returns. *)
Lemma addFile_fuel_mono fuel fuel' fs filename files files' :
  fuel ≤ fuel' → addFile fuel fs filename files = Some files' →
  addFile fuel' fs filename files = Some files'.
Proof.
  revert fuel' filename files files'.
  induction fuel as [|fuel IH]; intros fuel' filename files files' Hle;
    [done|].
  destruct fuel' as [|fuel']; [lia|]. rewrite !addFile_S.
  case_bool_decide; [done|]. destruct (fs !! filename); [|done].
  destruct (is_c_family _); [|done]. apply for_lines_ext.
  intros fl line fl'. unfold follow_include.
  destruct (Re.match_ re_include line) as [m|]; [|done].
  destruct (addFile fuel fs (Re.group m 1) fl) as [fl1|] eqn:H1; [|done].
  simpl. rewrite (IH fuel' _ _ _ ltac:(lia) H1). simpl.
  apply IH. lia.
Qed.



Example addFile_cycle :
  addFile 3 cyclic_fs "a.h" [] = Some ["a.h"; "b.h"].
Proof. reflexivity. Qed.


(** * Further properties *)

(** ** The declaration extractor inside one file *)

Lemma scan_invariant_start defs : scan_invariant defs defs None.
Proof.
  split_and!.
  - by rewrite take_ge.
  - done.
  - intros i f Hi Hf%lookup_lt_Some. lia.
Qed.

Lemma scan_invariant_declare defs0 c st :
  scan_invariant defs0 (definitions st) (current_class st) →
  scan_invariant defs0 (definitions (declare_class c st))
    (current_class (declare_class c st)).
Proof.
  intros (Htake & Hcur & Hfun). simpl.
  assert (length defs0 ≤ length (definitions st)) as Hlen.
  { rewrite <- Htake at 1. rewrite length_take. lia. }
  split_and!.
  - by rewrite take_app_le.
  - intros i [= <-]. rewrite length_app. simpl. split_and!; [lia|done|].
    exists c. by rewrite lookup_app_r, Nat.sub_diag.
  - intros i f Hi Hf.
    destruct (decide (i < length (definitions st))) as [Hlt|Hge].
    + rewrite lookup_app_l in Hf by done. eauto.
    + rewrite lookup_app_r in Hf by lia.
      destruct (i - length (definitions st)); simplify_eq/=.
Qed.

Lemma scan_invariant_method defs0 attr g st st' :
  scan_invariant defs0 (definitions st) (current_class st) →
  with_current_class attr g st = Ok st' →
  scan_invariant defs0 (definitions st') (current_class st').
Proof.
  intros (Htake & Hcur & Hfun) (i & Hi & ->)%with_current_class_Ok. simpl.
  destruct (Hcur i Hi) as (Hlast & Hnew & c & Hc).
  split_and!.
  - by rewrite take_alter_ge.
  - intros ? [= <-]. rewrite length_alter. split_and!; [done..|].
    exists (g c). by rewrite list_lookup_alter_eq, Hc.
  - intros k f Hk Hf. destruct (decide (k = i)) as [->|Hne].
    + rewrite list_lookup_alter_eq, Hc in Hf. done.
    + rewrite list_lookup_alter_ne in Hf by done. eauto.
Qed.

Lemma scan_invariant_function defs0 line st :
  scan_invariant defs0 (definitions st) (current_class st) →
  scan_invariant defs0 (definitions (on_FUNCTION line st))
    (current_class (on_FUNCTION line st)).
Proof.
  intros (Htake & Hcur & Hfun). unfold on_FUNCTION.
  destruct (Re.search _ _) as [m|]; [|done]. simpl.
  assert (length defs0 ≤ length (definitions st)) as Hlen.
  { rewrite <- Htake at 1. rewrite length_take. lia. }
  split_and!.
  - by rewrite take_app_le.
  - done.
  - intros i f Hi Hf.
    destruct (decide (i < length (definitions st))) as [Hlt|Hge].
    + rewrite lookup_app_l in Hf by done. eauto.
    + rewrite lookup_app_r in Hf by lia.
      destruct (i - length (definitions st)); by simplify_eq/=.
Qed.

Lemma scan_invariant_class_macros defs0 line st :
  scan_invariant defs0 (definitions st) (current_class st) →
  scan_invariant defs0 (definitions (class_macros line st))
    (current_class (class_macros line st)).
Proof.
  intros H. unfold class_macros.
  assert (∀ st1 st2,
            scan_invariant defs0 (definitions st1) (current_class st1) →
            (st2 = st1 ∨ ∃ c, st2 = declare_class c st1) →
            scan_invariant defs0 (definitions st2) (current_class st2))
    as Hstep.
  { intros st1 st2 H1 [->|[c ->]]; [done|].
    by apply scan_invariant_declare. }
  apply (Hstep (on_SUBCLASS line (on_CLASS_NO_CREATE line (on_CLASS line st)))).
  apply (Hstep (on_CLASS_NO_CREATE line (on_CLASS line st))).
  apply (Hstep (on_CLASS line st)).
  apply (Hstep st); [done|].
  - unfold on_CLASS. destruct (Re.search _ _); eauto.
  - unfold on_CLASS_NO_CREATE. destruct (Re.search _ _); eauto.
  - unfold on_SUBCLASS. destruct (Re.search _ _); eauto.
  - unfold on_SUBCLASS_NO_CREATE. destruct (Re.search _ _); eauto.
Qed.

Lemma scan_invariant_line defs0 st line st' :
  scan_invariant defs0 (definitions st) (current_class st) →
  readScriptDefinitions_line st line = Ok st' →
  scan_invariant defs0 (definitions st') (current_class st').
Proof.
  intros H. destruct (is_skipped line) eqn:Hskip.
  - destruct (readScriptDefinitions_line_skipped st line Hskip) as [d ->].
    by intros [= <-].
  - rewrite readScriptDefinitions_line_scanned by done.
    intros (st2 & H2 & (st3 & H3 & [= <-])%bind_Ok)%bind_Ok. simpl.
    apply scan_invariant_function.
    unfold on_CLASS_FUNCTION, on_CLASS_CALLBACK in *.
    apply scan_invariant_class_macros with (line := line) in H.
    destruct (Re.search re_CLASS_FUNCTION line).
    + eapply scan_invariant_method in H2; [|done].
      destruct (Re.search re_CLASS_CALLBACK line).
      * by eapply scan_invariant_method in H3.
      * by simplify_eq.
    + simplify_eq. destruct (Re.search re_CLASS_CALLBACK line).
      * by eapply scan_invariant_method in H3.
      * by simplify_eq.
Qed.

Lemma scan_invariant_lines defs0 lines st st' :
  scan_invariant defs0 (definitions st) (current_class st) →
  for_each readScriptDefinitions_line lines st = Ok st' →
  scan_invariant defs0 (definitions st') (current_class st').
Proof.
  revert st. induction lines as [|line lines IH]; intros st H.
  - by intros [= <-].
  - intros (st1 & H1 & Hrest)%for_each_cons_Ok.
    apply (IH st1); [|done]. by eapply scan_invariant_line.
Qed.

Lemma readScriptDefinitions_file_invariant defs lines defs' :
  readScriptDefinitions_file defs lines = Ok defs' →
  ∃ cur, scan_invariant defs defs' cur.
Proof.
  unfold readScriptDefinitions_file.
  intros (st & Hst & [= <-])%bind_Ok. exists (current_class st).
  eapply scan_invariant_lines; [|done]. apply scan_invariant_start.
Qed.

(** X1: While a file is read, the current class is the last entity of
    the declaration list, and it is a class that this file declared: a
    per-class macro adds to the class declared last, and to no class of
    a file read before. *)
Theorem current_class_is_last_declared defs lines st i :
  for_each readScriptDefinitions_line lines (Scan defs None "") = Ok st →
  current_class st = Some i →
  S i = length (definitions st) ∧ length defs ≤ i
  ∧ ∃ c, definitions st !! i = Some (Class c).
Proof.
  intros Hrun Hi.
  destruct (scan_invariant_lines defs lines (Scan defs None "") st
              (scan_invariant_start defs) Hrun) as (_ & Hcur & _).
  by apply Hcur.
Qed.

Lemma current_class_is_last_declared_witness :
  ∃ c, [Function (ScriptFunction.init "f");
        Class (ScriptClass.init "Foo");
        Class (ScriptClass.set_parent_name (Some "Foo")
                 (ScriptClass.init "Kid"))] !! 2 = Some (Class c).
Proof.
  destruct (current_class_is_last_declared
              [Function (ScriptFunction.init "f")] family_file
              (Scan [Function (ScriptFunction.init "f");
                     Class (ScriptClass.init "Foo");
                     Class (ScriptClass.set_parent_name (Some "Foo")
                              (ScriptClass.init "Kid"))] (Some 2) "")
              2)
    as (_ & _ & Hc); [vm_compute; reflexivity|reflexivity|exact Hc].
Defined.

(** X2: The declaration extractor only appends: the list it returns
    starts with the list it was given, entity for entity, so a file adds
    nothing to the classes of the files read before it. *)
Theorem readScriptDefinitions_appends files defs defs' :
  readScriptDefinitions files defs = Ok defs' → defs `prefix_of` defs'.
Proof.
  unfold readScriptDefinitions.
  apply (for_each_preserves _ (λ a b : list definition, a `prefix_of` b)).
  - done.
  - intros a b c Hab Hbc. by etrans.
  - intros a lines b [cur (Htake & _)]%readScriptDefinitions_file_invariant.
    rewrite <- Htake. apply prefix_take.
Qed.

Lemma readScriptDefinitions_appends_witness :
  [Class (ScriptClass.init "Foo")]
  `prefix_of` [Class (ScriptClass.init "Foo");
               Class (ScriptClass.addFunction
                        (ScriptFunction.mk "bar" "" (Some "Foo") None)
                        (ScriptClass.init "Bar"))].
Proof.
  apply (readScriptDefinitions_appends
           [("b.cpp", file_of ["REGISTER_SCRIPT_CLASS(Bar)";
                               "REGISTER_SCRIPT_CLASS_FUNCTION(Foo, bar)"])]
           [Class (ScriptClass.init "Foo")]).
  vm_compute. reflexivity.
Defined.

Lemma readScriptDefinitions_bare files :
  ∀ defs defs', for_each readScriptDefinitions_file files defs = Ok defs' →
  (∀ i f, defs !! i = Some (Function f) → bare_function f) →
  ∀ i f, defs' !! i = Some (Function f) → bare_function f.
Proof.
  induction files as [|lines files IH]; intros defs defs'.
  - by intros [= <-].
  - intros (defs1 & H1 & Hrest)%for_each_cons_Ok Hdefs.
    apply (IH defs1 defs' Hrest).
    destruct (readScriptDefinitions_file_invariant _ _ _ H1)
      as (cur & Htake & _ & Hfun).
    intros i f Hf. destruct (decide (i < length defs)) as [Hlt|Hge].
    + apply (Hdefs i). rewrite <- Htake. by rewrite lookup_take_lt.
    + apply (Hfun i); [lia|done].
Qed.

(** X3: What the extractor returns, started on the empty list, is
    untouched by any linking: no class has a parent object, a child or a
    member; every function of a class has an origin class and no
    parameters; a free function has neither. *)
Theorem readScriptDefinitions_result_is_unlinked files defs i d :
  readScriptDefinitions files [] = Ok defs →
  defs !! i = Some d →
  match d with
  | Class c =>
      ScriptClass.parent c = None ∧ ScriptClass.children c = []
      ∧ ScriptClass.members c = []
      ∧ ∀ f, f ∈ ScriptClass.functions c →
             ScriptFunction.parameters f = None
             ∧ is_Some (ScriptFunction.origin_class f)
  | Function f =>
      ScriptFunction.origin_class f = None
      ∧ ScriptFunction.parameters f = None
  end.
Proof.
  intros Hrun Hd. destruct d as [c|f].
  - pose proof (readScriptDefinitions_unlinked _ _ Hrun) as Hun.
    destruct (parents_unlinked_lookup defs i c) as (Hp & Hc & Hm);
      [by apply unlinked_parents_unlinked|done|].
    split_and!; [done..|]. intros f Hf.
    destruct (unlinked_lookup defs i c f Hun Hd Hf) as [Hpar Hor].
    split; [done|]. by destruct (ScriptFunction.origin_class f).
  - eapply (readScriptDefinitions_bare (files.*2) [] defs Hrun); [|done].
    intros k g Hk. by rewrite lookup_nil in Hk.
Qed.

Lemma readScriptDefinitions_result_is_unlinked_witness :
  ScriptFunction.origin_class (ScriptFunction.init "Foo") = None
  ∧ ScriptFunction.parameters (ScriptFunction.init "Foo") = None.
Proof.
  apply (readScriptDefinitions_result_is_unlinked
           [("a.cpp", function_as_parent_file)]
           [Function (ScriptFunction.init "Foo");
            Class (ScriptClass.set_parent_name (Some "Foo")
                     (ScriptClass.init "Kid"))]
           0 (Function (ScriptFunction.init "Foo")));
    [vm_compute; reflexivity|reflexivity].
Defined.

(** ** Documentation blocks *)

Lemma concat_nl_app a b ts :
  String.concat nl ((a +:+ b) :: ts) = a +:+ String.concat nl (b :: ts).
Proof.
  destruct ts as [|t ts]; [done|].
  change (((a +:+ b) +:+ nl +:+ String.concat nl (t :: ts))
          = a +:+ b +:+ nl +:+ String.concat nl (t :: ts)).
  by rewrite string_app_assoc.
Qed.

Lemma string_app_nonempty (a b : string) : a ≠ "" → a +:+ b ≠ "".
Proof. by destruct a. Qed.

Lemma append_doc_nonempty d t : d ≠ "" → append_doc d t = d +:+ nl +:+ t.
Proof.
  intros Hd. unfold append_doc. destruct (String.eqb_spec d ""); [done|].
  simpl. by rewrite string_app_assoc.
Qed.

Lemma fold_append_doc_nonempty texts d :
  d ≠ "" → fold_left append_doc texts d = String.concat nl (d :: texts).
Proof.
  revert d. induction texts as [|t texts IH]; intros d Hd; [done|].
  simpl fold_left. rewrite append_doc_nonempty by done.
  rewrite IH by by apply string_app_nonempty.
  by rewrite concat_nl_app, concat_nl_app.
Qed.

Lemma fold_append_doc_empty texts :
  fold_left append_doc texts ""
  = String.concat nl (drop_leading_empty texts).
Proof.
  induction texts as [|t texts IH]; [done|].
  simpl. change (append_doc "" t) with t.
  destruct (String.eqb_spec t "") as [->|Hne]; [done|].
  by apply fold_append_doc_nonempty.
Qed.

Lemma readScriptDefinitions_line_doc_text defs cur d line :
  is_skipped line = true →
  readScriptDefinitions_line (Scan defs cur d) line
  = Ok (Scan defs cur (match doc_text line with
                       | Some t => append_doc d t
                       | None => d
                       end)).
Proof.
  intros [Hd|[Hd [m Hm]]]%is_skipped_true;
    unfold readScriptDefinitions_line, doc_text; rewrite Hd; [done|].
  by rewrite Hm.
Qed.

Lemma readScriptDefinitions_doc_lines defs cur lines d :
  Forall (λ line, is_skipped line = true) lines →
  for_each readScriptDefinitions_line lines (Scan defs cur d)
  = Ok (Scan defs cur (fold_left append_doc (omap doc_text lines) d)).
Proof.
  intros Hall. revert d.
  induction Hall as [|line lines Hline _ IH]; intros d; [done|].
  simpl for_each. rewrite readScriptDefinitions_line_doc_text by done.
  simpl. rewrite IH. by destruct (doc_text line).
Qed.

(** X4: A block of documentation comments, directive lines among them
    or not, leaves as the pending description the texts of its comments
    joined by newlines, without the empty texts at its start: an empty
    comment line opens no paragraph before the first text, but it does
    between two texts. *)
Theorem documentation_block_description defs cur lines :
  Forall (λ line, is_skipped line = true) lines →
  for_each readScriptDefinitions_line lines (Scan defs cur "")
  = Ok (Scan defs cur
          (String.concat nl (drop_leading_empty (omap doc_text lines)))).
Proof.
  intros Hall. rewrite readScriptDefinitions_doc_lines by done.
  by rewrite fold_append_doc_empty.
Qed.

Lemma documentation_block_description_witness :
  for_each readScriptDefinitions_line
    (file_of ["///"; "/// a"; "#if X"; "///"; "/// b"]) (Scan [] None "")
  = Ok (Scan [] None (" a" +:+ nl +:+ nl +:+ " b")).
Proof.
  apply (documentation_block_description [] None
           (file_of ["///"; "/// a"; "#if X"; "///"; "/// b"])).
  repeat constructor.
Defined.

(** ** The order of the declaration list *)

Ltac class_macro_names :=
  unfold name_if_found;
  match goal with
  | |- context [Re.search ?r ?line] => destruct (Re.search r line)
  end;
  [simpl; by rewrite fmap_app|by rewrite app_nil_r].

Lemma on_CLASS_names line st :
  def_name <$> definitions (on_CLASS line st)
  = (def_name <$> definitions st) ++ name_if_found re_CLASS line.
Proof. unfold on_CLASS. class_macro_names. Qed.

Lemma on_CLASS_NO_CREATE_names line st :
  def_name <$> definitions (on_CLASS_NO_CREATE line st)
  = (def_name <$> definitions st) ++ name_if_found re_CLASS_NO_CREATE line.
Proof. unfold on_CLASS_NO_CREATE. class_macro_names. Qed.

Lemma on_SUBCLASS_names line st :
  def_name <$> definitions (on_SUBCLASS line st)
  = (def_name <$> definitions st) ++ name_if_found re_SUBCLASS line.
Proof. unfold on_SUBCLASS. class_macro_names. Qed.

Lemma on_SUBCLASS_NO_CREATE_names line st :
  def_name <$> definitions (on_SUBCLASS_NO_CREATE line st)
  = (def_name <$> definitions st)
    ++ name_if_found re_SUBCLASS_NO_CREATE line.
Proof. unfold on_SUBCLASS_NO_CREATE. class_macro_names. Qed.

Lemma on_FUNCTION_names line st :
  def_name <$> definitions (on_FUNCTION line st)
  = (def_name <$> definitions st) ++ name_if_found re_FUNCTION line.
Proof. unfold on_FUNCTION. class_macro_names. Qed.

Lemma class_macros_names line st :
  def_name <$> definitions (class_macros line st)
  = (def_name <$> definitions st)
    ++ name_if_found re_CLASS line ++ name_if_found re_CLASS_NO_CREATE line
    ++ name_if_found re_SUBCLASS line
    ++ name_if_found re_SUBCLASS_NO_CREATE line.
Proof.
  unfold class_macros.
  rewrite on_SUBCLASS_NO_CREATE_names, on_SUBCLASS_names,
    on_CLASS_NO_CREATE_names, on_CLASS_names.
  by rewrite <- !app_assoc.
Qed.

(** A method call on the current class changes no name. *)
Lemma with_current_class_names attr g st st' :
  (∀ c, ScriptClass.name (g c) = ScriptClass.name c) →
  with_current_class attr g st = Ok st' →
  def_name <$> definitions st' = def_name <$> definitions st.
Proof.
  intros Hg (i & _ & ->)%with_current_class_Ok. simpl.
  rewrite (list_fmap_alter def_name (on_class g) id).
  - by apply list_alter_id.
  - apply Forall_forall. intros d _. by apply def_name_on_class.
Qed.

Lemma on_CLASS_FUNCTION_names line st st' :
  on_CLASS_FUNCTION line st = Ok st' →
  def_name <$> definitions st' = def_name <$> definitions st.
Proof.
  unfold on_CLASS_FUNCTION. destruct (Re.search _ _); [|by intros [= <-]].
  by apply with_current_class_names.
Qed.

Lemma on_CLASS_CALLBACK_names line st st' :
  on_CLASS_CALLBACK line st = Ok st' →
  def_name <$> definitions st' = def_name <$> definitions st.
Proof.
  unfold on_CLASS_CALLBACK. destruct (Re.search _ _); [|by intros [= <-]].
  by apply with_current_class_names.
Qed.

Lemma readScriptDefinitions_line_names st line st' :
  readScriptDefinitions_line st line = Ok st' →
  def_name <$> definitions st'
  = (def_name <$> definitions st) ++ declared_names line.
Proof.
  unfold declared_names. destruct (is_skipped line) eqn:Hskip.
  - destruct (readScriptDefinitions_line_skipped st line Hskip) as [d ->].
    intros [= <-]. by rewrite app_nil_r.
  - rewrite readScriptDefinitions_line_scanned by done.
    intros (st2 & H2 & (st3 & H3 & [= <-])%bind_Ok)%bind_Ok. simpl.
    rewrite on_FUNCTION_names, (on_CLASS_CALLBACK_names _ _ _ H3),
      (on_CLASS_FUNCTION_names _ _ _ H2), class_macros_names.
    by rewrite <- !app_assoc.
Qed.

Lemma readScriptDefinitions_lines_names lines st st' :
  for_each readScriptDefinitions_line lines st = Ok st' →
  def_name <$> definitions st'
  = (def_name <$> definitions st) ++ concat (declared_names <$> lines).
Proof.
  revert st. induction lines as [|line lines IH]; intros st.
  - intros [= <-]. by rewrite app_nil_r.
  - intros (st1 & H1 & Hrest)%for_each_cons_Ok.
    rewrite (IH _ Hrest), (readScriptDefinitions_line_names _ _ _ H1).
    simpl. by rewrite <- app_assoc.
Qed.

(** X5: The entities are in the declaration list in the order of the
    files and, in a file, of the lines that declare them; the entities
    of one line are in the order of the five macro kinds (class,
    no-create class, subclass, no-create subclass, free function),
    whatever their order on the line.  Nothing else enters the list. *)
Theorem readScriptDefinitions_declaration_order files defs defs' :
  readScriptDefinitions files defs = Ok defs' →
  def_name <$> defs'
  = (def_name <$> defs) ++ concat (declared_names <$> concat (files.*2)).
Proof.
  unfold readScriptDefinitions. generalize (files.*2). clear files.
  intros files. revert defs.
  induction files as [|lines files IH]; intros defs.
  - intros [= <-]. by rewrite app_nil_r.
  - intros (defs1 & H1 & Hrest)%for_each_cons_Ok.
    rewrite (IH _ Hrest). simpl. rewrite fmap_app, concat_app, app_assoc.
    f_equal. unfold readScriptDefinitions_file in H1.
    apply bind_Ok in H1 as (st & Hst & [= <-]).
    by rewrite (readScriptDefinitions_lines_names _ _ _ Hst).
Qed.

Lemma readScriptDefinitions_declaration_order_witness :
  def_name <$> [Function (ScriptFunction.init "f");
                Class (ScriptClass.init "A");
                Class (ScriptClass.set_parent_name (Some "A")
                         (ScriptClass.init "B"))]
  = ["f"] ++ ["A"; "B"].
Proof.
  apply (readScriptDefinitions_declaration_order
           [("a.cpp",
             file_of ["REGISTER_SCRIPT_SUBCLASS(B, A) REGISTER_SCRIPT_CLASS(A)"])]
           [Function (ScriptFunction.init "f")]).
  vm_compute. reflexivity.
Defined.

(** ** The signature table *)

Lemma readFunctionInfo_line_rows st line :
  function_info (readFunctionInfo_line st line)
  = function_info st
    ++ (if Py.startswith line "#" then []
        else qualified_rows line
             ++ in_class_rows
                  (or_keep (class_of_line line) (h_current_class st)) line).
Proof.
  unfold readFunctionInfo_line, qualified_rows, in_class_rows, class_of_line.
  destruct (Py.startswith line "#"); [by rewrite app_nil_r|]. simpl.
  assert (∀ info : list signature,
            match or_keep (m ← Re.search re_class_decl line;
                           Some (Re.group m 1)) (h_current_class st) with
            | Some cls =>
                match Re.search re_in_class line with
                | Some m =>
                    if negb (String.eqb (Re.group m 2) "")
                    then info ++ [(cls, Re.group m 2, Re.group m 3)]
                    else info
                | None => info
                end
            | None => info
            end
            = info
              ++ match or_keep (m ← Re.search re_class_decl line;
                                Some (Re.group m 1)) (h_current_class st),
                       Re.search re_in_class line with
                 | Some c, Some m => [(c, Re.group m 2, Re.group m 3)]
                 | _, _ => []
                 end) as Hin.
  { intros info. destruct (or_keep _ _) as [cls|]; [|by rewrite app_nil_r].
    destruct (Re.search re_in_class line) as [m|] eqn:Hm;
      [|by rewrite app_nil_r].
    destruct (String.eqb_spec (Re.group m 2) "") as [He|]; [|done].
    by apply in_class_method_nonempty in Hm. }
  destruct (Re.search re_class_decl line) as [mc|]; simpl in *;
    destruct (Re.search re_qualified line) as [mq|]; simpl;
    rewrite Hin; by rewrite <- ?app_assoc.
Qed.

Lemma readFunctionInfo_lines_rows lines info :
  function_info (fold_left readFunctionInfo_line lines (HeaderScan info None))
  = info ++ rows_of_file lines.
Proof.
  unfold rows_of_file.
  induction lines as [|line lines IH] using rev_ind.
  - by rewrite app_nil_r.
  - rewrite fold_left_app. simpl. rewrite readFunctionInfo_line_rows, IH.
    rewrite readFunctionInfo_lines_current. simpl.
    rewrite imap_app, concat_app, app_assoc. simpl.
    rewrite app_nil_r, Nat.add_0_r, take_app_length.
    f_equal.
    + f_equal. f_equal. apply imap_ext. intros k l Hk. simpl.
      rewrite take_app_le; [done|]. apply lookup_lt_Some in Hk. lia.
    + unfold rows_of_line. rewrite most_recent_class_snoc.
      by destruct (most_recent_class lines).
Qed.

Lemma readFunctionInfo_rows files info :
  readFunctionInfo files info = info ++ rows_of_files files.
Proof.
  unfold readFunctionInfo, rows_of_files. revert info.
  induction files as [|[name lines] files IH]; intros info; simpl.
  - by rewrite app_nil_r.
  - rewrite IH. destruct (Py.endswith name ".h"); simpl; [|done].
    unfold readFunctionInfo_file.
    by rewrite readFunctionInfo_lines_rows, <- app_assoc.
Qed.

(** X6: The signature table in closed form: the rows of the headers,
    file after file and line after line, where a line that is no
    directive gives the row of its qualified definition, if it has one,
    and then the row of its in-class declaration, if it has one, under
    the class named on the last line so far, this one included, that
    begins with a class declaration.  A file whose name does not end in
    [.h] and a directive line give no row, and no row is ever dropped. *)
Theorem readFunctionInfo_closed_form files info :
  readFunctionInfo files info = info ++ rows_of_files files.
Proof. apply readFunctionInfo_rows. Qed.

(** ** The linker: what it keeps *)

Lemma same_declaration_linked info fs :
  Forall2 same_declaration fs (linked_function info <$> fs).
Proof.
  apply Forall2_fmap_r, Forall_Forall2_diag, Forall_forall. intros f _.
  unfold compose, same_declaration, linked_function.
  by destruct (last (filter (λ sig, matches f sig = true) info)).
Qed.

(** X7: Linking only adds.  The two passes keep the number and the
    order of the entities; a free function is left as it is; a class
    keeps its name, parent name, description, create flag and
    callbacks, its registered functions keep their name, description
    and origin class, and its functions, members and children are only
    added to at the end. *)
Theorem link_keeps_declarations info defs defs' out i :
  link info defs = Ok (defs', out) →
  length defs' = length defs
  ∧ match defs !! i with
    | Some (Function f) => defs' !! i = Some (Function f)
    | Some (Class c) =>
        ∃ c' fs added more kids,
          defs' !! i = Some (Class c')
          ∧ ScriptClass.name c' = ScriptClass.name c
          ∧ ScriptClass.parent_name c' = ScriptClass.parent_name c
          ∧ ScriptClass.description c' = ScriptClass.description c
          ∧ ScriptClass.create c' = ScriptClass.create c
          ∧ ScriptClass.callbacks c' = ScriptClass.callbacks c
          ∧ ScriptClass.functions c' = fs ++ added
          ∧ Forall2 same_declaration (ScriptClass.functions c) fs
          ∧ ScriptClass.members c' = ScriptClass.members c ++ more
          ∧ ScriptClass.children c' = ScriptClass.children c ++ kids
    | None => defs' !! i = None
    end.
Proof.
  unfold link. intros (_ & -> & _)%linkParents_Ok.
  assert (length (linkFunctions info defs) = length defs) as Hlen.
  { rewrite linkFunctions_closed_form. apply length_map. }
  split; [by rewrite length_linked|].
  pose proof (linkFunctions_lookup info defs i) as Hi.
  destruct (defs !! i) as [[c|f]|] eqn:Hd; simpl in Hi.
  - rewrite (linked_lookup _ _ _ Hi).
    eexists _, _, _, _, _. split; [done|]. simpl.
    split_and!; try done. apply same_declaration_linked.
  - by apply linked_lookup_function.
  - unfold linked. by rewrite list_lookup_imap, Hi.
Qed.

Lemma link_keeps_declarations_witness :
  length [Class (relink None [] [isValid; destroy] [typeName]
                   (link_class overloads_info
                      (ScriptClass.addFunction bar_of_Foo
                         (ScriptClass.init "Foo"))))]
  = length overloads_defs.
Proof.
  apply (link_keeps_declarations overloads_info overloads_defs
           [Class (relink None [] [isValid; destroy] [typeName]
                     (link_class overloads_info
                        (ScriptClass.addFunction bar_of_Foo
                           (ScriptClass.init "Foo"))))]
           [] 0).
  vm_compute. reflexivity.
Defined.

(** ** The linker: parents and children *)

Lemma increasing_cons x l :
  (∀ y, y ∈ l → x < y) → increasing l → increasing (x :: l).
Proof.
  intros Hx Hl [|a] [|b] u v Hab Hu Hv; simplify_eq/=; try lia.
  - apply Hx. by eapply list_elem_of_lookup_2.
  - apply (Hl a b); [lia|done..].
Qed.

Lemma positions_increasing {A} (P : A → bool) l s :
  increasing (positions P l s).
Proof.
  revert s. induction l as [|x l IH]; intros s; simpl.
  - intros a b u v _ Hu. by rewrite lookup_nil in Hu.
  - destruct (P x); simpl; [|apply IH]. apply increasing_cons; [|apply IH].
    intros i Hi%positions_lower. lia.
Qed.

(** The last element of an increasing list is its greatest. *)
Lemma increasing_last l x y :
  increasing l → last l = Some x → y ∈ l → y ≤ x.
Proof.
  intros Hl [l' ->]%last_Some [a Ha]%list_elem_of_lookup.
  destruct (decide (a < length l')) as [Hlt|Hge].
  - assert (y < x); [|lia]. apply (Hl a (length l')); [done..|].
    by rewrite lookup_app_r, Nat.sub_diag.
  - rewrite lookup_app_r in Ha by lia.
    destruct (a - length l'); simplify_eq/=. lia.
Qed.

(** The entity that [resolve] finds is the last one of that name. *)
Lemma resolve_last p defs j :
  resolve p defs = Some j
  ↔ (∃ d, defs !! j = Some d ∧ def_name d = p)
    ∧ ∀ j' d', j < j' → defs !! j' = Some d' → def_name d' ≠ p.
Proof.
  assert (∀ k d, defs !! k = Some d → def_name d = p →
                 k ∈ positions (is_named p) defs 0) as Hin.
  { intros k d Hk Hn. apply elem_of_positions. exists d.
    rewrite Nat.sub_0_r. split_and!; [lia|done|].
    by apply bool_decide_eq_true. }
  split.
  - intros Hlast. split; [by apply resolve_Some|].
    intros j' d' Hlt Hj' Hn.
    pose proof (increasing_last _ j j' (positions_increasing _ defs 0)
                  Hlast (Hin j' d' Hj' Hn)). lia.
  - intros [(d & Hj & Hn) Hlater].
    destruct (resolve p defs) as [k|] eqn:Hk.
    + destruct (resolve_Some p defs k Hk) as (dk & Hdk & Hnk).
      pose proof (increasing_last _ k j (positions_increasing _ defs 0)
                    Hk (Hin j d Hj Hn)).
      destruct (decide (k = j)) as [->|Hne]; [done|].
      destruct (Hlater k dk); [lia|done..].
    + rewrite resolve_None in Hk. by destruct (Hk j d).
Qed.

(** X8: With several entities of the name that a class gives as its
    parent, the parent that [linkParents] leaves in the class is the
    last of them in the declaration list; with none, the class has no
    parent. *)
Theorem linkParents_parent_is_last_namesake defs defs' out i c c' p j :
  parents_unlinked defs = true →
  linkParents defs = Ok (defs', out) →
  defs !! i = Some (Class c) →
  ScriptClass.parent_name c = Some p →
  defs' !! i = Some (Class c') →
  ScriptClass.parent c' = Some j
  ↔ (∃ d, defs !! j = Some d ∧ def_name d = p)
    ∧ ∀ j' d', j < j' → defs !! j' = Some d' → def_name d' ≠ p.
Proof.
  intros Hun (_ & -> & _)%linkParents_Ok Hi Hp.
  rewrite (linked_lookup _ _ _ Hi). intros [= <-]. simpl.
  destruct (parents_unlinked_lookup _ _ _ Hun Hi) as (-> & _ & _).
  rewrite Hp. simpl. rewrite or_keep_None_r. apply resolve_last.
Qed.

Lemma linkParents_parent_is_last_namesake_witness :
  (∃ d, [Class (ScriptClass.init "Foo");
         Class (ScriptClass.set_parent_name (Some "Foo")
                  (ScriptClass.init "Kid"));
         Class (ScriptClass.init "Foo")] !! 2 = Some d
        ∧ def_name d = "Foo")
  ∧ ∀ j' d', 2 < j' →
      [Class (ScriptClass.init "Foo");
       Class (ScriptClass.set_parent_name (Some "Foo")
                (ScriptClass.init "Kid"));
       Class (ScriptClass.init "Foo")] !! j' = Some d' →
      def_name d' ≠ "Foo".
Proof.
  apply (proj1 (linkParents_parent_is_last_namesake
                  [Class (ScriptClass.init "Foo");
                   Class (ScriptClass.set_parent_name (Some "Foo")
                            (ScriptClass.init "Kid"));
                   Class (ScriptClass.init "Foo")]
                  [Class (relink None [1] [isValid; destroy] [typeName]
                            (ScriptClass.init "Foo"));
                   Class (relink (Some 2) [] [] []
                            (ScriptClass.set_parent_name (Some "Foo")
                               (ScriptClass.init "Kid")));
                   Class (relink None [1] [isValid; destroy] [typeName]
                            (ScriptClass.init "Foo"))]
                  [] 1
                  (ScriptClass.set_parent_name (Some "Foo")
                     (ScriptClass.init "Kid"))
                  (relink (Some 2) [] [] []
                     (ScriptClass.set_parent_name (Some "Foo")
                        (ScriptClass.init "Kid")))
                  "Foo" 2
                  ltac:(reflexivity) ltac:(vm_compute; reflexivity)
                  ltac:(reflexivity) ltac:(reflexivity) ltac:(reflexivity)));
    reflexivity.
Defined.

(** X9: After [linkParents] the children of a class are the classes
    that give its name as their parent name, each once and in the order
    of the declaration list; with several classes of that name, every
    one of them gets all these children. *)
Theorem linkParents_children_are_the_classes_naming_it defs defs' out k c c' :
  parents_unlinked defs = true →
  linkParents defs = Ok (defs', out) →
  defs !! k = Some (Class c) →
  defs' !! k = Some (Class c') →
  (∀ i, i ∈ ScriptClass.children c'
        ↔ ∃ ci, defs !! i = Some (Class ci)
                ∧ ScriptClass.parent_name ci = Some (ScriptClass.name c))
  ∧ increasing (ScriptClass.children c').
Proof.
  intros Hun (_ & -> & _)%linkParents_Ok Hk.
  rewrite (linked_lookup _ _ _ Hk). intros [= <-]. simpl.
  destruct (parents_unlinked_lookup _ _ _ Hun Hk) as (_ & -> & _). simpl.
  split; [intros i; apply elem_of_children_of|].
  apply positions_increasing.
Qed.

Lemma linkParents_children_are_the_classes_naming_it_witness :
  ∃ ci, [Class (ScriptClass.init "Foo");
         Class (ScriptClass.set_parent_name (Some "Foo")
                  (ScriptClass.init "Kid"));
         Class (ScriptClass.set_parent_name (Some "Foo")
                  (ScriptClass.init "Lad"))] !! 2 = Some (Class ci)
        ∧ ScriptClass.parent_name ci
          = Some (ScriptClass.name (ScriptClass.init "Foo")).
Proof.
  apply (proj1 (linkParents_children_are_the_classes_naming_it
                  [Class (ScriptClass.init "Foo");
                   Class (ScriptClass.set_parent_name (Some "Foo")
                            (ScriptClass.init "Kid"));
                   Class (ScriptClass.set_parent_name (Some "Foo")
                            (ScriptClass.init "Lad"))]
                  [Class (relink None [1; 2] [isValid; destroy] [typeName]
                            (ScriptClass.init "Foo"));
                   Class (relink (Some 0) [] [] []
                            (ScriptClass.set_parent_name (Some "Foo")
                               (ScriptClass.init "Kid")));
                   Class (relink (Some 0) [] [] []
                            (ScriptClass.set_parent_name (Some "Foo")
                               (ScriptClass.init "Lad")))]
                  [] 0 (ScriptClass.init "Foo")
                  (relink None [1; 2] [isValid; destroy] [typeName]
                     (ScriptClass.init "Foo"))
                  ltac:(reflexivity) ltac:(vm_compute; reflexivity)
                  ltac:(reflexivity) ltac:(reflexivity)) 2).
  simpl. apply elem_of_cons. right. apply elem_of_cons. by left.
Defined.

(** ** The linker: what it prints *)

Lemma resolve_None_existsb p defs :
  resolve p defs = None ↔ existsb (is_named p) defs = false.
Proof.
  rewrite resolve_None. split.
  - intros Hno. destruct (existsb (is_named p) defs) eqn:Hex; [|done].
    apply existsb_true_lookup in Hex as (j & d & Hj & Hn).
    apply bool_decide_eq_true in Hn. by destruct (Hno j d).
  - intros Hex j d Hj Hn.
    pose proof (existsb_false_lookup _ _ _ _ Hex Hj) as Hf.
    by apply bool_decide_eq_false in Hf.
Qed.

Lemma diagnostics_orphans env defs :
  parents_unlinked defs = true →
  concat (map (diagnostic env) defs)
  = parent_not_found env <$> orphans_in env defs.
Proof.
  unfold parents_unlinked, orphans_in.
  induction defs as [|d defs IH]; [done|]. simpl.
  intros [Hd Hdefs]%andb_true_iff. rewrite (IH Hdefs).
  destruct d as [c|f]; simpl; [|done].
  unfold parents_unlinked_class in Hd.
  rewrite !andb_true_iff, !bool_decide_eq_true in Hd.
  destruct Hd as [[Hp _] _]. rewrite Hp.
  destruct (ScriptClass.parent_name c) as [p|]; [|done].
  rewrite or_keep_None_r.
  destruct (resolve p env) eqn:Hr.
  - destruct (existsb (is_named p) env) eqn:Hex; [done|].
    apply resolve_None_existsb in Hex. congruence.
  - apply resolve_None_existsb in Hr. by rewrite Hr.
Qed.

(** X10: [linkParents] prints one line for each class whose parent name
    is the name of no entity of the declaration list, in the order of
    the list, and nothing else. *)
Theorem linkParents_prints_the_orphans defs defs' out :
  parents_unlinked defs = true →
  linkParents defs = Ok (defs', out) →
  out = parent_not_found defs <$> orphans defs.
Proof.
  intros Hun (_ & _ & ->)%linkParents_Ok.
  by apply diagnostics_orphans.
Qed.

Lemma linkParents_prints_the_orphans_witness :
  ["Parent not found for:  {Child}"]
  = parent_not_found
      [Class (ScriptClass.set_create false
                (ScriptClass.set_parent_name (Some "Parent")
                   (ScriptClass.init "Child")))]
    <$> orphans
          [Class (ScriptClass.set_create false
                    (ScriptClass.set_parent_name (Some "Parent")
                       (ScriptClass.init "Child")))].
Proof.
  apply (linkParents_prints_the_orphans
           [Class (ScriptClass.set_create false
                     (ScriptClass.set_parent_name (Some "Parent")
                        (ScriptClass.init "Child")))]
           [Class (ScriptClass.set_create false
                     (ScriptClass.set_parent_name (Some "Parent")
                        (ScriptClass.init "Child")))]);
    vm_compute; reflexivity.
Defined.

(** ** The two passes of the linker commute *)

Lemma is_named_link_class info p d :
  is_named p (on_class (link_class info) d) = is_named p d.
Proof. by destruct d. Qed.

Lemma positions_map {A} (P : A → bool) (g : A → A) l s :
  (∀ x, P (g x) = P x) → positions P (map g l) s = positions P l s.
Proof.
  intros Hg. revert s. induction l as [|x l IH]; intros s; simpl; [done|].
  by rewrite Hg, IH.
Qed.

Lemma existsb_map {A} (P : A → bool) (g : A → A) l :
  (∀ x, P (g x) = P x) → existsb P (map g l) = existsb P l.
Proof.
  intros Hg. induction l as [|x l IH]; simpl; [done|]. by rewrite Hg, IH.
Qed.

Lemma resolve_link_functions info p defs :
  resolve p (map (on_class (link_class info)) defs) = resolve p defs.
Proof.
  unfold resolve. rewrite positions_map; [done|].
  apply is_named_link_class.
Qed.

Lemma children_of_link_functions info nm defs :
  children_of nm (map (on_class (link_class info)) defs)
  = children_of nm defs.
Proof. unfold children_of. rewrite positions_map; [done|]. by intros []. Qed.

Lemma clash_link_functions info defs :
  clash (map (on_class (link_class info)) defs) = clash defs.
Proof.
  unfold clash.
  assert (∀ env d,
            clash_at (map (on_class (link_class info)) env)
              (on_class (link_class info) d)
            = clash_at env d) as Hat.
  { intros env [c|f]; simpl; [|done].
    destruct (ScriptClass.parent_name c); [|done].
    apply existsb_map. by intros []. }
  generalize defs at 1 3. intros env.
  induction defs as [|d defs IH]; simpl; [done|]. by rewrite Hat, IH.
Qed.

Lemma link_class_linked_class info defs m k c :
  linked_class (map (on_class (link_class info)) defs) m k
    (link_class info c)
  = link_class info (linked_class defs m k c).
Proof.
  unfold linked_class. change (map ?g ?l) with (g <$> l).
  rewrite <- fmap_take. change (?g <$> ?l) with (map g l).
  rewrite children_of_link_functions.
  change (ScriptClass.parent_name (link_class info c))
    with (ScriptClass.parent_name c).
  change (ScriptClass.name (link_class info c)) with (ScriptClass.name c).
  change (is_root (link_class info c)) with (is_root c).
  assert ((p ← ScriptClass.parent_name c;
           resolve p (map (on_class (link_class info)) defs))
          = (p ← ScriptClass.parent_name c; resolve p defs)) as ->.
  { destruct (ScriptClass.parent_name c); simpl; [|done].
    apply resolve_link_functions. }
  unfold link_class, relink, ScriptClass.set_functions. simpl. f_equal.
  rewrite map_app. f_equal.
  destruct ((k <? m) && is_root c); simpl; [|done].
  by rewrite !linked_function_no_origin.
Qed.

Lemma linked_link_functions info defs m :
  linked (map (on_class (link_class info)) defs) m
  = map (on_class (link_class info)) (linked defs m).
Proof.
  unfold linked. apply list_eq. intros k.
  change (map ?g ?l) with (g <$> l).
  rewrite list_lookup_imap, !list_lookup_fmap, list_lookup_imap.
  destruct (defs !! k) as [[c|f]|]; simpl; [|done..].
  by rewrite link_class_linked_class.
Qed.

Lemma repr_functions_linked info fs ret :
  fold_left (λ ret func, ret +:+ ":" +:+ ScriptFunction.repr func)
    (map (linked_function info) fs) ret
  = fold_left (λ ret func, ret +:+ ":" +:+ ScriptFunction.repr func) fs ret.
Proof.
  revert ret. induction fs as [|f fs IH]; intros ret; simpl; [done|].
  rewrite IH. do 3 f_equal. unfold linked_function, ScriptFunction.repr.
  by destruct (last (filter (λ sig, matches f sig = true) info)).
Qed.

Lemma diagnostics_link_functions info defs :
  diagnostics (map (on_class (link_class info)) defs) = diagnostics defs.
Proof.
  unfold diagnostics.
  assert (∀ d, diagnostic (map (on_class (link_class info)) defs)
                 (on_class (link_class info) d)
               = diagnostic defs d) as Hat.
  { intros [c|f]; simpl; [|done].
    destruct (ScriptClass.parent_name c) as [p|]; [|done].
    rewrite resolve_link_functions.
    destruct (or_keep (resolve p defs) (ScriptClass.parent c)) eqn:Hor;
      [done|].
    assert (ScriptClass.parent c = None) as Hp.
    { by destruct (resolve p defs), (ScriptClass.parent c). }
    unfold parent_not_found, repr_class. simpl. rewrite Hp.
    by rewrite repr_functions_linked. }
  rewrite map_map. f_equal. apply map_ext. intros d. apply Hat.
Qed.

(** X11: The two passes of the linker commute: [linkParents] raises on
    the declaration list with its signatures linked exactly when it
    raises on the list as extracted, and otherwise it leaves the same
    model, and prints the same lines, as when the signatures are linked
    after it. *)
Theorem link_passes_commute info defs :
  linkParents (linkFunctions info defs)
  = (st ← linkParents defs; Ok (linkFunctions info st.1, st.2)).
Proof.
  rewrite !linkParents_closed_form, !linkFunctions_closed_form.
  rewrite clash_link_functions. destruct (clash defs); [done|]. simpl.
  rewrite linkFunctions_closed_form, length_map.
  by rewrite linked_link_functions, diagnostics_link_functions.
Qed.

(** ** The source set: what [addFile] adds *)

(** An invariant of a loop over lines that may mention the lines
    already read. *)
Lemma for_lines_invariant {S} (I : list string → S → Prop)
    (body : S → string → option S) lines s s' :
  (∀ before line s1 s2,
     line ∈ lines → I before s1 → body s1 line = Some s2 →
     I (before ++ [line]) s2) →
  I [] s → for_lines body lines s = Some s' → I lines s'.
Proof.
  intros Hbody.
  assert (∀ rest before s,
            (∀ l, l ∈ rest → l ∈ lines) → I before s →
            for_lines body rest s = Some s' → I (before ++ rest) s')
    as Hgen.
  { induction rest as [|line rest IH]; intros before s0 Hsub Hs; simpl.
    - intros [= <-]. by rewrite app_nil_r.
    - destruct (body s0 line) as [s1|] eqn:Hb; [|done]. simpl.
      intros Hrest. rewrite (cons_middle line before rest), app_assoc.
      apply (IH _ s1); [|by eapply Hbody; [apply Hsub; left|..]|done].
      intros l Hl. apply Hsub. by right. }
  intros Hs Hrun. by apply (Hgen lines [] s).
Qed.

(** What a call adds: paths at the end, all of them regular files, and
    [filename] among them if it is one. *)
Lemma adds_refl (fs : file_system) files :
  ∃ added, files = files ++ added
           ∧ Forall (λ p, is_Some (fs !! p)) added.
Proof. exists []. by rewrite app_nil_r. Qed.

Lemma adds_trans (fs : file_system) a b c :
  (∃ added, b = a ++ added ∧ Forall (λ p, is_Some (fs !! p)) added) →
  (∃ added, c = b ++ added ∧ Forall (λ p, is_Some (fs !! p)) added) →
  ∃ added, c = a ++ added ∧ Forall (λ p, is_Some (fs !! p)) added.
Proof.
  intros (x & -> & Hx) (y & -> & Hy). exists (x ++ y).
  split; [by rewrite app_assoc|]. by apply Forall_app.
Qed.

Lemma addFile_grows fuel fs filename files files' :
  addFile fuel fs filename files = Some files' →
  (∃ added, files' = files ++ added
            ∧ Forall (λ p, is_Some (fs !! p)) added)
  ∧ (is_Some (fs !! filename) → filename ∈ files').
Proof.
  revert filename files files'.
  induction fuel as [|fuel IH]; intros filename files files'; [done|].
  rewrite addFile_S. case_bool_decide as Hin.
  { intros [= <-]. split; [apply adds_refl|done]. }
  destruct (fs !! filename) as [lines|] eqn:Hfs.
  2:{ intros [= <-]. split; [apply adds_refl|by intros [??]]. }
  assert ((∃ added, files ++ [filename] = files ++ added
                    ∧ Forall (λ p, is_Some (fs !! p)) added)
          ∧ filename ∈ files ++ [filename]) as Hfirst.
  { split.
    - exists [filename]. split; [done|]. apply Forall_singleton.
      by rewrite Hfs.
    - apply elem_of_app. right. by left. }
  destruct (is_c_family _).
  2:{ intros [= <-]. by destruct Hfirst. }
  intros Hrun.
  apply (for_lines_invariant
           (λ _ fl, (∃ added, fl = files ++ added
                              ∧ Forall (λ p, is_Some (fs !! p)) added)
                    ∧ filename ∈ fl)) in Hrun.
  - by destruct Hrun.
  - intros _ line fl1 fl3 _ (Hadd & Hmem). unfold follow_include.
    destruct (Re.match_ re_include line) as [m|];
      [|by intros [= <-]].
    intros (fl2 & (Hadd2 & _)%IH & (Hadd3 & _)%IH)%bind_Some.
    split.
    + by do 2 (eapply adds_trans; [|done]).
    + destruct Hadd2 as (k2 & -> & _), Hadd3 as (k3 & -> & _).
      rewrite !elem_of_app. by left; left.
  - done.
Qed.

(** X12: A call of [addFile] that returns has only added paths at the
    end of the set, each of them the path of a regular file; it has
    added [filename] if that is a regular file, and nothing at all if it
    is not. *)
Theorem addFile_adds_regular_files_only fuel fs filename files files' :
  addFile fuel fs filename files = Some files' →
  (∃ added, files' = files ++ added
            ∧ ∀ p, p ∈ added → is_Some (fs !! p))
  ∧ (is_Some (fs !! filename) → filename ∈ files')
  ∧ (fs !! filename = None → files' = files).
Proof.
  intros Hrun.
  destruct (addFile_grows _ _ _ _ _ Hrun) as ((added & -> & Hreg) & Hmem).
  split_and!.
  - exists added. split; [done|]. by apply Forall_forall.
  - done.
  - intros Hno. destruct fuel as [|fuel]; [done|].
    rewrite addFile_S, Hno in Hrun. case_bool_decide; by simplify_eq.
Qed.

Lemma addFile_adds_regular_files_only_witness :
  "a.h" ∈ ["a.h"; "b.h"].
Proof.
  apply (addFile_adds_regular_files_only 3 cyclic_fs "a.h" [] ["a.h"; "b.h"]
           ltac:(reflexivity)).
  by eexists.
Defined.

(** ** The source set: includes *)

Lemma closed_but_weaken fs pending pending' files :
  (∀ p, p ∈ pending' → p ∈ pending) →
  closed_but fs pending' files → closed_but fs pending files.
Proof. intros Hsub Hc p q Hp Hnp. apply Hc; [done|]. naive_solver. Qed.

(** A call keeps the set closed under the includes of the files that
    are not pending: what it adds, it adds with its includes. *)
Lemma addFile_closed_but fuel fs pending filename files files' :
  addFile fuel fs filename files = Some files' →
  closed_but fs pending files → closed_but fs pending files'.
Proof.
  revert pending filename files files'.
  induction fuel as [|fuel IH]; intros pending filename files files';
    [done|].
  rewrite addFile_S. case_bool_decide as Hin; [by intros [= <-]|].
  destruct (fs !! filename) as [lines|] eqn:Hfs; [|by intros [= <-]].
  destruct (is_c_family _) eqn:Hc.
  2:{ intros [= <-] Hclosed p q [Hp| ->%list_elem_of_singleton]%elem_of_app
        Hnp Hpq.
      - apply elem_of_app. left. by eapply Hclosed.
      - destruct Hpq as (? & ? & ? & _ & Hc' & _). congruence. }
  intros Hrun Hclosed.
  apply (for_lines_invariant
           (λ before fl,
              closed_but fs (filename :: pending) fl
              ∧ filename ∈ fl
              ∧ (∀ q, q ∈ files → q ∈ fl)
              ∧ ∀ line m q,
                  line ∈ before → Re.match_ re_include line = Some m →
                  q = Re.group m 1
                  ∨ q = Path.join (Path.dirname filename) (Re.group m 1) →
                  is_Some (fs !! q) → q ∈ fl)) in Hrun.
  - destruct Hrun as (Hcl & Hmem & Hsub & Hinc).
    intros p q Hp Hnp Hpq. destruct (decide (p = filename)) as [->|Hne].
    + destruct Hpq as (lines' & line & m & Hl & _ & Hline & Hm & Hq & Hreg).
      rewrite Hfs in Hl. injection Hl as <-. by eapply Hinc.
    + apply (Hcl p q); [done| |done].
      intros [->|?]%elem_of_cons; done.
  - intros before line fl1 fl3 _ (Hcl & Hmem & Hsub & Hinc).
    unfold follow_include.
    destruct (Re.match_ re_include line) as [m|] eqn:Hm.
    2:{ intros [= <-]. split_and!; [done..|].
        intros l m q [Hl| ->%list_elem_of_singleton]%elem_of_app Hm' Hq Hreg;
          [by eapply Hinc|congruence]. }
    intros (fl2 & H2 & H3)%bind_Some.
    destruct (addFile_grows _ _ _ _ _ H2) as ((k2 & -> & _) & Hmem2).
    destruct (addFile_grows _ _ _ _ _ H3) as ((k3 & -> & _) & Hmem3).
    split_and!.
    + by apply (IH _ _ _ _ H3), (IH _ _ _ _ H2).
    + rewrite !elem_of_app. by left; left.
    + intros q Hq. rewrite !elem_of_app. left; left. by apply Hsub.
    + intros l m' q [Hl| ->%list_elem_of_singleton]%elem_of_app Hm' Hq Hreg.
      * rewrite !elem_of_app. left; left. by eapply Hinc.
      * rewrite Hm in Hm'. injection Hm' as <-. destruct Hq as [->| ->].
        -- apply elem_of_app. left. by apply Hmem2.
        -- by apply Hmem3.
  - split_and!.
    + intros p q [Hp| ->%list_elem_of_singleton]%elem_of_app Hnp Hpq.
      * apply elem_of_app. left. apply (Hclosed p q); [done| |done].
        intros Hpend. apply Hnp. by right.
      * destruct Hnp. by left.
    + apply elem_of_app. right. by left.
    + intros q Hq. apply elem_of_app. by left.
    + intros l m q Hl. by apply elem_of_nil in Hl.
Qed.

(** X13: The source set stays closed under includes: if every include
    of a C-family file of the set that names a regular file, as written
    or relative to the directory of the including file, is in the set
    before a call of [addFile], the same holds after it, for the files
    that the call has added too. *)
Theorem addFile_keeps_include_closure fuel fs filename files files' :
  include_closed fs files →
  addFile fuel fs filename files = Some files' →
  include_closed fs files'.
Proof. intros Hc Hrun. by eapply addFile_closed_but. Qed.

Lemma addFile_keeps_include_closure_witness :
  include_closed cyclic_fs ["a.h"; "b.h"].
Proof.
  apply (addFile_keeps_include_closure 3 cyclic_fs "a.h" [] ["a.h"; "b.h"]);
    [|reflexivity].
  intros p q Hp. by apply elem_of_nil in Hp.
Defined.

(** ** [addDirectory] *)

Lemma addDirectory_S fuel dirs fs directory files :
  addDirectory (S fuel) dirs fs directory files
  = match dirs !! directory with
    | None => Some files
    | Some names => for_lines (add_entry fuel dirs fs directory) names files
    end.
Proof. done. Qed.

Lemma string_length_app (a b : string) :
  String.length (a +:+ b) = String.length a + String.length b.
Proof.
  induction a as [|c a IH]; [done|].
  change (S (String.length (a +:+ b)) = S (String.length a + String.length b)).
  by rewrite IH.
Qed.

Lemma entry_path_longer directory name :
  String.length directory < String.length (entry_path directory name).
Proof.
  unfold entry_path. rewrite !string_length_app. simpl. lia.
Qed.

(** A call on an entry that is a directory has fewer directories left to
    descend into. *)
Lemma deeper_entry (dirs : directories) directory name :
  is_Some (dirs !! entry_path directory name) →
  deeper dirs (entry_path directory name) < deeper dirs directory.
Proof.
  intros Hdir. unfold deeper. apply subset_size.
  pose proof (entry_path_longer directory name) as Hlen. split.
  - intros p. rewrite !elem_of_filter. intros [Hp ?]. split; [lia|done].
  - intros Hsub.
    assert (entry_path directory name
            ∈ filter (λ p, String.length directory < String.length p)
                (dom dirs)) as Hin.
    { apply elem_of_filter. split; [done|]. by apply elem_of_dom. }
    apply Hsub, elem_of_filter in Hin as [Hin _]. lia.
Qed.

(** With more fuel than there are directories to descend into and files
    not yet visited, [addDirectory] returns. *)
Lemma addDirectory_total fuel dirs fs directory files :
  NoDup files →
  S (deeper dirs directory + unvisited fs files) < fuel →
  ∃ files', addDirectory fuel dirs fs directory files = Some files'
            ∧ visits files files'.
Proof.
  revert directory files.
  induction fuel as [|fuel IH]; intros directory files Hnd Hfuel; [lia|].
  rewrite addDirectory_S.
  destruct (dirs !! directory) as [names|]; [|by eauto using visits_refl].
  apply (for_lines_total visits
           (λ fl, NoDup fl ∧ unvisited fs fl ≤ unvisited fs files)).
  - intros fl [??]. by apply visits_refl.
  - apply visits_trans.
  - intros fl1 fl2 [_ Hle] Hv. split; [by destruct Hv|].
    apply (visits_unvisited fs) in Hv. lia.
  - intros fl name [Hnd1 Hle1]. unfold add_entry.
    case_bool_decide as Hdir.
    + apply IH; [done|]. apply (deeper_entry dirs directory name) in Hdir.
      lia.
    + case_bool_decide as Hfile; [|by eauto using visits_refl].
      apply addFile_total; [done|lia].
  - done.
Qed.

(** More fuel does not change what [addDirectory] returns. *)
Lemma addDirectory_fuel_mono fuel fuel' dirs fs directory files files' :
  fuel ≤ fuel' → addDirectory fuel dirs fs directory files = Some files' →
  addDirectory fuel' dirs fs directory files = Some files'.
Proof.
  revert fuel' directory files files'.
  induction fuel as [|fuel IH]; intros fuel' directory files files' Hle;
    [done|].
  destruct fuel' as [|fuel']; [lia|]. rewrite !addDirectory_S.
  destruct (dirs !! directory); [|done]. apply for_lines_ext.
  intros fl name fl'. unfold add_entry.
  case_bool_decide; [apply IH; lia|].
  case_bool_decide; [|done]. apply addFile_fuel_mono. lia.
Qed.

(** X14: [addDirectory] returns on every file system, with a set that
    has no path twice and that starts with the set as it was: a nested
    call is on a longer path of a directory, of which the file system
    has finitely many, and the calls of [addFile] return.  The bound on
    the depth of the recursion is the number of the paths of
    directories that are longer than [directory] plus the number of the
    paths of regular files not yet in the set, plus one; it counts
    paths as they are written, not the directories and files that they
    name. *)
Theorem addDirectory_terminates dirs fs directory files :
  NoDup files →
  ∃ files',
    NoDup files'
    ∧ (∃ added, files' = files ++ added)
    ∧ ∀ fuel, S (deeper dirs directory + unvisited fs files) < fuel →
              addDirectory fuel dirs fs directory files = Some files'.
Proof.
  intros Hnd.
  destruct (addDirectory_total
              (S (S (deeper dirs directory + unvisited fs files)))
              dirs fs directory files)
    as (files' & Hrun & Hnd' & Hadd); [done|lia|].
  exists files'. split_and!; [done..|]. intros fuel Hfuel.
  eapply addDirectory_fuel_mono; [|done]. lia.
Qed.

Lemma addDirectory_terminates_witness :
  ∃ files',
    NoDup files'
    ∧ ∀ fuel, S (deeper tree_dirs "src" + unvisited tree_fs []) < fuel →
              addDirectory fuel tree_dirs tree_fs "src" [] = Some files'.
Proof.
  destruct (addDirectory_terminates tree_dirs tree_fs "src" [])
    as (files' & Hnd & _ & Hrun); [constructor|].
  by exists files'.
Defined.

Example addDirectory_tree :
  addDirectory 4 tree_dirs tree_fs "src" []
  = Some ["src/a.h"; "src/sub/b.h"; "src/sub/../../lib/c.h"].
Proof. reflexivity. Qed.

(** ** What [addDirectory] adds *)

Lemma addDirectory_grows fuel dirs fs directory files files' :
  addDirectory fuel dirs fs directory files = Some files' →
  ∃ added, files' = files ++ added
           ∧ Forall (λ p, is_Some (fs !! p)) added.
Proof.
  revert directory files files'.
  induction fuel as [|fuel IH]; intros directory files files'; [done|].
  rewrite addDirectory_S.
  destruct (dirs !! directory) as [names|];
    [|intros [= <-]; apply adds_refl].
  intros Hrun.
  apply (for_lines_invariant
           (λ _ fl, ∃ added, fl = files ++ added
                             ∧ Forall (λ p, is_Some (fs !! p)) added))
    in Hrun; [done| |apply adds_refl].
  intros _ name fl1 fl2 _ Hadd. unfold add_entry.
  case_bool_decide.
  - intros Hsub%IH. by eapply adds_trans.
  - case_bool_decide; [|by intros [= <-]].
    intros [Hfile _]%addFile_grows. by eapply adds_trans.
Qed.

Lemma addDirectory_closed_but fuel dirs fs pending directory files files' :
  addDirectory fuel dirs fs directory files = Some files' →
  closed_but fs pending files → closed_but fs pending files'.
Proof.
  revert directory files files'.
  induction fuel as [|fuel IH]; intros directory files files'; [done|].
  rewrite addDirectory_S.
  destruct (dirs !! directory) as [names|]; [|by intros [= <-]].
  intros Hrun Hclosed.
  apply (for_lines_invariant (λ _ fl, closed_but fs pending fl)) in Hrun;
    [done| |done].
  intros _ name fl1 fl2 _ Hcl. unfold add_entry.
  case_bool_decide.
  - intros Hsub. by eapply IH.
  - case_bool_decide; [|by intros [= <-]].
    intros Hfile. by eapply addFile_closed_but.
Qed.

(** X15: A call of [addDirectory] that returns has only added paths at
    the end of the set, each of them the path of a regular file; it
    keeps the set closed under includes; and it adds nothing for a path
    that is no directory. *)
Theorem addDirectory_adds_regular_files_with_their_includes
    fuel dirs fs directory files files' :
  addDirectory fuel dirs fs directory files = Some files' →
  (∃ added, files' = files ++ added
            ∧ ∀ p, p ∈ added → is_Some (fs !! p))
  ∧ (include_closed fs files → include_closed fs files')
  ∧ (dirs !! directory = None → files' = files).
Proof.
  intros Hrun. split_and!.
  - destruct (addDirectory_grows _ _ _ _ _ _ Hrun) as (added & -> & Hreg).
    exists added. split; [done|]. by apply Forall_forall.
  - intros Hc. by eapply addDirectory_closed_but.
  - intros Hno. destruct fuel as [|fuel]; [done|].
    rewrite addDirectory_S, Hno in Hrun. by simplify_eq.
Qed.

Lemma addDirectory_adds_regular_files_with_their_includes_witness :
  include_closed tree_fs ["src/a.h"; "src/sub/b.h"; "src/sub/../../lib/c.h"].
Proof.
  apply (addDirectory_adds_regular_files_with_their_includes
           4 tree_dirs tree_fs "src" []
           ["src/a.h"; "src/sub/b.h"; "src/sub/../../lib/c.h"]
           ltac:(reflexivity)).
  intros p q Hp. by apply elem_of_nil in Hp.
Defined.

(** ** [addDirectory] collects the tree *)

Lemma addDirectory_collects fuel dirs fs directory files files' p :
  addDirectory fuel dirs fs directory files = Some files' →
  under dirs fs directory p → p ∈ files'.
Proof.
  intros Hrun Hunder. revert fuel files files' Hrun.
  induction Hunder as [directory names name Hdir Hname Hnodir Hfile
                      |directory names name p Hdir Hname Hunder IH];
    intros fuel files files' Hrun.
  - destruct fuel as [|fuel]; [done|].
    rewrite addDirectory_S, Hdir in Hrun.
    apply (for_lines_invariant
             (λ before fl, name ∈ before → entry_path directory name ∈ fl)
             (add_entry fuel dirs fs directory) names files files');
      [|by intros ?%elem_of_nil|done..].
    intros before name' fl1 fl2 _ Hbefore Hstep
      [Hin| <-%list_elem_of_singleton]%elem_of_app.
    + assert (∃ added, fl2 = fl1 ++ added) as [added ->].
      { unfold add_entry in Hstep. case_bool_decide.
        - apply addDirectory_grows in Hstep as (? & ? & _). eauto.
        - case_bool_decide; [|exists []; rewrite app_nil_r; congruence].
          apply addFile_grows in Hstep as [(? & ? & _) _]. eauto. }
      apply elem_of_app. left. by apply Hbefore.
    + unfold add_entry in Hstep.
      rewrite bool_decide_false in Hstep by (rewrite Hnodir; by intros [??]).
      rewrite bool_decide_true in Hstep by done.
      by apply addFile_grows in Hstep as [_ Hmem]; apply Hmem.
  - destruct fuel as [|fuel]; [done|].
    rewrite addDirectory_S, Hdir in Hrun.
    apply (for_lines_invariant
             (λ before fl, name ∈ before → p ∈ fl)
             (add_entry fuel dirs fs directory) names files files');
      [|by intros ?%elem_of_nil|done..].
    intros before name' fl1 fl2 _ Hbefore Hstep
      [Hin| <-%list_elem_of_singleton]%elem_of_app.
    + assert (∃ added, fl2 = fl1 ++ added) as [added ->].
      { unfold add_entry in Hstep. case_bool_decide.
        - apply addDirectory_grows in Hstep as (? & ? & _). eauto.
        - case_bool_decide; [|exists []; rewrite app_nil_r; congruence].
          apply addFile_grows in Hstep as [(? & ? & _) _]. eauto. }
      apply elem_of_app. left. by apply Hbefore.
    + unfold add_entry in Hstep.
      assert (is_Some (dirs !! entry_path directory name)) as Hsub.
      { inversion Hunder; simplify_eq; eauto. }
      rewrite bool_decide_true in Hstep by done. by eapply IH.
Qed.

(** X16: [addDirectory] collects the tree: a call that returns has in
    its set every regular file that is an entry of the directory, or of
    a directory below it, together with what was in the set before. *)
Theorem addDirectory_collects_the_tree fuel dirs fs directory files files' p :
  addDirectory fuel dirs fs directory files = Some files' →
  p ∈ files ∨ under dirs fs directory p → p ∈ files'.
Proof.
  intros Hrun [Hp|Hp]; [|by eapply addDirectory_collects].
  apply addDirectory_grows in Hrun as (added & -> & _).
  apply elem_of_app. by left.
Qed.

Lemma addDirectory_collects_the_tree_witness :
  "src/sub/b.h" ∈ ["src/a.h"; "src/sub/b.h"; "src/sub/../../lib/c.h"].
Proof.
  apply (addDirectory_collects_the_tree 4 tree_dirs tree_fs "src" []
           ["src/a.h"; "src/sub/b.h"; "src/sub/../../lib/c.h"]
           "src/sub/b.h" ltac:(reflexivity)).
  right. apply (under_directory _ _ "src" ["a.h"; "sub"; "gone"] "sub");
    [reflexivity|set_solver|].
  apply (under_file _ _ "src/sub" ["b.h"] "b.h");
    [reflexivity|set_solver|reflexivity|by eexists].
Defined.

(** ** The class tree *)

Lemma outputClassTree_S fuel defs i :
  outputClassTree (S fuel) defs i
  = match defs !! i with
    | Some (Class self) =>
        let item :=
          "<li><a href=" +:+ dquote +:+ "#class_" +:+ ScriptClass.name self
          +:+ dquote +:+ ">" +:+ ScriptClass.name self +:+ "</a>" +:+ nl in
        if 0 <? length (ScriptClass.children self) then
          sub ← write_all (outputClassTree fuel defs)
                   (ScriptClass.children self);
          Some (item +:+ "<ul>" +:+ sub +:+ "</ul>" +:+ nl)
        else Some item
    | _ => Some ""
    end.
Proof. done. Qed.

Lemma write_all_total {A} (write : A → option string) xs :
  (∀ x, x ∈ xs → is_Some (write x)) → is_Some (write_all write xs).
Proof.
  induction xs as [|x xs IH]; intros Hall; simpl; [done|].
  destruct (Hall x) as [a ->]; [by left|]. simpl.
  destruct IH as [b ->]; [|done]. intros y Hy. apply Hall. by right.
Qed.

Lemma write_all_None {A} (write : A → option string) xs x :
  x ∈ xs → write x = None → write_all write xs = None.
Proof.
  induction xs as [|y xs IH]; [by intros ?%elem_of_nil|].
  intros [->|Hx]%elem_of_cons Hnone; simpl.
  - by rewrite Hnone.
  - destruct (write y); [|done]. simpl. by rewrite IH.
Qed.

Lemma write_all_ext {A} (write write' : A → option string) xs b :
  (∀ x a, x ∈ xs → write x = Some a → write' x = Some a) →
  write_all write xs = Some b → write_all write' xs = Some b.
Proof.
  revert b. induction xs as [|x xs IH]; intros b Hext; simpl; [done|].
  destruct (write x) as [a|] eqn:Hx; [|done]. simpl.
  rewrite (Hext x a) by (done || by left). simpl.
  destruct (write_all write xs) as [b'|]; [|done]. simpl.
  rewrite (IH b'); [done| |done]. intros y c Hy. apply Hext. by right.
Qed.

(** More fuel does not change what [outputClassTree] writes. *)
Lemma outputClassTree_fuel_mono fuel fuel' defs i a :
  fuel ≤ fuel' → outputClassTree fuel defs i = Some a →
  outputClassTree fuel' defs i = Some a.
Proof.
  revert fuel' i a. induction fuel as [|fuel IH]; intros fuel' i a Hle;
    [done|].
  destruct fuel' as [|fuel']; [lia|]. rewrite !outputClassTree_S.
  destruct (defs !! i) as [[c|f]|]; [|done..]. simpl.
  destruct (0 <? length (ScriptClass.children c)); [|done].
  destruct (write_all (outputClassTree fuel defs) (ScriptClass.children c))
    as [sub|] eqn:Hsub; [|done].
  simpl. intros Ha.
  rewrite (write_all_ext (outputClassTree fuel defs)
             (outputClassTree fuel' defs) (ScriptClass.children c) sub);
    [done| |done].
  intros j b _. apply IH. lia.
Qed.

(** X17: A class that can reach itself through the lists of children is
    never written: [outputClassTree] does not return on it, nor on a
    class from which it can be reached, and [generateDocs] does not
    return when such a class has no parent object.  [C] is any set of
    classes each of which has a child in the set. *)
Theorem outputClassTree_loops_on_a_cycle defs (C : nat → Prop) i c :
  (∀ j, C j → ∃ j', child_of defs j j' ∧ C j') →
  C i →
  (∀ fuel, outputClassTree fuel defs i = None)
  ∧ (defs !! i = Some (Class c) → ScriptClass.parent c = None →
     ∀ fuel, generateDocs fuel defs = None).
Proof.
  intros Hcycle Hi.
  assert (∀ fuel j, C j → outputClassTree fuel defs j = None) as Hloop.
  { induction fuel as [|fuel IH]; intros j Hj; [done|].
    destruct (Hcycle j Hj) as (j' & (cj & Hcj & Hin) & Hj').
    rewrite outputClassTree_S, Hcj. simpl.
    assert ((0 <? length (ScriptClass.children cj)) = true) as ->.
    { apply Nat.ltb_lt. destruct (ScriptClass.children cj);
        [by apply elem_of_nil in Hin|simpl; lia]. }
    by rewrite (write_all_None _ _ j' Hin (IH j' Hj')). }
  split; [intros fuel; by apply Hloop|].
  intros Hc Hroot fuel. unfold generateDocs.
  rewrite (write_all_None _ _ i); [done| |].
  - apply elem_of_seq. apply lookup_lt_Some in Hc. lia.
  - rewrite Hc. simpl. rewrite Hroot. by apply Hloop.
Qed.

Lemma outputClassTree_loops_on_a_cycle_witness :
  (readScriptDefinitions [("a.cpp", namesake_file)] [] ≫= link [])
  = Ok (namesake_linked, [])
  ∧ generateDocs 1000 namesake_linked = None.
Proof.
  split; [vm_compute; reflexivity|].
  apply (outputClassTree_loops_on_a_cycle namesake_linked (λ j, j ≤ 2) 0
           (relink None [1] [isValid; destroy] [typeName]
              (ScriptClass.init "N"))); [|lia|reflexivity..].
  intros [|[|[|j]]] Hj; [| | |lia].
  - exists 1. split; [|lia]. eexists. split; [reflexivity|]. by left.
  - exists 2. split; [|lia]. eexists. split; [reflexivity|]. by left.
  - exists 1. split; [|lia]. eexists. split; [reflexivity|]. by left.
Defined.

(** ** The class tree is finite when the names are unique *)

Lemma ancestors_functional defs i p1 p2 :
  ancestors defs i p1 → ancestors defs i p2 → p1 = p2.
Proof.
  revert i p2. induction p1 as [|k p1 IH]; intros i [|k2 p2]; simpl.
  - done.
  - intros (c & Hc & Hp) [(c2 & Hc2 & Hp2) _]. congruence.
  - intros [(c & Hc & Hp) _] (c2 & Hc2 & Hp2). congruence.
  - intros [(c & Hc & Hp) H1] [(c2 & Hc2 & Hp2) H2].
    assert (k = k2) as <- by congruence. f_equal. by eapply IH.
Qed.

Lemma ancestors_suffix defs i a k b :
  ancestors defs i (a ++ k :: b) → ancestors defs k b.
Proof.
  revert i. induction a as [|x a IH]; intros i; simpl.
  - by intros [_ ?].
  - intros [_ ?]. by eapply IH.
Qed.

Lemma ancestors_not_in defs i path : ancestors defs i path → i ∉ path.
Proof.
  intros Hpath (a & b & Heq)%list_elem_of_split.
  pose proof Hpath as Hb. rewrite Heq in Hb. apply ancestors_suffix in Hb.
  pose proof (ancestors_functional _ _ _ _ Hpath Hb) as Hsame.
  apply (f_equal length) in Heq. rewrite Hsame in Heq at 1.
  rewrite length_app in Heq. simpl in Heq. lia.
Qed.

Lemma ancestors_NoDup defs i path :
  ancestors defs i path → NoDup (i :: path).
Proof.
  revert i. induction path as [|k path IH]; intros i Hpath.
  - apply NoDup_singleton.
  - constructor; [by eapply ancestors_not_in|]. apply IH. by destruct Hpath.
Qed.

Lemma ancestors_lt defs i path x :
  ancestors defs i path → x ∈ i :: path → x < length defs.
Proof.
  revert i. induction path as [|k path IH]; intros i Hpath.
  - destruct Hpath as (c & Hc & _).
    intros ->%list_elem_of_singleton. by eapply lookup_lt_Some.
  - destruct Hpath as [(c & Hc & _) Hk].
    intros [->|Hx]%elem_of_cons; [by eapply lookup_lt_Some|]. by eapply IH.
Qed.

Lemma ancestors_length defs i path :
  ancestors defs i path → S (length path) ≤ length defs.
Proof.
  intros Hpath.
  assert (i :: path ⊆+ seq 0 (length defs)) as Hsub.
  { apply NoDup_submseteq; [by eapply ancestors_NoDup|].
    intros x Hx. apply elem_of_seq.
    pose proof (ancestors_lt _ _ _ _ Hpath Hx). lia. }
  apply submseteq_length in Hsub. by rewrite length_seq in Hsub.
Qed.

(** When every child has the class as its parent object, the tree below
    a class with a chain of parents up to a root is written. *)
Lemma outputClassTree_total defs :
  (∀ k j, child_of defs k j →
          ∃ c, defs !! j = Some (Class c) ∧ ScriptClass.parent c = Some k) →
  ∀ fuel i path,
    ancestors defs i path → length defs < fuel + S (length path) →
    is_Some (outputClassTree fuel defs i).
Proof.
  intros Hchild.
  induction fuel as [|fuel IH]; intros i path Hpath Hfuel.
  { apply ancestors_length in Hpath. lia. }
  rewrite outputClassTree_S.
  destruct (defs !! i) as [[c|f]|] eqn:Hi; [|done..]. simpl.
  destruct (0 <? length (ScriptClass.children c)); [|done].
  destruct (write_all_total (outputClassTree fuel defs)
              (ScriptClass.children c)) as [sub ->]; [|done].
  intros j Hj. apply (IH j (i :: path)); [|simpl; lia].
  split; [|done]. apply Hchild. by exists c.
Qed.

(** In the model that [linkParents] leaves of declarations with unique
    class names, a child has the class as its parent object. *)
Lemma linked_child_parent defs defs' out k j :
  parents_unlinked defs = true → unique_class_names defs →
  linkParents defs = Ok (defs', out) →
  child_of defs' k j →
  ∃ c, defs' !! j = Some (Class c) ∧ ScriptClass.parent c = Some k.
Proof.
  intros Hun Huniq Hlink (c' & Hk' & Hj).
  pose proof Hlink as (Hclash & -> & _)%linkParents_Ok.
  destruct (defs !! k) as [[c|f]|] eqn:Hk.
  2:{ by rewrite (linked_lookup_function _ _ _ _ Hk) in Hk'. }
  2:{ unfold linked in Hk'. by rewrite list_lookup_imap, Hk in Hk'. }
  rewrite (linked_lookup _ _ _ Hk) in Hk'. injection Hk' as <-.
  simpl in Hj.
  destruct (parents_unlinked_lookup _ _ _ Hun Hk) as (_ & Hkids & _).
  rewrite Hkids in Hj. simpl in Hj.
  apply elem_of_children_of in Hj as (cj & Hcj & Hpn).
  rewrite (linked_lookup _ _ _ Hcj). eexists. split; [done|]. simpl.
  destruct (parents_unlinked_lookup _ _ _ Hun Hcj) as (-> & _ & _).
  rewrite Hpn. simpl. rewrite or_keep_None_r. apply resolve_last. split.
  - by exists (Class c).
  - intros j' d' Hlt Hj' Hname. destruct d' as [c2|f2]; simpl in Hname.
    + pose proof (Huniq j' k c2 c Hj' Hk Hname). lia.
    + assert (clash defs = true) as Hc; [|congruence].
      apply clash_true. exists j, cj, j', f2. split_and!; [done..|].
      by rewrite Hname.
Qed.

Lemma generateDocs_fuel_mono fuel fuel' defs page :
  fuel ≤ fuel' → generateDocs fuel defs = Some page →
  generateDocs fuel' defs = Some page.
Proof.
  intros Hle. unfold generateDocs.
  destruct (write_all (λ i, d ← defs !! i; tree_of_root fuel defs d i) _)
    as [tree|] eqn:Htree; [|done].
  rewrite (write_all_ext
             (λ i, d ← defs !! i; tree_of_root fuel defs d i)
             (λ i, d ← defs !! i; tree_of_root fuel' defs d i)
             (seq 0 (length defs)) tree); [done| |done].
  intros i a _. destruct (defs !! i) as [[c|f]|]; simpl; [|done..].
  destruct (ScriptClass.parent c); [done|].
  by apply outputClassTree_fuel_mono.
Qed.

Lemma generateDocs_total defs defs' out :
  parents_unlinked defs = true → unique_class_names defs →
  linkParents defs = Ok (defs', out) →
  ∃ page, ∀ fuel, length defs < fuel → generateDocs fuel defs' = Some page.
Proof.
  intros Hun Huniq Hlink.
  assert (length defs' = length defs) as Hlen.
  { apply linkParents_Ok in Hlink as (_ & -> & _). apply length_linked. }
  assert (is_Some (generateDocs (S (length defs)) defs')) as [page Hpage].
  { unfold generateDocs.
    destruct (write_all_total
                (λ i, d ← defs' !! i;
                      tree_of_root (S (length defs)) defs' d i)
                (seq 0 (length defs'))) as [tree ->]; [|simpl; eauto].
    intros i Hi%elem_of_seq.
    destruct (lookup_lt_is_Some_2 defs' i) as [d Hd]; [lia|].
    rewrite Hd. destruct d as [c|f]; cbn -[outputClassTree]; [|done].
    destruct (ScriptClass.parent c) eqn:Hp; [done|].
    apply (outputClassTree_total defs') with (path := []).
    - intros k j. by eapply linked_child_parent.
    - by exists c.
    - simpl. lia. }
  exists page. intros fuel Hfuel.
  eapply generateDocs_fuel_mono; [|done]. lia.
Qed.

(** X18: When no two classes have the same name, [generateDocs] returns
    on the model that [linkParents] leaves, and so does
    [outputClassTree] on every class of it without a parent object: the
    depth of the class tree is at most the number of entities. *)
Theorem generateDocs_terminates defs defs' out :
  parents_unlinked defs = true → unique_class_names defs →
  linkParents defs = Ok (defs', out) →
  ∃ page, ∀ fuel, length defs < fuel → generateDocs fuel defs' = Some page.
Proof. apply generateDocs_total. Qed.

Lemma generateDocs_terminates_witness :
  ∃ page, ∀ fuel,
    length [Class (ScriptClass.init "Foo");
            Class (ScriptClass.set_parent_name (Some "Foo")
                     (ScriptClass.init "Kid"))] < fuel →
    generateDocs fuel
      [Class (relink None [1] [isValid; destroy] [typeName]
                (ScriptClass.init "Foo"));
       Class (relink (Some 0) [] [] []
                (ScriptClass.set_parent_name (Some "Foo")
                   (ScriptClass.init "Kid")))]
    = Some page.
Proof.
  apply (generateDocs_terminates
           [Class (ScriptClass.init "Foo");
            Class (ScriptClass.set_parent_name (Some "Foo")
                     (ScriptClass.init "Kid"))]
           [Class (relink None [1] [isValid; destroy] [typeName]
                     (ScriptClass.init "Foo"));
            Class (relink (Some 0) [] [] []
                     (ScriptClass.set_parent_name (Some "Foo")
                        (ScriptClass.init "Kid")))]
           []); [reflexivity| |vm_compute; reflexivity].
  intros [|[|i]] [|[|j]] ci cj Hi Hj Hn; simplify_eq/=; done.
Defined.

(** ** What the renderer reports *)

(** The lines that [generateDocs] prints do not depend on the fuel. *)
Lemma generateDocs_printed fuel defs page :
  generateDocs fuel defs = Some page →
  page.2 = concat ((class_section defs <$> defs).*2).
Proof.
  unfold generateDocs. destruct (write_all _ _); [|done].
  by intros [= <-].
Qed.

Lemma existsb_matches_filter (f : ScriptFunction.t) (info : list signature) :
  existsb (matches f) info = false
  ↔ filter (λ sig, matches f sig = true) info = [].
Proof.
  induction info as [|sig info IH]; simpl; [done|].
  destruct (matches f sig) eqn:Hm; simpl.
  - rewrite filter_cons_True by done. done.
  - rewrite filter_cons_False by (by rewrite Hm). done.
Qed.

(** A registered function is reported after linking exactly when no row
    of the table matches it. *)
Lemma class_function_linked info c' f :
  ScriptFunction.parameters f = None →
  (class_function c' (linked_function info f)).2
  = if existsb (matches f) info then []
    else ["Failed to find parameters for " +:+ ScriptClass.name c' +:+ ":"
          +:+ ScriptFunction.name f].
Proof.
  intros Hnone. unfold class_function, linked_function.
  destruct (existsb (matches f) info) eqn:Hex.
  - destruct (last (filter (λ sig, matches f sig = true) info)) eqn:Hlast;
      [done|].
    apply last_None, existsb_matches_filter in Hlast. congruence.
  - apply existsb_matches_filter in Hex. rewrite Hex. simpl.
    by rewrite Hnone.
Qed.

Lemma printed_of_registered info c' fs :
  Forall (λ f, ScriptFunction.parameters f = None) fs →
  concat ((class_function c' <$> (linked_function info <$> fs)).*2)
  = omap (λ f, if existsb (matches f) info then None
               else Some ("Failed to find parameters for "
                          +:+ ScriptClass.name c' +:+ ":"
                          +:+ ScriptFunction.name f)) fs.
Proof.
  induction 1 as [|f fs Hf _ IH]; [done|].
  rewrite !fmap_cons. cbn [concat omap list_omap].
  rewrite IH, class_function_linked by done.
  by destruct (existsb (matches f) info).
Qed.

Lemma printed_of_synthesized c' (b : bool) :
  concat ((class_function c' <$> (if b then [isValid; destroy] else [])).*2)
  = [].
Proof. by destruct b. Qed.

Lemma printed_after_link info defs defs' out fuel page :
  unlinked defs = true →
  link info defs = Ok (defs', out) →
  generateDocs fuel defs' = Some page →
  page.2 = unmatched info defs.
Proof.
  intros Hun Hlink ->%generateDocs_printed.
  unfold link in Hlink. apply linkParents_Ok in Hlink as (_ & -> & _).
  rewrite linkFunctions_closed_form, length_map.
  unfold unmatched. rewrite <- list_fmap_compose. f_equal.
  change (map ?g ?l) with (g <$> l).
  apply list_eq. intros i. rewrite !list_lookup_fmap.
  unfold linked. rewrite list_lookup_imap, list_lookup_fmap.
  destruct (defs !! i) as [[c|f]|] eqn:Hi; simpl; [|done..].
  f_equal. rewrite !fmap_app, concat_app.
  change (map ?g ?l) with (g <$> l).
  rewrite printed_of_synthesized, app_nil_r.
  apply printed_of_registered. apply Forall_forall. intros f Hf.
  by destruct (unlinked_lookup _ _ _ _ Hun Hi Hf).
Qed.




(** ** The output of the script *)

(** X20: What the script prints, from the files of the source set: the
    line of each class whose parent name no declared entity has, in the
    order of the declarations, and then the line of each registered
    function of a class that no row of the headers matches. *)
Theorem main_prints_orphans_and_unmatched_functions fuel files html printed :
  main fuel files = Ok (Some (html, printed)) →
  ∃ defs,
    readScriptDefinitions files [] = Ok defs
    ∧ printed = (parent_not_found defs <$> orphans defs)
                ++ unmatched (rows_of_files files) defs.
Proof.
  unfold main.
  intros (defs & Hdefs & ([defs' out] & Hlink & Hpage)%bind_Ok)%bind_Ok.
  exists defs. split; [done|].
  simpl in Hpage.
  destruct (generateDocs fuel defs') as [[h p]|] eqn:Hgen; [|done].
  injection Hpage as <- <-.
  pose proof (readScriptDefinitions_unlinked _ _ Hdefs) as Hun.
  pose proof (printed_after_link _ _ _ _ _ _ Hun Hlink Hgen) as Hp.
  simpl in Hp. rewrite Hp, readFunctionInfo_rows. simpl. f_equal.
  unfold link in Hlink. apply linkParents_Ok in Hlink as (_ & _ & ->).
  rewrite linkFunctions_closed_form, diagnostics_link_functions.
  apply diagnostics_orphans. by apply unlinked_parents_unlinked.
Qed.

Lemma main_prints_orphans_and_unmatched_functions_witness :
  ∃ defs,
    readScriptDefinitions [("a.cpp", orphan_file)] [] = Ok defs
    ∧ ["Parent not found for:  {Child}"]
      = (parent_not_found defs <$> orphans defs)
        ++ unmatched (rows_of_files [("a.cpp", orphan_file)]) defs.
Proof.
  apply (main_prints_orphans_and_unmatched_functions 2
           [("a.cpp", orphan_file)]
           (default ("", []) (generateDocs 2
              [Class (ScriptClass.set_create false
                        (ScriptClass.set_parent_name (Some "Parent")
                           (ScriptClass.init "Child")))])).1).
  vm_compute. reflexivity.
Defined.

(** ** The replacements of the renderer *)

Lemma occurs_app c (a b : string) :
  occurs c (a +:+ b) = occurs c a || occurs c b.
Proof.
  induction a as [|x a IH]; [done|].
  change (Ascii.eqb x c || occurs c (a +:+ b)
          = Ascii.eqb x c || occurs c a || occurs c b).
  by rewrite IH, orb_assoc.
Qed.

Lemma replace_char_removes old new s :
  occurs old new = false → occurs old (replace_char old new s) = false.
Proof.
  intros Hnew. induction s as [|x s IH]; [done|]. simpl.
  rewrite occurs_app, IH, orb_false_r.
  destruct (Ascii.eqb x old) eqn:Hx; [done|]. simpl. by rewrite Hx.
Qed.

(** X21: The parameters are written to the page without a less-than
    sign, and a description without a newline. *)
Theorem escape_leaves_no_newline s :
  occurs "<" (escape_lt s) = false ∧ occurs Re.newline (escape s) = false.
Proof. split; by apply replace_char_removes. Qed.
